(** * Audio waveform core: peak envelope, extraction engine, instance registry

    A shallow embedding of the C++ core of react-native-audio-waveform
    ([WaveformProcessor.cpp], [WaveformExtractorBase.cpp],
    [AudioWaveformFactory.cpp]) together with the properties of its
    specification and further properties of the code.

    Modelling conventions.
    - A [float] or [double] value that is a number is an exact canonical
      rational ([Qc]): [std::abs], [std::max], [<], [>=], [/] and [*]
      are the exact operations.  Rounding and infinities are outside
      the model; equality of [Qc] values is equality of the numbers
      they denote.
    - A NaN is not a number.  [WaveformProcessor::processWaveform] is
      embedded twice: over numbers, and in [Module Ieee] over floats
      that may be NaN, where [std::max], [_mm_max_ps] and [vmaxq_f32]
      differ.  The first embedding is the restriction of the second to
      numbers ([processWaveform_numbers]).
    - An exception is a [std::exception] or not; the handlers of the
      code tell the two apart.
    - [size_t] values are natural numbers and the two [int] parameters of
      [processWaveform] are integers ([Z]); no product computed by the
      code is assumed to exceed the machine width.
    - [std::vector<float>] is a [list]; [v[i]] is a lookup, [v[i] = x] an
      update in place.  [std::unordered_map<std::string, _>] is a [gmap].
    - An atomic flag read by the code is an oracle: the value returned by
      the k-th load.  Worker threads are a scheduler-driven machine.
    - What the code delivers to a callback is recorded in a trace. *)

From Stdlib Require Import QArith Qcanon Qcabs.
From stdpp Require Import base numbers list gmap strings.

Local Open Scope nat_scope.

(** ** Samples that are numbers *)

Module Sample.

(** [a < b] on floats *)
Definition ltb (a b : Qc) : bool :=
  match (a ?= b)%Qc with Lt => true | _ => false end.

(** [a >= b] on floats *)
Definition geb (a b : Qc) : bool := negb (ltb a b).

(** [std::abs] *)
Definition fabs (x : Qc) : Qc := Qcabs x.

(** [std::max(a, b)]: [(a < b) ? b : a] *)
Definition fmax (a b : Qc) : Qc := if ltb a b then b else a.

(** [_mm_max_ps(a, b)] on one lane: [a > b ? a : b] *)
Definition mm_max (a b : Qc) : Qc := if ltb b a then a else b.

(** [vmaxq_f32(a, b)] on one lane, for two numbers: the larger *)
Definition vmax (a b : Qc) : Qc := if ltb a b then b else a.

(** A decimal literal [n / d]. *)
Definition dec (n : Z) (d : positive) : Qc := Q2Qc (n # d).

End Sample.
Import Sample.

(** ** Loops *)

(** [for (; cond(i); i += step) acc = body(i, acc);] with the final
    value of [i].  [fuel] bounds the number of iterations. *)
Fixpoint for_loop {A : Type} (fuel : nat) (cond : nat → bool) (step : nat)
    (body : nat → A → A) (i : nat) (acc : A) : nat * A :=
  match fuel with
  | O => (i, acc)
  | S fuel' =>
      if cond i then for_loop fuel' cond step body (i + step)%nat (body i acc)
      else (i, acc)
  end.

(** ** WaveformProcessor.cpp: absolute maximum of a block *)

(** A [const float*]: the floats from the pointed one on. *)
Definition fptr := nat → Qc.

(** [audioData[i]] *)
Definition at_index (v : list Qc) (i : nat) : Qc := default 0%Qc (v !! i).

(** [&audioData[start]] *)
Definition ptr_at (v : list Qc) (start : nat) : fptr :=
  λ i, at_index v (start + i).

(** four float lanes *)
Definition lanes : Type := Qc * Qc * Qc * Qc.

Definition lanes_zero : lanes := (0%Qc, 0%Qc, 0%Qc, 0%Qc).

(** [vld1q_f32(data + i)] / [_mm_loadu_ps(data + i)] *)
Definition load4 (data : fptr) (i : nat) : lanes :=
  (data i, data (i + 1)%nat, data (i + 2)%nat, data (i + 3)%nat).

(** [vabsq_f32] / [_mm_and_ps(vec, signMask)] *)
Definition abs4 (v : lanes) : lanes :=
  let '(a, b, c, d) := v in (fabs a, fabs b, fabs c, fabs d).

Definition map2_4 (f : Qc → Qc → Qc) (v w : lanes) : lanes :=
  let '(a, b, c, d) := v in
  let '(a', b', c', d') := w in (f a a', f b b', f c c', f d d').

(** the scalar tail shared by the three variants:
    [for (; i < count; ++i) maxVal = std::max(maxVal, std::abs(data[i]));] *)
Definition tail_loop (data : fptr) (count i : nat) (maxVal : Qc) : Qc :=
  snd (for_loop count (λ i, i <? count)%nat 1
         (λ i maxVal, fmax maxVal (fabs (data i))) i maxVal).

Definition findMaxAbsNeon (data : fptr) (count : nat) : Qc :=
  if (count =? 0)%nat then 0%Qc else
  let '(i, maxVec) :=
    for_loop count (λ i, i + 4 <=? count)%nat 4
      (λ i maxVec, map2_4 vmax maxVec (abs4 (load4 data i))) 0%nat lanes_zero in
  let '(r0, r1, r2, r3) := maxVec in
  (* vmax_f32(low, high), then vpmax_f32 and lane 0 *)
  let max2 := (vmax r0 r2, vmax r1 r3) in
  let maxVal := vmax (fst max2) (snd max2) in
  tail_loop data count i maxVal.

Definition findMaxAbsSSE2 (data : fptr) (count : nat) : Qc :=
  if (count =? 0)%nat then 0%Qc else
  let '(i, maxVec) :=
    for_loop count (λ i, i + 4 <=? count)%nat 4
      (λ i maxVec, map2_4 mm_max maxVec (abs4 (load4 data i))) 0%nat lanes_zero in
  let '(r0, r1, r2, r3) := maxVec in
  let maxVal := fmax (fmax r0 r1) (fmax r2 r3) in
  tail_loop data count i maxVal.

Definition findMaxAbsScalar (data : fptr) (count : nat) : Qc :=
  tail_loop data count 0%nat 0%Qc.

(** which of [HAS_NEON], [HAS_SSE2] the build defines *)
Inductive simd_kind := HasNeon | HasSSE2 | NoSimd.

Definition findMaxAbs (simd : simd_kind) (data : fptr) (count : nat) : Qc :=
  match simd with
  | HasNeon => findMaxAbsNeon data count
  | HasSSE2 => findMaxAbsSSE2 data count
  | NoSimd => findMaxAbsScalar data count
  end.

(** ** Observable behaviour: flag loads and callback deliveries *)

(** the places where the code loads the cancellation flag *)
Inductive site :=
  | BeforeDecode | AfterDecode
  | InBucket (pixel : nat) | AfterJoin
  | AfterProcessing | AfterNormalization.

Inductive event :=
  | EvPoll (s : site) (observed : bool)   (* a load of the flag and its value *)
  | EvBucket (pixel : nat)                (* the bucket has been computed *)
  | EvProgress (v : Qc).                  (* a value handed to the progress sink *)

Global Instance site_eq_dec : EqDecision site.
Proof. solve_decision. Defined.
Global Instance event_eq_dec : EqDecision event.
Proof. solve_decision. Defined.

Definition is_poll (e : event) : bool :=
  match e with EvPoll _ _ => true | _ => false end.

(** the state shared with the caller: the extractor's [progress_] and
    the chronological record of what happened *)
Record world := World { progress_ : Qc; trace : list event }.

Definition log (e : event) (w : world) : world :=
  World (progress_ w) (trace w ++ [e]).

(** number of loads of the flag so far *)
Definition polls (w : world) : nat := length (filter is_poll (trace w)).

(** [const std::atomic<bool>*]: null, or the value each load returns *)
Definition flag_ptr := option (nat → bool).

(** [std::function<void(double)>]: null, or its effect *)
Definition callback := option (Qc → world → world).

(** [cancellationFlag && cancellationFlag->load(acquire)] *)
Definition isCancelled (cancellationFlag : flag_ptr) (s : site) (w : world)
    : bool * world :=
  match cancellationFlag with
  | None => (false, w)
  | Some load => let b := load (polls w) in (b, log (EvPoll s b) w)
  end.

Definition of_nat (n : nat) : Qc := Qc_of_Z (Z.of_nat n).

(** ** WaveformProcessor::processWaveform *)

Abbreviation envelope := (list (list Qc)).

(** [result[channel][pixel] = v] *)
Definition set_cell (channel pixel : nat) (v : Qc) (result : envelope)
    : envelope :=
  alter (λ row, <[pixel := v]> row) channel result.

(** [env[channel][pixel]] *)
Definition cell (env : envelope) (channel pixel : nat) : option Qc :=
  env !! channel ≫= (λ row, row !! pixel).

Section ProcessWaveform.

Variable audioData : list Qc.
Variables samplesPerPixel numChannels : nat.
Variable progressCallback : callback.
Variable cancellationFlag : flag_ptr.

Let totalSamples : nat := length audioData.
Let numPixels : nat := totalSamples / samplesPerPixel / numChannels.

(** the lambda [reportProgress] *)
Definition reportProgress (processed : nat) (w : world) : world :=
  match progressCallback with
  | Some cb => cb (of_nat processed / of_nat numPixels)%Qc w
  | None => w
  end.

Definition startSample (pixel channel : nat) : nat :=
  pixel * samplesPerPixel * numChannels + channel.

Definition endSample (pixel channel : nat) : nat :=
  Nat.min (startSample pixel channel + samplesPerPixel * numChannels)
          totalSamples.

(** the strided scalar loop
    [for (i = startSample; i < endSample; i += numChannels)] *)
Definition strided_max (pixel channel : nat) : Qc :=
  snd (for_loop (endSample pixel channel)
         (λ i, i <? endSample pixel channel)%nat numChannels
         (λ i maxAmplitude, fmax maxAmplitude (fabs (at_index audioData i)))
         (startSample pixel channel) 0%Qc).

(** the body of the channel loop in the single-threaded path *)
Definition st_channels (pixel : nat) (result : envelope) : envelope :=
  foldl (λ result channel,
           set_cell channel pixel (strided_max pixel channel) result)
        result (seq 0 numChannels).

(** the body of the channel loop in a worker *)
Definition mt_channels (simd : simd_kind) (pixel : nat) (result : envelope)
    : envelope :=
  foldl (λ result channel,
           if (numChannels =? 1)%nat then
             let count := endSample pixel channel - startSample pixel channel in
             set_cell channel pixel
               (findMaxAbs simd (ptr_at audioData (startSample pixel channel)) count)
               result
           else set_cell channel pixel (strided_max pixel channel) result)
        result (seq 0 numChannels).

(** the single-threaded pixel loop; [None] is the early [return {}] *)
Fixpoint st_loop (pixels : list nat) (result : envelope) (w : world)
    : option envelope * world :=
  match pixels with
  | [] => (Some result, w)
  | pixel :: rest =>
      let '(cancelled, w) :=
        if (pixel mod 100 =? 0)%nat
        then isCancelled cancellationFlag (InBucket pixel) w
        else (false, w) in
      if cancelled then (None, w) else
      let result := st_channels pixel result in
      let w := log (EvBucket pixel) w in
      let w :=
        if (pixel mod (Nat.max (numPixels / 10) 1) =? 0)%nat
           || (pixel mod 1000 =? 0)%nat
        then reportProgress (pixel + 1) w else w in
      st_loop rest result w
  end.

(** *** The worker threads *)

(** A worker between two of its steps: the next pixel of its loop, the
    end of its range, the counter value it still has to report, and
    whether its lambda has returned on cancellation. *)
Record worker := Worker {
  w_pixel : nat;
  w_endPixel : nat;
  w_pending : option nat;
  w_returned : bool
}.

Record machine := Machine {
  m_result : envelope;
  m_workers : list worker;
  pixelsProcessed : nat;
  m_world : world
}.

Definition pixelsPerThread (numThreads : nat) : nat :=
  (numPixels + numThreads - 1) / numThreads.

Definition spawn (numThreads t : nat) : worker :=
  let startPixel := t * pixelsPerThread numThreads in
  Worker startPixel
         (Nat.min (startPixel + pixelsPerThread numThreads) numPixels)
         None false.

(** One step of worker [t].  A worker with a pending value reports it;
    otherwise it runs one iteration of its pixel loop up to and
    including the [fetch_add]. *)
Definition mt_step (simd : simd_kind) (t : nat) (m : machine) : machine :=
  match m_workers m !! t with
  | None => m
  | Some wk =>
      if w_returned wk then m else
      match w_pending wk with
      | Some processed =>
          Machine (m_result m)
            (<[t := Worker (w_pixel wk) (w_endPixel wk) None false]> (m_workers m))
            (pixelsProcessed m)
            (reportProgress processed (m_world m))
      | None =>
          let pixel := w_pixel wk in
          if (pixel <? w_endPixel wk)%nat then
            let '(cancelled, w) :=
              if (pixel mod 100 =? 0)%nat
              then isCancelled cancellationFlag (InBucket pixel) (m_world m)
              else (false, m_world m) in
            if cancelled then
              Machine (m_result m)
                (<[t := Worker pixel (w_endPixel wk) None true]> (m_workers m))
                (pixelsProcessed m) w
            else
              let processed := (pixelsProcessed m + 1)%nat in
              let pending :=
                if (processed mod (Nat.max (numPixels / 20) 1) =? 0)%nat
                   || (processed mod 500 =? 0)%nat
                then Some processed else None in
              Machine (mt_channels simd pixel (m_result m))
                (<[t := Worker (pixel + 1) (w_endPixel wk) pending false]>
                   (m_workers m))
                processed
                (log (EvBucket pixel) w)
          else m
      end
  end.

(** [future.wait()] on worker [t]: the worker runs to its end *)
Definition join (simd : simd_kind) (numThreads : nat) (m : machine) (t : nat)
    : machine :=
  Nat.iter (2 * pixelsPerThread numThreads + 1) (mt_step simd t) m.

(** The multi-threaded path.  [sched] is the order in which the
    workers take their steps while they run concurrently. *)
Definition mt_run (simd : simd_kind) (numThreads : nat) (sched : list nat)
    (result : envelope) (w : world) : machine :=
  let m0 := Machine result (spawn numThreads <$> seq 0 numThreads) 0 w in
  let m1 := foldl (λ m t, mt_step simd t m) m0 sched in
  foldl (join simd numThreads) m1 (seq 0 numThreads).

(** the part of [processWaveform] after the two guards *)
Definition process_body (hardware_concurrency : nat) (simd : simd_kind)
    (sched : list nat) (w : world) : envelope * world :=
  let result := replicate numChannels (replicate numPixels 0%Qc) in
  let numThreads := Nat.min hardware_concurrency numPixels in
  if (numThreads <=? 1)%nat then
    match st_loop (seq 0 numPixels) result w with
    | (None, w) => ([], w)
    | (Some result, w) => (result, reportProgress numPixels w)
    end
  else
    let m := mt_run simd numThreads sched result w in
    let '(cancelled, w) := isCancelled cancellationFlag AfterJoin (m_world m) in
    if cancelled then ([], w)
    else (m_result m, reportProgress numPixels w).

End ProcessWaveform.

(** What the platform and the scheduler decide: the number of logical
    CPUs, the SIMD unit, and the interleaving of the workers. *)
Record platform := Platform {
  hardware_concurrency : nat;
  simd : simd_kind;
  sched : list nat
}.

Definition processWaveform (pf : platform) (audioData : list Qc)
    (samplesPerPixel numChannels : Z)
    (progressCallback : callback) (cancellationFlag : flag_ptr) (w : world)
    : envelope * world :=
  if bool_decide (audioData = []) || (samplesPerPixel <=? 0)%Z
     || (numChannels <=? 0)%Z
  then ([], w)
  else
    let S := Z.to_nat samplesPerPixel in
    let C := Z.to_nat numChannels in
    let numPixels := (length audioData / S / C)%nat in
    if (numPixels =? 0)%nat then ([], w)
    else process_body audioData S C progressCallback cancellationFlag
           (hardware_concurrency pf) (simd pf) (sched pf) w.

(** ** WaveformProcessor.cpp over floats that may be NaN

    The processor once more, with the same text, over floats of which
    some are NaN.  A comparison with a NaN is false, so that
    [std::max] returns its first operand, [_mm_max_ps] its second, and
    [vmaxq_f32] a NaN.  The definitions above are the restriction of
    these to floats that are numbers. *)

Module Ieee.

(** a [float]: a number or a NaN *)
Inductive float := Num (q : Qc) | NaN.

Global Instance float_eq_dec : EqDecision float.
Proof. solve_decision. Defined.

(** [a < b]: false when one of the two is a NaN *)
Definition ltb (a b : float) : bool :=
  match a, b with
  | Num x, Num y => Sample.ltb x y
  | _, _ => false
  end.

(** [std::abs], [vabsq_f32], [_mm_and_ps(vec, signMask)]: the sign bit
    is cleared; a NaN stays a NaN *)
Definition fabs (x : float) : float :=
  match x with
  | Num q => Num (Sample.fabs q)
  | NaN => NaN
  end.

(** [std::max(a, b)]: [(a < b) ? b : a] *)
Definition fmax (a b : float) : float := if ltb a b then b else a.

(** [_mm_max_ps(a, b)] on one lane: [a > b ? a : b] *)
Definition mm_max (a b : float) : float := if ltb b a then a else b.

(** [vmaxq_f32(a, b)], [vmax_f32(a, b)], [vpmax_f32(a, b)] on one lane:
    a NaN when one of the two is a NaN, else the larger *)
Definition vmax (a b : float) : float :=
  match a, b with
  | Num x, Num y => Num (Sample.vmax x y)
  | _, _ => NaN
  end.

(** [0.0f] *)
Definition zero : float := Num 0%Qc.

(** A [const float*]: the floats from the pointed one on. *)
Definition fptr := nat → float.

(** [audioData[i]] *)
Definition at_index (v : list float) (i : nat) : float :=
  default zero (v !! i).

(** [&audioData[start]] *)
Definition ptr_at (v : list float) (start : nat) : fptr :=
  λ i, at_index v (start + i).

(** four float lanes *)
Definition lanes : Type := float * float * float * float.

Definition lanes_zero : lanes := (zero, zero, zero, zero).

(** [vld1q_f32(data + i)] / [_mm_loadu_ps(data + i)] *)
Definition load4 (data : fptr) (i : nat) : lanes :=
  (data i, data (i + 1)%nat, data (i + 2)%nat, data (i + 3)%nat).

(** [vabsq_f32] / [_mm_and_ps(vec, signMask)] *)
Definition abs4 (v : lanes) : lanes :=
  let '(a, b, c, d) := v in (fabs a, fabs b, fabs c, fabs d).

Definition map2_4 (f : float → float → float) (v w : lanes) : lanes :=
  let '(a, b, c, d) := v in
  let '(a', b', c', d') := w in (f a a', f b b', f c c', f d d').

(** [for (; i < count; ++i) maxVal = std::max(maxVal, std::abs(data[i]));] *)
Definition tail_loop (data : fptr) (count i : nat) (maxVal : float) : float :=
  snd (for_loop count (λ i, i <? count)%nat 1
         (λ i maxVal, fmax maxVal (fabs (data i))) i maxVal).

Definition findMaxAbsNeon (data : fptr) (count : nat) : float :=
  if (count =? 0)%nat then zero else
  let '(i, maxVec) :=
    for_loop count (λ i, i + 4 <=? count)%nat 4
      (λ i maxVec, map2_4 vmax maxVec (abs4 (load4 data i))) 0%nat lanes_zero in
  let '(r0, r1, r2, r3) := maxVec in
  (* vmax_f32(low, high), then vpmax_f32 and lane 0 *)
  let max2 := (vmax r0 r2, vmax r1 r3) in
  let maxVal := vmax (fst max2) (snd max2) in
  tail_loop data count i maxVal.

Definition findMaxAbsSSE2 (data : fptr) (count : nat) : float :=
  if (count =? 0)%nat then zero else
  let '(i, maxVec) :=
    for_loop count (λ i, i + 4 <=? count)%nat 4
      (λ i maxVec, map2_4 mm_max maxVec (abs4 (load4 data i))) 0%nat lanes_zero in
  let '(r0, r1, r2, r3) := maxVec in
  let maxVal := fmax (fmax r0 r1) (fmax r2 r3) in
  tail_loop data count i maxVal.

Definition findMaxAbsScalar (data : fptr) (count : nat) : float :=
  tail_loop data count 0%nat zero.

Definition findMaxAbs (simd : simd_kind) (data : fptr) (count : nat) : float :=
  match simd with
  | HasNeon => findMaxAbsNeon data count
  | HasSSE2 => findMaxAbsSSE2 data count
  | NoSimd => findMaxAbsScalar data count
  end.

Abbreviation envelope := (list (list float)).

(** [result[channel][pixel] = v] *)
Definition set_cell (channel pixel : nat) (v : float) (result : envelope)
    : envelope :=
  alter (λ row, <[pixel := v]> row) channel result.

Section ProcessWaveform.

Variable audioData : list float.
Variables samplesPerPixel numChannels : nat.
Variable progressCallback : callback.
Variable cancellationFlag : flag_ptr.

Let totalSamples : nat := length audioData.
Let numPixels : nat := totalSamples / samplesPerPixel / numChannels.

Definition reportProgress (processed : nat) (w : world) : world :=
  match progressCallback with
  | Some cb => cb (of_nat processed / of_nat numPixels)%Qc w
  | None => w
  end.

Definition startSample (pixel channel : nat) : nat :=
  pixel * samplesPerPixel * numChannels + channel.

Definition endSample (pixel channel : nat) : nat :=
  Nat.min (startSample pixel channel + samplesPerPixel * numChannels)
          totalSamples.

(** the strided scalar loop
    [for (i = startSample; i < endSample; i += numChannels)] *)
Definition strided_max (pixel channel : nat) : float :=
  snd (for_loop (endSample pixel channel)
         (λ i, i <? endSample pixel channel)%nat numChannels
         (λ i maxAmplitude, fmax maxAmplitude (fabs (at_index audioData i)))
         (startSample pixel channel) zero).

(** the body of the channel loop in the single-threaded path *)
Definition st_channels (pixel : nat) (result : envelope) : envelope :=
  foldl (λ result channel,
           set_cell channel pixel (strided_max pixel channel) result)
        result (seq 0 numChannels).

(** the body of the channel loop in a worker *)
Definition mt_channels (simd : simd_kind) (pixel : nat) (result : envelope)
    : envelope :=
  foldl (λ result channel,
           if (numChannels =? 1)%nat then
             let count := endSample pixel channel - startSample pixel channel in
             set_cell channel pixel
               (findMaxAbs simd (ptr_at audioData (startSample pixel channel)) count)
               result
           else set_cell channel pixel (strided_max pixel channel) result)
        result (seq 0 numChannels).

(** the single-threaded pixel loop; [None] is the early [return {}] *)
Fixpoint st_loop (pixels : list nat) (result : envelope) (w : world)
    : option envelope * world :=
  match pixels with
  | [] => (Some result, w)
  | pixel :: rest =>
      let '(cancelled, w) :=
        if (pixel mod 100 =? 0)%nat
        then isCancelled cancellationFlag (InBucket pixel) w
        else (false, w) in
      if cancelled then (None, w) else
      let result := st_channels pixel result in
      let w := log (EvBucket pixel) w in
      let w :=
        if (pixel mod (Nat.max (numPixels / 10) 1) =? 0)%nat
           || (pixel mod 1000 =? 0)%nat
        then reportProgress (pixel + 1) w else w in
      st_loop rest result w
  end.

(** the workers, as above, with an envelope of floats *)
Record machine := Machine {
  m_result : envelope;
  m_workers : list worker;
  pixelsProcessed : nat;
  m_world : world
}.

Definition pixelsPerThread (numThreads : nat) : nat :=
  (numPixels + numThreads - 1) / numThreads.

Definition spawn (numThreads t : nat) : worker :=
  let startPixel := t * pixelsPerThread numThreads in
  Worker startPixel
         (Nat.min (startPixel + pixelsPerThread numThreads) numPixels)
         None false.

Definition mt_step (simd : simd_kind) (t : nat) (m : machine) : machine :=
  match m_workers m !! t with
  | None => m
  | Some wk =>
      if w_returned wk then m else
      match w_pending wk with
      | Some processed =>
          Machine (m_result m)
            (<[t := Worker (w_pixel wk) (w_endPixel wk) None false]> (m_workers m))
            (pixelsProcessed m)
            (reportProgress processed (m_world m))
      | None =>
          let pixel := w_pixel wk in
          if (pixel <? w_endPixel wk)%nat then
            let '(cancelled, w) :=
              if (pixel mod 100 =? 0)%nat
              then isCancelled cancellationFlag (InBucket pixel) (m_world m)
              else (false, m_world m) in
            if cancelled then
              Machine (m_result m)
                (<[t := Worker pixel (w_endPixel wk) None true]> (m_workers m))
                (pixelsProcessed m) w
            else
              let processed := (pixelsProcessed m + 1)%nat in
              let pending :=
                if (processed mod (Nat.max (numPixels / 20) 1) =? 0)%nat
                   || (processed mod 500 =? 0)%nat
                then Some processed else None in
              Machine (mt_channels simd pixel (m_result m))
                (<[t := Worker (pixel + 1) (w_endPixel wk) pending false]>
                   (m_workers m))
                processed
                (log (EvBucket pixel) w)
          else m
      end
  end.

Definition join (simd : simd_kind) (numThreads : nat) (m : machine) (t : nat)
    : machine :=
  Nat.iter (2 * pixelsPerThread numThreads + 1) (mt_step simd t) m.

Definition mt_run (simd : simd_kind) (numThreads : nat) (sched : list nat)
    (result : envelope) (w : world) : machine :=
  let m0 := Machine result (spawn numThreads <$> seq 0 numThreads) 0 w in
  let m1 := foldl (λ m t, mt_step simd t m) m0 sched in
  foldl (join simd numThreads) m1 (seq 0 numThreads).

Definition process_body (hardware_concurrency : nat) (simd : simd_kind)
    (sched : list nat) (w : world) : envelope * world :=
  let result := replicate numChannels (replicate numPixels zero) in
  let numThreads := Nat.min hardware_concurrency numPixels in
  if (numThreads <=? 1)%nat then
    match st_loop (seq 0 numPixels) result w with
    | (None, w) => ([], w)
    | (Some result, w) => (result, reportProgress numPixels w)
    end
  else
    let m := mt_run simd numThreads sched result w in
    let '(cancelled, w) := isCancelled cancellationFlag AfterJoin (m_world m) in
    if cancelled then ([], w)
    else (m_result m, reportProgress numPixels w).

End ProcessWaveform.

Definition processWaveform (pf : platform) (audioData : list float)
    (samplesPerPixel numChannels : Z)
    (progressCallback : callback) (cancellationFlag : flag_ptr) (w : world)
    : envelope * world :=
  if bool_decide (audioData = []) || (samplesPerPixel <=? 0)%Z
     || (numChannels <=? 0)%Z
  then ([], w)
  else
    let S := Z.to_nat samplesPerPixel in
    let C := Z.to_nat numChannels in
    let numPixels := (length audioData / S / C)%nat in
    if (numPixels =? 0)%nat then ([], w)
    else process_body audioData S C progressCallback cancellationFlag
           (hardware_concurrency pf) (simd pf) (sched pf) w.

End Ieee.

(** ** WaveformProcessor::normalizeWaveform *)

Definition normalize_channel (scale threshold : Qc) (channelData : list Qc)
    : list Qc :=
  match channelData with
  | [] => []
  | _ =>
      let maxAmplitude :=
        foldl (λ maxAmplitude sample,
                 if geb (fabs sample) threshold
                 then fmax maxAmplitude (fabs sample) else maxAmplitude)
              0%Qc channelData in
      if ltb 0%Qc maxAmplitude then
        (λ sample,
           if ltb (fabs sample) threshold then 0%Qc
           else ((sample / maxAmplitude) * scale)%Qc) <$> channelData
      else replicate (length channelData) 0%Qc
  end.

Definition normalizeWaveform (data : envelope) (scale threshold : Qc)
    : envelope :=
  match data with
  | [] => []
  | _ => normalize_channel scale threshold <$> data
  end.

(** ** WaveformExtractorBase.cpp *)

(** [updateProgress]: clamp to [0, 1], store, hand to the callback *)
Definition updateProgress (progress : Qc) (w : world) : world :=
  let progress := if ltb progress 0%Qc then 0%Qc else progress in
  let progress := if ltb 1%Qc progress then 1%Qc else progress in
  World progress (trace w ++ [EvProgress progress]).

(** the lambda [progressMapper] of [WaveformExtractorBase::processWaveform] *)
Definition progressMapper (processorProgress : Qc) (w : world) : world :=
  let mappedProgress := (dec 5 10 + processorProgress * dec 3 10)%Qc in
  updateProgress mappedProgress w.

(** what a handler can tell of an exception: it is a [std::exception],
    which [catch (const std::exception&)] catches, or it is not *)
Inductive exception := StdException | OtherException.

(** what a call of the platform decoder does *)
Inductive decode_outcome :=
  | Decoded (audioData : list Qc)
  | DecodeThrows (e : exception).

(** how the future of [extract] completes *)
Inductive outcome :=
  | Resolved (waveform : envelope)
  | Rejected.                        (* the exception of the decoder *)

Section Extract.

Variable pf : platform.
(** the platform decoder *)
Variable decodeAudioData : string → decode_outcome.
(** what each load of [cancelled_] returns during the job *)
Variable cancelled_ : nat → bool.

Definition extractor_processWaveform (audioData : list Qc)
    (samplesPerPixel numChannels : Z) (w : world) : envelope * world :=
  processWaveform pf audioData samplesPerPixel numChannels
    (Some progressMapper) (Some cancelled_) w.

(** the body of the task started by [extract] *)
Definition extract (config : string) : outcome * world :=
  (* resetCancellation(); progress_.store(0.0) *)
  let w := World 0%Qc [] in
  let w := updateProgress (dec 1 10) w in
  let '(c, w) := isCancelled (Some cancelled_) BeforeDecode w in
  if c then (Resolved [], updateProgress 0%Qc w) else
  match decodeAudioData config with
  | DecodeThrows StdException =>
      (* catch (const std::exception&): progress_.store(0.0); throw; *)
      (Rejected, World 0%Qc (trace w))
  | DecodeThrows OtherException =>
      (* no handler: the exception leaves the lambda *)
      (Rejected, w)
  | Decoded audioData =>
      let '(c, w) := isCancelled (Some cancelled_) AfterDecode w in
      if c then (Resolved [], updateProgress 0%Qc w) else
      let w := updateProgress (dec 5 10) w in
      let samplesPerPixel := 100%Z in
      let numChannels := 2%Z in
      let '(waveform, w) :=
        extractor_processWaveform audioData samplesPerPixel numChannels w in
      let '(c, w) := isCancelled (Some cancelled_) AfterProcessing w in
      if c then (Resolved [], updateProgress 0%Qc w) else
      let w := updateProgress (dec 8 10) w in
      let normalize := true in
      let scale := 1%Qc in
      let threshold := 0%Qc in
      let waveform :=
        if normalize then normalizeWaveform waveform scale threshold
        else waveform in
      let '(c, w) := isCancelled (Some cancelled_) AfterNormalization w in
      if c then (Resolved [], updateProgress 0%Qc w) else
      let w := updateProgress 1%Qc w in
      (Resolved waveform, w)
  end.

End Extract.

(** the values delivered to the progress callback, in order *)
Definition delivered (w : world) : list Qc :=
  omap (λ e, match e with EvProgress v => Some v | _ => None end) (trace w).

(** ** AudioWaveformFactory.cpp *)

(** what [player->isPlaying()] does when it is called *)
Inductive playing_outcome :=
  | Playing (b : bool)             (* it returns [b] *)
  | PlayingThrows (e : exception).

(** what [player->stop()] does when it is called *)
Inductive stop_outcome :=
  | StopNull                    (* a null promise *)
  | StopResolved (ok : bool)    (* the promise resolves to [ok] *)
  | StopThrows (e : exception). (* [stop()] or [get()] on the promise throws *)

Record player := Player { isPlaying : playing_outcome; stop : stop_outcome }.

(** [cancel_throws]: whether [extractor->cancel()] raises *)
Record extractor := Extractor { cancel_throws : bool }.

Inductive factory_error :=
  | AlreadyExists      (* "... already exists" *)
  | LimitReached       (* "Maximum number of players (30) reached" *)
  | CreationFailed.    (* "Failed to create ... instance" *)

Inductive result (A : Type) :=
  | Ok (a : A)
  | Throw (e : factory_error).
Arguments Ok {A} a.
Arguments Throw {A} e.

Record factory := Factory {
  players_ : gmap string player;
  extractors_ : gmap string extractor
}.

Definition MAX_PLAYERS : nat := 30.

Section Factory.

(** the platform subclass; [None] is a null pointer *)
Variable createPlatformPlayer : string → option player.
Variable createPlatformExtractor : string → option extractor.

Definition createPlayer (key : string) (f : factory)
    : result player * factory :=
  if bool_decide (is_Some (players_ f !! key)) then (Throw AlreadyExists, f)
  else if (MAX_PLAYERS <=? size (players_ f))%nat then (Throw LimitReached, f)
  else match createPlatformPlayer key with
       | None => (Throw CreationFailed, f)
       | Some player =>
           (Ok player, Factory (<[key := player]> (players_ f)) (extractors_ f))
       end.

Definition createExtractor (key : string) (f : factory)
    : result extractor * factory :=
  if bool_decide (is_Some (extractors_ f !! key)) then (Throw AlreadyExists, f)
  else match createPlatformExtractor key with
       | None => (Throw CreationFailed, f)
       | Some extractor =>
           (Ok extractor,
            Factory (players_ f) (<[key := extractor]> (extractors_ f)))
       end.

(** One iteration of the loop of [stopAllPlayers].  The state is the
    flag [allStopped], or [None] once an exception that the handler
    does not catch has left the loop, and the keys on which [stop()]
    has been called. *)
Definition stop_one (acc : option bool * list string) (pair : string * player)
    : option bool * list string :=
  let '(running, stopped) := acc in
  let '(key, player) := pair in
  match running with
  | None => acc
  | Some allStopped =>
      match isPlaying player with
      | Playing false => acc
      | Playing true =>
          match stop player with
          | StopNull => (Some allStopped, stopped ++ [key])
          | StopResolved r =>
              (Some (if r then allStopped else false), stopped ++ [key])
          | StopThrows StdException => (Some false, stopped ++ [key])
          | StopThrows OtherException => (None, stopped ++ [key])
          end
      | PlayingThrows StdException => (Some false, stopped)
      | PlayingThrows OtherException => (None, stopped)
      end
  end.

(** The lambda of [stopAllPlayers]: how its future completes ([Some
    allStopped], or [None] when it is rejected with the exception that
    left the loop), the [stop()] calls, and the factory afterwards.
    [players_.clear()] is reached only when the loop ends.  A
    registered pointer is never null: [createPlayer] throws before it
    stores one. *)
Definition stopAllPlayers (f : factory)
    : option bool * list string * factory :=
  let '(running, stopped) :=
    foldl stop_one (Some true, []) (map_to_list (players_ f)) in
  match running with
  | Some allStopped => (Some allStopped, stopped, Factory ∅ (extractors_ f))
  | None => (None, stopped, f)
  end.

(** one iteration of the loop of [stopAllExtractors]; an exception of
    [cancel()] is caught and dropped *)
Definition cancel_one (cancelled : list string) (pair : string * extractor)
    : list string :=
  let '(key, extractor) := pair in
  if cancel_throws extractor then cancelled else cancelled ++ [key].

Definition stopAllExtractors (f : factory) : bool * list string * factory :=
  let cancelled := foldl cancel_one [] (map_to_list (extractors_ f)) in
  (true, cancelled, Factory (players_ f) ∅).

Definition removePlayer (key : string) (f : factory) : bool * factory :=
  match players_ f !! key with
  | Some _ => (true, Factory (delete key (players_ f)) (extractors_ f))
  | None => (false, f)
  end.

Definition removeExtractor (key : string) (f : factory) : bool * factory :=
  match extractors_ f !! key with
  | Some _ => (true, Factory (players_ f) (delete key (extractors_ f)))
  | None => (false, f)
  end.

Definition getPlayerCount (f : factory) : nat := size (players_ f).
Definition getExtractorCount (f : factory) : nat := size (extractors_ f).
Definition hasPlayer (key : string) (f : factory) : bool :=
  bool_decide (is_Some (players_ f !! key)).
Definition hasExtractor (key : string) (f : factory) : bool :=
  bool_decide (is_Some (extractors_ f !! key)).

(** the operations of the registry that change its maps *)
Inductive operation :=
  | CreatePlayer (key : string)
  | CreateExtractor (key : string)
  | RemovePlayer (key : string)
  | RemoveExtractor (key : string)
  | StopAllPlayers
  | StopAllExtractors.

Definition apply_operation (f : factory) (op : operation) : factory :=
  match op with
  | CreatePlayer key => snd (createPlayer key f)
  | CreateExtractor key => snd (createExtractor key f)
  | RemovePlayer key => snd (removePlayer key f)
  | RemoveExtractor key => snd (removeExtractor key f)
  | StopAllPlayers => snd (stopAllPlayers f)
  | StopAllExtractors => snd (stopAllExtractors f)
  end.

(** a factory after a sequence of operations, starting empty *)
Definition run_operations (ops : list operation) : factory :=
  foldl apply_operation (Factory ∅ ∅) ops.

End Factory.

(** *** The recorder and the destructor *)

Section Lifecycle.

(** [std::shared_ptr<AudioRecorderBase>]: the factory calls no method of
    a recorder *)
Context {recorder : Type}.

(** the object: the two maps and [recorderInstance_], the weak
    reference to the recorder created last *)
Record factory_impl := FactoryImpl {
  maps : factory;
  recorderInstance_ : option recorder
}.

(** [created] is what [createPlatformRecorder()] returns at this call;
    [None] is a null pointer *)
Definition createRecorder (created : option recorder) (f : factory_impl)
    : result recorder * factory_impl :=
  match created with
  | None => (Throw CreationFailed, f)
  | Some recorder => (Ok recorder, FactoryImpl (maps f) (Some recorder))
  end.

(** one iteration of the first loop of [cleanupAllInstances]: the keys
    on which [stop()] has been called; the promise is dropped and
    [catch (...)] catches every exception *)
Definition cleanup_stop_one (stopped : list string) (pair : string * player)
    : list string :=
  let '(key, player) := pair in
  match isPlaying player with
  | Playing true => stopped ++ [key]
  | Playing false | PlayingThrows _ => stopped
  end.

(** the destructor: the [stop()] calls, the extractors cancelled, and
    the object that is left *)
Definition cleanupAllInstances (f : factory_impl)
    : list string * list string * factory_impl :=
  let stopped :=
    foldl cleanup_stop_one [] (map_to_list (players_ (maps f))) in
  let cancelled :=
    foldl cancel_one [] (map_to_list (extractors_ (maps f))) in
  (stopped, cancelled, FactoryImpl (Factory ∅ ∅) None).

End Lifecycle.
Arguments factory_impl : clear implicits.

(** * Vocabulary of the properties *)

(** ** Maxima, peaks and envelopes *)

(** [v] bounds the magnitudes of the floats of [data] with index in
    [[lo, hi)] *)
Definition bounds (data : fptr) (lo hi : nat) (v : Qc) : Prop :=
  ∀ i, lo ≤ i < hi → (fabs (data i) ≤ v)%Qc.

(** [v] is zero or the magnitude of one of the first [n] floats of [data] *)
Definition attained (data : fptr) (n : nat) (v : Qc) : Prop :=
  v = 0%Qc ∨ ∃ i, i < n ∧ v = fabs (data i).

(** the state of the four lanes after the blocks below [i] *)
Definition lanes_inv (data : fptr) (count i : nat) (v : lanes) : Prop :=
  let '(r0, r1, r2, r3) := v in
  i ≤ count ∧ (∃ j, i = 4 * j)
  ∧ (∀ j, 4 * j + 3 < i →
       Qcle (fabs (data (4 * j))) r0 ∧ Qcle (fabs (data (4 * j + 1))) r1
       ∧ Qcle (fabs (data (4 * j + 2))) r2 ∧ Qcle (fabs (data (4 * j + 3))) r3)
  ∧ attained data count r0 ∧ attained data count r1
  ∧ attained data count r2 ∧ attained data count r3.

(** [v] is the largest magnitude among the [S] samples of the bucket
    [pixel] on the channel [channel] *)
Definition is_peak (audioData : list Qc) (S C : nat) (pixel channel : nat)
    (v : Qc) : Prop :=
  (∀ k, k < S →
     Qcle (fabs (at_index audioData (pixel * S * C + k * C + channel))) v)
  ∧ (∃ k, k < S
       ∧ v = fabs (at_index audioData (pixel * S * C + k * C + channel))).

(** [C] channels of [B] buckets each *)
Definition shaped (C B : nat) (r : envelope) : Prop :=
  length r = C ∧ Forall (λ row, length row = B) r.

(** a flag that no load finds set (or no flag at all) *)
Definition never_set (cancellationFlag : flag_ptr) : Prop :=
  ∀ load, cancellationFlag = Some load → ∀ k, load k = false.

(** the envelope of all peaks *)
Definition peaks (audioData : list Qc) (S C : nat) : envelope :=
  (λ channel,
     (λ pixel, strided_max audioData S C pixel channel)
       <$> seq 0 (length audioData / S / C))
    <$> seq 0 C.

(** the buckets in [D] hold their peaks *)
Definition filled (audioData : list Qc) (S C : nat) (D : nat → Prop)
    (r : envelope) : Prop :=
  shaped C (length audioData / S / C) r
  ∧ ∀ c p, c < C → p < length audioData / S / C → D p →
      cell r c p = Some (strided_max audioData S C p c).

(** the state of worker [t] is consistent with the envelope [r] *)
Definition worker_ok (audioData : list Qc) (S C numThreads : nat)
    (r : envelope) (t : nat) (wk : worker) : Prop :=
  w_returned wk = false
  ∧ w_endPixel wk
    = Nat.min (t * pixelsPerThread audioData S C numThreads
               + pixelsPerThread audioData S C numThreads)
              (length audioData / S / C)
  ∧ t * pixelsPerThread audioData S C numThreads ≤ w_pixel wk
  ∧ (w_pixel wk ≤ w_endPixel wk
     ∨ w_pixel wk = t * pixelsPerThread audioData S C numThreads)
  ∧ ∀ c p, c < C →
      t * pixelsPerThread audioData S C numThreads ≤ p < w_pixel wk →
      cell r c p = Some (strided_max audioData S C p c).

(** the invariant of the machine of the workers *)
Definition minv (audioData : list Qc) (S C numThreads : nat) (m : machine)
    : Prop :=
  shaped C (length audioData / S / C) (m_result m)
  ∧ ∀ t wk, m_workers m !! t = Some wk →
      worker_ok audioData S C numThreads (m_result m) t wk.

(** no step moves a worker backwards *)
Definition advances (m m' : machine) : Prop :=
  ∀ t wk, m_workers m !! t = Some wk →
    ∃ wk', m_workers m' !! t = Some wk'
      ∧ w_endPixel wk' = w_endPixel wk ∧ w_pixel wk ≤ w_pixel wk'.

(** what a worker still has to do: two steps for each bucket left and
    one for a pending report *)
Definition worker_mu (wk : worker) : nat :=
  2 * (w_endPixel wk - w_pixel wk)
  + match w_pending wk with Some _ => 1 | None => 0 end.

(** the number of whole buckets, [⌊N / (S·C)⌋] *)
Definition buckets (pcm : list Qc) (S C : Z) : nat :=
  Z.to_nat (Z.of_nat (length pcm) / (S * C)).

(** the two guards of [processWaveform] *)
Definition rejected (pcm : list Qc) (S C : Z) : bool :=
  bool_decide (pcm = []) || (S <=? 0)%Z || (C <=? 0)%Z
  || (length pcm / Z.to_nat S / Z.to_nat C =? 0).

(** [v] is zero or the magnitude of one of the samples of [pcm] *)
Definition magnitude_of (pcm : list Qc) (v : Qc) : Prop :=
  v = 0%Qc ∨ ∃ x, x ∈ pcm ∧ v = fabs x.

(** every value of the envelope satisfies [P] *)
Definition cells (P : Qc → Prop) (r : envelope) : Prop := Forall (Forall P) r.

(** the samples of channel [c] in the whole frames of an interleaved
    buffer of [C] channels *)
Definition channel_samples (pcm : list Qc) (C c : nat) : list Qc :=
  (λ j, at_index pcm (j * C + c)) <$> seq 0 (length pcm / C).

(** ** Floats that may be NaN *)

(** the float is a number *)
Definition is_number (x : Ieee.float) : Prop := x ≠ Ieee.NaN.

Global Instance is_number_dec x : Decision (is_number x).
Proof. unfold is_number. apply _. Defined.

(** a buffer, four lanes, an envelope and a machine of numbers, as floats *)
Definition numbers (pcm : list Qc) : list Ieee.float := Ieee.Num <$> pcm.

Definition number_lanes (v : lanes) : Ieee.lanes :=
  let '(a, b, c, d) := v in (Ieee.Num a, Ieee.Num b, Ieee.Num c, Ieee.Num d).

Definition number_envelope (r : envelope) : list (list Ieee.float) :=
  (λ row : list Qc, Ieee.Num <$> row) <$> r.

Definition number_machine (m : machine) : Ieee.machine :=
  Ieee.Machine (number_envelope (m_result m)) (m_workers m)
    (pixelsProcessed m) (m_world m).

(** the buffer with zero in the place of every NaN *)
Definition scrub (pcm : list Ieee.float) : list Qc :=
  (λ x, match x with Ieee.Num q => q | Ieee.NaN => 0%Qc end) <$> pcm.

(** a number that is not negative *)
Definition nonneg_number (x : Ieee.float) : Prop :=
  ∃ q, x = Ieee.Num q ∧ (0 ≤ q)%Qc.

(** the samples of channel [c] in the whole frames of an interleaved
    buffer of [C] channels *)
Definition float_channel_samples (pcm : list Ieee.float) (C c : nat)
    : list Ieee.float :=
  (λ j, Ieee.at_index pcm (j * C + c)) <$> seq 0 (length pcm / C).

(** ** Traces *)

(** an event of [processWaveform] itself: a load inside the bucket
    loop or after the join, a bucket, a progress value that satisfies [Q] *)
Definition processor_event (Q : Qc → Prop) (e : event) : Prop :=
  match e with
  | EvPoll (InBucket _) _ | EvPoll AfterJoin _ | EvBucket _ => True
  | EvProgress v => Q v
  | EvPoll _ _ => False
  end.

(** a progress value that satisfies [Q] *)
Definition progress_event (Q : Qc → Prop) (e : event) : Prop :=
  match e with EvProgress v => Q v | _ => False end.

(** a value of the range of progress *)
Definition clamped (v : Qc) : Prop := (0 ≤ v)%Qc ∧ (v ≤ 1)%Qc.

(** a load that found the flag set *)
Definition saw_cancel (e : event) : Prop :=
  match e with EvPoll _ true => True | _ => False end.

(** [w'] continues [w] by events that satisfy [P] *)
Definition extends (P : event → Prop) (w w' : world) : Prop :=
  ∃ evs, trace w' = trace w ++ evs ∧ Forall P evs.

(** a callback that does nothing but deliver progress values that
    satisfy [Q] *)
Definition delivers (Q : Qc → Prop) (cb : callback) : Prop :=
  ∀ f, cb = Some f → ∀ v w, extends (progress_event Q) w (f v w).

(** a flag that stays set once it is set *)
Definition sticky (load : nat → bool) : Prop :=
  ∀ k k', k ≤ k' → load k = true → load k' = true.

(** one of the loads made so far found the flag set *)
Definition seen (load : nat → bool) (w : world) : Prop :=
  ∃ k, k < polls w ∧ load k = true.

(** [w] continues [w0], and if one of the new events is a load that
    found the flag set, the oracle was set at one of the loads so far *)
Definition tracked (load : nat → bool) (w0 w : world) : Prop :=
  ∃ evs, trace w = trace w0 ++ evs ∧ (Exists saw_cancel evs → seen load w).

(** in [evs] every bucket whose index is a multiple of 100 comes right
    after a load of the flag for that bucket, which found it clear *)
Definition polled_before (evs : list event) : Prop :=
  ∀ i p, evs !! i = Some (EvBucket p) → p mod 100 = 0 →
    ∃ j, i = j + 1 ∧ evs !! j = Some (EvPoll (InBucket p) false).

(** [w] continues [w0] by events with that property *)
Definition well_polled (w0 w : world) : Prop :=
  ∃ evs, trace w = trace w0 ++ evs ∧ polled_before evs.

Definition no_bucket (e : event) : Prop :=
  match e with EvBucket _ => False | _ => True end.

(** a part of the work: a value in (0, 1] *)
Definition fraction (v : Qc) : Prop := (0 < v)%Qc ∧ (v ≤ 1)%Qc.

(** a callback that, handed a value that satisfies [R], does nothing
    but deliver progress values that satisfy [Q] *)
Definition delivers_on (R Q : Qc → Prop) (cb : callback) : Prop :=
  ∀ f, cb = Some f → ∀ v w, R v → extends (progress_event Q) w (f v w).

(** the buckets a worker has not computed yet *)
Definition remaining (wk : worker) : nat := w_endPixel wk - w_pixel wk.

(** the counter [pixelsProcessed] and the values still to be reported
    never exceed the number of buckets *)
Definition counted (numPixels : nat) (m : machine) : Prop :=
  pixelsProcessed m + sum_list (remaining <$> m_workers m) ≤ numPixels
  ∧ ∀ t wk p, m_workers m !! t = Some wk → w_pending wk = Some p →
      1 ≤ p ≤ numPixels.

(** a callback that records the value it is handed *)
Definition recording : callback := Some (λ v w, log (EvProgress v) w).

(** the four places where [extract] itself loads the flag *)
Definition checkpoint (s : site) : Prop :=
  s = BeforeDecode ∨ s = AfterDecode
  ∨ s = AfterProcessing ∨ s = AfterNormalization.

(** [M] is the largest magnitude among the samples of the channel
    whose magnitude reaches the threshold, and zero when there is none *)
Definition threshold_max (threshold : Qc) (channel : list Qc) (M : Qc)
    : Prop :=
  (∀ s, s ∈ channel → (threshold ≤ fabs s)%Qc → (fabs s ≤ M)%Qc)
  ∧ (M = 0%Qc
     ∨ ∃ s, s ∈ channel ∧ (threshold ≤ fabs s)%Qc ∧ M = fabs s).

(** the first loop of [normalizeWaveform] over a channel *)
Definition channel_max (threshold : Qc) (channelData : list Qc) : Qc :=
  foldl (λ maxAmplitude sample,
           if geb (fabs sample) threshold
           then fmax maxAmplitude (fabs sample) else maxAmplitude)
        0%Qc channelData.

(** an event of the processor that is not a load finding the flag set *)
Definition calm (Q : Qc → Prop) (e : event) : Prop :=
  processor_event Q e ∧ ¬ saw_cancel e.

(** ** Progress sequences *)

(** successive values do not decrease *)
Definition nondecreasing (l : list Qc) : Prop :=
  ∀ i x y, l !! i = Some x → l !! (i + 1) = Some y → (x ≤ y)%Qc.

(** a progress value in the trace lies in [[0, 1]] *)
Definition in_range (e : event) : Prop :=
  match e with EvProgress v => clamped v | _ => True end.

(** the clamping of [updateProgress] *)
Definition clamp (progress : Qc) : Qc :=
  let progress := if ltb progress 0%Qc then 0%Qc else progress in
  if ltb 1%Qc progress then 1%Qc else progress.

(** what the extractor delivers when the processor reports [processed]
    buckets out of [numPixels] *)
Definition mapped (numPixels processed : nat) : Qc :=
  clamp (dec 5 10 + of_nat processed / of_nat numPixels * dec 3 10)%Qc.

(** a sequence that does not decrease and stays below [u] *)
Definition bsorted (u : Qc) (l : list Qc) : Prop :=
  nondecreasing l ∧ Forall (λ x, (x ≤ u)%Qc) l.

(** the band of the processing phase, (0.5, 0.8] *)
Definition processing_band (v : Qc) : Prop :=
  (dec 5 10 < v)%Qc ∧ (v ≤ dec 8 10)%Qc.

(** ** The registry *)

(** the promise of [stop()] did not resolve to false and nothing threw *)
Definition stopped_cleanly (p : player) : Prop :=
  stop p ≠ StopResolved false ∧ ∀ e, stop p ≠ StopThrows e.

Definition stopped_cleanlyb (p : player) : bool :=
  match stop p with
  | StopResolved false | StopThrows _ => false
  | _ => true
  end.

(** the iteration of [stopAllPlayers] on this player leaves
    [allStopped] as it is: [isPlaying()] returns, and [stop()] is not
    called or stops cleanly *)
Definition orderly (p : player) : Prop :=
  match isPlaying p with
  | Playing true => stopped_cleanly p
  | Playing false => True
  | PlayingThrows _ => False
  end.

Definition orderlyb (p : player) : bool :=
  match isPlaying p with
  | Playing true => stopped_cleanlyb p
  | Playing false => true
  | PlayingThrows _ => false
  end.

(** the iteration of [stopAllPlayers] on this player throws an
    exception that is no [std::exception]: from [isPlaying()], or from
    [stop()] on a player that reports playing *)
Definition escapes (p : player) : Prop :=
  isPlaying p = PlayingThrows OtherException
  ∨ (isPlaying p = Playing true ∧ stop p = StopThrows OtherException).

Definition escapesb (p : player) : bool :=
  match isPlaying p, stop p with
  | PlayingThrows OtherException, _ => true
  | Playing true, StopThrows OtherException => true
  | _, _ => false
  end.

(** the keys of the pairs on which [stop()] is called *)
Definition playing_keys (l : list (string * player)) : list string :=
  omap (λ kp, match isPlaying kp.2 with
              | Playing true => Some kp.1
              | _ => None
              end) l.

(** the operations that read or change the player map *)
Definition on_players (op : operation) : bool :=
  match op with
  | CreatePlayer _ | RemovePlayer _ | StopAllPlayers => true
  | _ => false
  end.

(** ** Concrete inputs *)

Global Instance world_eq_dec : EqDecision world.
Proof. solve_decision. Defined.
Global Instance outcome_eq_dec : EqDecision outcome.
Proof. solve_decision. Defined.

(** equalities between closed terms are decided by evaluation *)
Ltac by_evaluation := apply (bool_decide_unpack _); vm_compute; exact I.

Module Scenarios.

Definition w0 : world := World 0%Qc [].

(** one CPU; four CPUs with SSE2 and an interleaving; two CPUs with NEON *)
Definition single : platform := Platform 1 NoSimd [].
Definition quad : platform := Platform 4 HasSSE2 [1; 0; 2; 1; 0; 2; 2].
Definition dual : platform := Platform 2 HasNeon [0; 1; 1; 0].

Definition pcm_mono : list Qc :=
  [dec 1 10; dec (-9) 10; dec 3 10; dec (-2) 10; dec 8 10; dec (-4) 10].

Definition pcm_stereo : list Qc :=
  [dec 2 10; dec (-5) 10; dec 1 10; dec 4 10;
   dec (-7) 10; dec 3 10; 0%Qc; dec (-6) 10].

Definition clear : nat → bool := λ _, false.

(** two mono buckets of twelve samples *)
Definition pcm_long : list Qc :=
  [dec 7 8; dec 1 8; dec (-1) 8; dec 1 8; dec (-3) 8; dec 1 8;
   dec 1 8; dec 1 8; dec 1 4; dec 1 8; dec 1 8; dec (-1) 8;
   dec 1 2; dec 1 8; dec 1 8; dec 1 8; dec 1 8; dec 1 8;
   dec 1 8; dec 1 8; dec 1 8; dec 1 8; dec 1 8; dec (-1) 8].

(** the same floats with a NaN in the place of the fifth *)
Definition pcm_nan : list Ieee.float :=
  <[4 := Ieee.NaN]> (Ieee.Num <$> pcm_long).

(** four stereo frames in each of two buckets *)
Definition pcm_frames : list Qc :=
  [dec 2 10; dec (-5) 10; dec 1 10; dec 4 10;
   dec (-7) 10; dec 3 10; 0%Qc; dec (-6) 10;
   dec 1 10; dec 9 10; dec (-3) 10; dec 2 10;
   dec 8 10; dec (-4) 10; dec 5 10; dec 1 10].

End Scenarios.
Import Scenarios.

Definition idle_player : player := Player (Playing false) StopNull.

(** thirty players, keyed p0 to p29 *)
Definition thirty_keys : list string :=
  ["p0"; "p1"; "p2"; "p3"; "p4"; "p5"; "p6"; "p7"; "p8"; "p9";
   "p10"; "p11"; "p12"; "p13"; "p14"; "p15"; "p16"; "p17"; "p18"; "p19";
   "p20"; "p21"; "p22"; "p23"; "p24"; "p25"; "p26"; "p27"; "p28"; "p29"].

Definition full_registry : factory :=
  Factory (list_to_map ((λ key, (key, idle_player)) <$> thirty_keys)) ∅.

(** three players: one idle, one that stops, one whose stop fails *)
Definition three_players : factory :=
  Factory (list_to_map [("a", idle_player);
                        ("b", Player (Playing true) (StopResolved true));
                        ("c", Player (Playing true) (StopResolved false))]) ∅.

(** one player that reports playing and whose [stop()] throws an
    exception that is no [std::exception] (as [throw 7;] does) *)
Definition throwing_player : player :=
  Player (Playing true) (StopThrows OtherException).

Definition throwing_registry : factory := Factory {[ "a" := throwing_player ]} ∅.

(** thirty players of which the first is that player *)
Definition full_throwing_registry : factory :=
  Factory (<["p0" := throwing_player]> (players_ full_registry)) ∅.

(** two extractors; [cancel()] throws on the first *)
Definition two_extractors : factory :=
  Factory ∅ (list_to_map [("x", Extractor true); ("y", Extractor false)]).

(** * Properties *)

(** ** Order facts on samples *)

Section SampleFacts.

Local Open Scope Qc_scope.

Lemma ltb_lt a b : ltb a b = true ↔ a < b.
Proof.
  unfold ltb. rewrite Qclt_alt. destruct (a ?= b); split; congruence.
Qed.

Lemma ltb_ge a b : ltb a b = false ↔ b ≤ a.
Proof.
  rewrite <-not_true_iff_false, ltb_lt. split.
  - apply Qcnot_lt_le.
  - apply Qcle_not_lt.
Qed.

Lemma geb_ge a b : geb a b = true ↔ b ≤ a.
Proof. unfold geb. rewrite negb_true_iff. apply ltb_ge. Qed.

Lemma fabs_nonneg x : 0 ≤ fabs x.
Proof. apply Qcabs_nonneg. Qed.

Lemma fmax_l a b : a ≤ fmax a b.
Proof.
  unfold fmax. destruct (ltb a b) eqn:E.
  - apply Qclt_le_weak, ltb_lt, E.
  - apply Qcle_refl.
Qed.

Lemma fmax_r a b : b ≤ fmax a b.
Proof.
  unfold fmax. destruct (ltb a b) eqn:E.
  - apply Qcle_refl.
  - apply ltb_ge, E.
Qed.

Lemma fmax_cases a b : fmax a b = a ∨ fmax a b = b.
Proof. unfold fmax. destruct (ltb a b); auto. Qed.

Lemma fmax_lub a b c : a ≤ c → b ≤ c → fmax a b ≤ c.
Proof. intros. destruct (fmax_cases a b) as [-> | ->]; done. Qed.

(** the three lane-wise maxima compute the same number *)
Lemma vmax_fmax a b : vmax a b = fmax a b.
Proof. reflexivity. Qed.

Lemma mm_max_fmax a b : mm_max a b = fmax a b.
Proof.
  unfold mm_max, fmax.
  destruct (ltb b a) eqn:E1, (ltb a b) eqn:E2; try done.
  - apply ltb_lt in E1, E2.
    destruct (Qclt_not_le _ _ E1). by apply Qclt_le_weak.
  - apply ltb_ge in E1, E2. by apply Qcle_antisym.
Qed.

End SampleFacts.

(** ** Loops *)

Section LoopFacts.

Context {A : Type}.
Implicit Types (cond : nat → bool) (body : nat → A → A).

(** the invariant rule *)
Lemma for_loop_inv (P : nat → A → Prop) fuel cond step body i acc :
  P i acc →
  (∀ j b, cond j = true → P j b → P (j + step) (body j b)) →
  P (for_loop fuel cond step body i acc).1
    (for_loop fuel cond step body i acc).2.
Proof.
  intros Hi Hstep. revert i acc Hi.
  induction fuel as [|fuel IH]; intros i acc Hi; simpl; [done|].
  destruct (cond i) eqn:Hc; [|done].
  apply IH. by apply Hstep.
Qed.

(** with enough fuel the loop ends because its condition fails *)
Lemma for_loop_exit (mu : nat → nat) fuel cond step body i acc :
  (∀ j, cond j = true → mu (j + step) < mu j) →
  mu i ≤ fuel →
  cond (for_loop fuel cond step body i acc).1 = false.
Proof.
  intros Hmu. revert i acc.
  induction fuel as [|fuel IH]; intros i acc Hle; simpl.
  - destruct (cond i) eqn:Hc; [|done].
    specialize (Hmu i Hc). lia.
  - destruct (cond i) eqn:Hc; [|done].
    apply IH. specialize (Hmu i Hc). lia.
Qed.

End LoopFacts.

(** ** The absolute maximum of a block *)

Section MaxAbs.

Variable data : fptr.

Lemma attained_fmax n a b :
  (attained data) n a → (attained data) n b → (attained data) n (fmax a b).
Proof. intros. by destruct (fmax_cases a b) as [-> | ->]. Qed.

Lemma attained_data n i : (i < n) → (attained data) n (fabs (data i)).
Proof. right. eauto. Qed.

Lemma bounds_fmax_l lo hi a b : (bounds data) lo hi a → (bounds data) lo hi (fmax a b).
Proof.
  intros H i Hi. eapply Qcle_trans; [by apply H|apply fmax_l].
Qed.

Lemma bounds_fmax_r lo hi a b : (bounds data) lo hi b → (bounds data) lo hi (fmax a b).
Proof.
  intros H i Hi. eapply Qcle_trans; [by apply H|apply fmax_r].
Qed.

(** a bound that is (attained data) is unique *)
Lemma bounds_attained_unique n v v' :
  (bounds data) 0 n v → (attained data) n v → (bounds data) 0 n v' → (attained data) n v' → v = v'.
Proof.
  intros Hb Ha Hb' Ha'.
  assert (0 ≤ v)%Qc as H0.
  { destruct Ha as [-> | (i & ? & ->)]; [apply Qcle_refl|apply fabs_nonneg]. }
  assert (0 ≤ v')%Qc as H0'.
  { destruct Ha' as [-> | (i & ? & ->)]; [apply Qcle_refl|apply fabs_nonneg]. }
  apply Qcle_antisym.
  - destruct Ha as [-> | (i & ? & ->)]; [done|]. apply Hb'. lia.
  - destruct Ha' as [-> | (i & ? & ->)]; [done|]. apply Hb. lia.
Qed.

Lemma tail_loop_spec count i maxVal :
  (i ≤ count) → (bounds data) 0 i maxVal → (attained data) count maxVal →
  (bounds data) 0 count (tail_loop data count i maxVal)
  ∧ (attained data) count (tail_loop data count i maxVal).
Proof.
  intros Hi Hb Ha. unfold tail_loop.
  set (cond := λ i : nat, (i <? count)).
  set (body := λ (i : nat) (maxVal : Qc), fmax maxVal (fabs (data i))).
  pose proof (for_loop_exit (λ j, count - j) count cond 1 body i maxVal)
    as Hexit.
  pose proof (for_loop_inv
    (λ j m, (j ≤ count) ∧ (bounds data) 0 j m ∧ (attained data) count m)
    count cond 1 body i maxVal) as Hinv.
  destruct (for_loop count cond 1 body i maxVal) as [j m]; simpl in *.
  destruct Hinv as (Hj & Hbj & Haj); [done| |].
  { intros j' b Hc (Hj' & Hb' & Ha'). apply Nat.ltb_lt in Hc.
    split; [lia|]. split.
    - intros k Hk. destruct (decide (k = j')) as [-> | Hne].
      + apply fmax_r.
      + eapply Qcle_trans; [apply Hb'; lia|apply fmax_l].
    - apply attained_fmax; [done|by apply attained_data]. }
  assert (cond j = false) as Hc.
  { apply Hexit; [|lia]. intros j' Hc'. apply Nat.ltb_lt in Hc'. lia. }
  apply Nat.ltb_ge in Hc. replace count with j at 1 by lia. done.
Qed.

Lemma findMaxAbsScalar_spec count :
  (bounds data) 0 count (findMaxAbsScalar data count)
  ∧ (attained data) count (findMaxAbsScalar data count).
Proof.
  apply tail_loop_spec; [lia| |by left].
  intros i Hi. lia.
Qed.

Lemma lanes_inv_step count i v :
  (i + 4 ≤ count) → (lanes_inv data) count i v →
  (lanes_inv data) count (i + 4) (map2_4 fmax v (abs4 (load4 data i))).
Proof.
  destruct v as [[[r0 r1] r2] r3]. simpl.
  intros Hi (_ & (j & ->) & Hb & A0 & A1 & A2 & A3).
  split; [done|]. split; [exists (j + 1); lia|]. split.
  - intros k Hk. destruct (decide (k = j)) as [-> | Hne].
    + repeat split; apply fmax_r.
    + destruct (Hb k) as (B0 & B1 & B2 & B3); [lia|].
      repeat split; (eapply Qcle_trans; [|apply fmax_l]); done.
  - repeat split; (apply attained_fmax; [done|apply attained_data; lia]).
Qed.

(** the horizontal reduction of the lanes (bounds data) everything below [i] *)
Lemma lanes_inv_reduce count i r0 r1 r2 r3 m :
  (lanes_inv data) count i (r0, r1, r2, r3) →
  (r0 ≤ m)%Qc → (r1 ≤ m)%Qc → (r2 ≤ m)%Qc → (r3 ≤ m)%Qc → (bounds data) 0 i m.
Proof.
  intros (_ & (j & ->) & Hb & _) H0 H1 H2 H3 k Hk.
  destruct (Hb (k / 4)) as (B0 & B1 & B2 & B3).
  { pose proof (Nat.div_mod_eq k 4). pose proof (Nat.mod_upper_bound k 4). lia. }
  pose proof (Nat.div_mod_eq k 4) as Hdm.
  pose proof (Nat.mod_upper_bound k 4 ltac:(lia)) as Hm.
  destruct (k mod 4) as [|[|[|[|?]]]] eqn:E; [| | |  |lia].
  - replace k with (4 * (k / 4)) at 1 by lia. by eapply Qcle_trans.
  - replace k with (4 * (k / 4) + 1) at 1 by lia. by eapply Qcle_trans.
  - replace k with (4 * (k / 4) + 2) at 1 by lia. by eapply Qcle_trans.
  - replace k with (4 * (k / 4) + 3) at 1 by lia. by eapply Qcle_trans.
Qed.

Lemma simd_loop_inv count (lane_max : Qc → Qc → Qc) :
  (∀ a b, lane_max a b = fmax a b) →
  (lanes_inv data) count
    (for_loop count (λ i, i + 4 <=? count) 4
       (λ i maxVec, map2_4 lane_max maxVec (abs4 (load4 data i)))
       0 lanes_zero).1
    (for_loop count (λ i, i + 4 <=? count) 4
       (λ i maxVec, map2_4 lane_max maxVec (abs4 (load4 data i)))
       0 lanes_zero).2.
Proof.
  intros Hmax. apply for_loop_inv.
  - simpl. split; [lia|]. split; [by exists 0|].
    split; [intros; lia|]. repeat split; by left.
  - intros j [[[r0 r1] r2] r3] Hc Hinv. apply Nat.leb_le in Hc.
    replace (map2_4 lane_max (r0, r1, r2, r3) (abs4 (load4 data j)))
      with (map2_4 fmax (r0, r1, r2, r3) (abs4 (load4 data j))).
    + by apply lanes_inv_step.
    + simpl. by rewrite !Hmax.
Qed.

Lemma findMaxAbsSSE2_spec count :
  (bounds data) 0 count (findMaxAbsSSE2 data count)
  ∧ (attained data) count (findMaxAbsSSE2 data count).
Proof.
  unfold findMaxAbsSSE2. destruct (count =? 0) eqn:E0.
  { apply Nat.eqb_eq in E0. subst. split; [intros i ?; lia|by left]. }
  pose proof (simd_loop_inv count mm_max mm_max_fmax) as Hinv.
  destruct (for_loop _ _ _ _ _ _) as [i [[[r0 r1] r2] r3]].
  pose proof Hinv as (Hi & _ & _ & A0 & A1 & A2 & A3).
  apply tail_loop_spec; [done| |].
  - eapply lanes_inv_reduce; [done|..].
    + eapply Qcle_trans; [apply fmax_l|apply fmax_l].
    + eapply Qcle_trans; [apply fmax_r|apply fmax_l].
    + eapply Qcle_trans; [apply fmax_l|apply fmax_r].
    + eapply Qcle_trans; [apply fmax_r|apply fmax_r].
  - by repeat apply attained_fmax.
Qed.

Lemma findMaxAbsNeon_spec count :
  (bounds data) 0 count (findMaxAbsNeon data count)
  ∧ (attained data) count (findMaxAbsNeon data count).
Proof.
  unfold findMaxAbsNeon. destruct (count =? 0) eqn:E0.
  { apply Nat.eqb_eq in E0. subst. split; [intros i ?; lia|by left]. }
  pose proof (simd_loop_inv count vmax vmax_fmax) as Hinv.
  destruct (for_loop _ _ _ _ _ _) as [i [[[r0 r1] r2] r3]].
  pose proof Hinv as (Hi & _ & _ & A0 & A1 & A2 & A3).
  simpl fst; simpl snd. rewrite !vmax_fmax.
  apply tail_loop_spec; [done| |].
  - eapply lanes_inv_reduce; [done|..].
    + eapply Qcle_trans; [apply fmax_l|apply fmax_l].
    + eapply Qcle_trans; [apply fmax_l|apply fmax_r].
    + eapply Qcle_trans; [apply fmax_r|apply fmax_l].
    + eapply Qcle_trans; [apply fmax_r|apply fmax_r].
  - by repeat apply attained_fmax.
Qed.

(** every variant returns what the scalar loop returns *)
Lemma findMaxAbs_scalar simd count :
  findMaxAbs simd data count = findMaxAbsScalar data count.
Proof.
  destruct (findMaxAbsScalar_spec count) as [Hb Ha].
  destruct simd; simpl; [| |done].
  - destruct (findMaxAbsNeon_spec count).
    by apply (bounds_attained_unique count).
  - destruct (findMaxAbsSSE2_spec count).
    by apply (bounds_attained_unique count).
Qed.

End MaxAbs.

(** ** The peak of a bucket *)

Section PeakFacts.

Variable audioData : list Qc.
Variables S C : nat.
Hypothesis S_pos : 0 < S.
Hypothesis C_pos : 0 < C.

Let N : nat := length audioData.
Let B : nat := N / S / C.

Lemma is_peak_unique pixel channel v v' :
  (is_peak audioData S C) pixel channel v → (is_peak audioData S C) pixel channel v' → v = v'.
Proof.
  intros [Hb (k & Hk & ->)] [Hb' (k' & Hk' & ->)].
  apply Qcle_antisym; auto.
Qed.

Lemma whole_buckets : B * S * C ≤ N.
Proof.
  subst B. rewrite Nat.Div0.div_div.
  pose proof (Nat.Div0.mul_div_le N (S * C)). lia.
Qed.

Lemma bucket_in_range pixel channel k :
  pixel < B → channel < C → k < S → pixel * S * C + k * C + channel < N.
Proof.
  intros Hp Hc Hk. pose proof whole_buckets.
  assert (pixel * S * C + S * C ≤ B * S * C) by nia.
  assert (k * C + channel < S * C) by nia.
  lia.
Qed.

Lemma strided_max_is_peak pixel channel :
  pixel < B → channel < C →
  (is_peak audioData S C) pixel channel (strided_max audioData S C pixel channel).
Proof.
  intros Hp Hc. unfold strided_max.
  set (e := endSample audioData S C pixel channel).
  set (s := startSample S C pixel channel).
  set (cond := λ i : nat, (i <? e)%nat).
  set (body := λ (i : nat) (m : Qc), fmax m (fabs (at_index audioData i))).
  assert (e ≤ s + S * C) as He1 by (subst e s; unfold endSample; lia).
  assert (∀ k, k < S → s + k * C < e) as He2.
  { intros k Hk. subst e s. unfold endSample, startSample.
    pose proof (bucket_in_range pixel channel k Hp Hc Hk).
    fold N. assert (k * C < S * C) by nia. lia. }
  pose proof (for_loop_exit (λ j, e - j) e cond C body s 0%Qc) as Hexit.
  pose proof (for_loop_inv
    (λ j m, ∃ k, j = s + k * C ∧ k ≤ S
       ∧ (∀ k', k' < k → Qcle (fabs (at_index audioData (s + k' * C))) m)
       ∧ ((k = 0 ∧ m = 0%Qc)
          ∨ ∃ k', k' < k ∧ m = fabs (at_index audioData (s + k' * C))))
    e cond C body s 0%Qc) as Hinv.
  destruct (for_loop e cond C body s 0%Qc) as [j m]; simpl in *.
  destruct Hinv as (k & -> & Hk & Hb & Ha).
  { exists 0. split; [lia|]. split; [lia|]. split; [intros; lia|by left]. }
  { intros j' m' Hc' (k & -> & Hk & Hb & Ha). apply Nat.ltb_lt in Hc'.
    assert (k < S) by nia.
    subst body. simpl.
    exists (k + 1). split; [lia|]. split; [lia|]. split.
    - intros k' Hk'. destruct (decide (k' = k)) as [-> | Hne].
      + apply fmax_r.
      + eapply Qcle_trans; [apply Hb; lia|apply fmax_l].
    - right. destruct (fmax_cases m' (fabs (at_index audioData (s + k * C))))
        as [Hm | Hm]; rewrite Hm.
      + destruct Ha as [[-> ->] | (k' & Hk' & ->)].
        * exists 0. split; [lia|].
          apply Qcle_antisym; [apply fabs_nonneg|].
          pose proof (fmax_r 0%Qc (fabs (at_index audioData (s + 0 * C))))
            as Hr.
          by rewrite Hm in Hr.
        * exists k'. split; [lia|done].
      + exists k. split; [lia|done]. }
  assert (cond (s + k * C) = false) as Hcf.
  { apply Hexit; [|lia]. intros j' Hj'. apply Nat.ltb_lt in Hj'. lia. }
  apply Nat.ltb_ge in Hcf.
  assert (k = S) as ->.
  { destruct (decide (k < S)) as [Hlt|]; [|lia].
    specialize (He2 k Hlt). lia. }
  split.
  - intros k Hk'. specialize (Hb k Hk').
    replace (pixel * S * C + k * C + channel) with (s + k * C); [done|].
    subst s. unfold startSample. lia.
  - destruct Ha as [[-> _] | (k' & Hk' & ->)]; [lia|].
    exists k'. split; [done|]. f_equal. f_equal.
    subst s. unfold startSample. lia.
Qed.

(** on mono data the block maximum of a worker is the strided maximum *)
Lemma findMaxAbs_strided simd pixel :
  C = 1 → pixel < B →
  findMaxAbs simd (ptr_at audioData (startSample S C pixel 0))
    (endSample audioData S C pixel 0 - startSample S C pixel 0)
  = strided_max audioData S C pixel 0.
Proof.
  intros HC1 Hp.
  destruct (strided_max_is_peak pixel 0 Hp C_pos) as [Hb (k & Hk & Ha)].
  assert (endSample audioData S C pixel 0 - startSample S C pixel 0 = S)
    as ->.
  { unfold endSample, startSample. fold N.
    pose proof (bucket_in_range pixel 0 (S - 1) Hp C_pos ltac:(lia)).
    subst C. lia. }
  rewrite findMaxAbs_scalar.
  destruct (findMaxAbsScalar_spec
              (ptr_at audioData (startSample S C pixel 0)) S) as [Hb' Ha'].
  eapply bounds_attained_unique; [done|done| |].
  - intros i Hi. unfold ptr_at, startSample.
    replace (pixel * S * C + 0 + i) with (pixel * S * C + i * C + 0)
      by (subst C; lia).
    apply Hb. lia.
  - right. exists k. split; [done|]. rewrite Ha. unfold ptr_at, startSample.
    f_equal. f_equal. subst C. lia.
Qed.

End PeakFacts.

(** ** Envelopes as grids of cells *)

Section Cells.

Implicit Types (r : envelope) (c p q ch : nat).

Lemma cell_set_cell ch p x r c q :
  cell (set_cell ch p x r) c q
  = if bool_decide (c = ch ∧ q = p) then (λ _, x) <$> cell r c q
    else cell r c q.
Proof.
  unfold cell, set_cell. case_bool_decide as Hd.
  - destruct Hd as [-> ->]. rewrite list_lookup_alter_eq.
    destruct (r !! ch) as [row|]; simpl; [|done].
    destruct (row !! p) eqn:E; simpl.
    + apply list_lookup_insert_eq. by eapply lookup_lt_Some.
    + rewrite list_insert_ge; [done|]. by apply lookup_ge_None.
  - destruct (decide (c = ch)) as [-> | Hne].
    + rewrite list_lookup_alter_eq.
      destruct (r !! ch) as [row|]; simpl; [|done].
      apply list_lookup_insert_ne. naive_solver.
    + by rewrite list_lookup_alter_ne.
Qed.

Lemma set_cell_shaped C B ch p x r :
  shaped C B r → shaped C B (set_cell ch p x r).
Proof.
  intros [Hl Hr]. split.
  - unfold set_cell. by rewrite length_alter.
  - unfold set_cell. apply Forall_alter; [done|].
    intros row _ Hrow. by rewrite length_insert.
Qed.

Lemma shaped_cell_is_Some C B r c p :
  shaped C B r → c < C → p < B → is_Some (cell r c p).
Proof.
  intros [Hl Hr] Hc Hp. unfold cell.
  destruct (lookup_lt_is_Some_2 r c) as [row Hrow]; [lia|].
  rewrite Hrow. simpl. apply lookup_lt_is_Some_2.
  rewrite Forall_lookup in Hr. by rewrite (Hr c row Hrow).
Qed.

(** envelopes of one shape with the same cells are equal *)
Lemma shaped_ext C B r r' :
  shaped C B r → shaped C B r' →
  (∀ c p, c < C → p < B → cell r c p = cell r' c p) → r = r'.
Proof.
  intros [Hl Hr] [Hl' Hr'] Hcell.
  apply (list_eq_same_length _ _ C); [done..|].
  intros c row row' Hc Hrow Hrow'.
  rewrite Forall_lookup in Hr, Hr'.
  apply (list_eq_same_length _ _ B);
    [exact (Hr' c row' Hrow')|exact (Hr c row Hrow)|].
  intros p x x' Hp Hx Hx'.
  specialize (Hcell c p Hc Hp). unfold cell in Hcell.
  rewrite Hrow, Hrow' in Hcell. simpl in Hcell. congruence.
Qed.

(** writing one bucket on a list of channels *)
Lemma cell_fill v p chs r c q :
  cell (foldl (λ r ch, set_cell ch p (v ch) r) r chs) c q
  = if bool_decide (c ∈ chs ∧ q = p) then (λ _, v c) <$> cell r c q
    else cell r c q.
Proof.
  revert r. induction chs as [|ch chs IH]; intros r; cbn [foldl].
  - case_bool_decide as Hd; [|done]. destruct Hd as [Hd _].
    by apply elem_of_nil in Hd.
  - rewrite IH, cell_set_cell.
    destruct (decide (q = p)) as [-> | Hq].
    2:{ by rewrite !bool_decide_eq_false_2 by (by intros [_ ?]). }
    destruct (decide (c ∈ chs)) as [Hin | Hin], (decide (c = ch)) as [Hc | Hc].
    + subst c.
      rewrite !bool_decide_eq_true_2; [by destruct (cell r ch p)|..];
        (split; [|done]); (done || by apply elem_of_cons; left).
    + rewrite (bool_decide_eq_false_2 (c = ch ∧ p = p)) by (by intros [? _]).
      rewrite !bool_decide_eq_true_2; [done|..];
        (split; [|done]); (done || by apply elem_of_cons; right).
    + subst c.
      rewrite (bool_decide_eq_false_2 (ch ∈ chs ∧ p = p)) by (by intros [? _]).
      rewrite !bool_decide_eq_true_2; [done|..];
        (split; [|done]); (done || by apply elem_of_cons; left).
    + rewrite !bool_decide_eq_false_2; [done|..].
      * intros [[?|?]%elem_of_cons _]; done.
      * by intros [? _].
      * by intros [? _].
Qed.

Lemma fill_shaped C B v p chs r :
  shaped C B r → shaped C B (foldl (λ r ch, set_cell ch p (v ch) r) r chs).
Proof.
  revert r. induction chs as [|ch chs IH]; intros r Hr; simpl; [done|].
  apply IH. by apply set_cell_shaped.
Qed.

Lemma zeros_shaped C B : shaped C B (replicate C (replicate B 0%Qc)).
Proof.
  split; [apply length_replicate|].
  apply Forall_replicate, length_replicate.
Qed.

End Cells.

(** ** The single-threaded and the multi-threaded path *)

Lemma isCancelled_never cancellationFlag s w :
  never_set cancellationFlag → (isCancelled cancellationFlag s w).1 = false.
Proof.
  intros H. unfold isCancelled. destruct cancellationFlag as [load|]; [|done].
  simpl. by apply H.
Qed.

Lemma foldl_ext_in {A B} (f g : A → B → A) (l : list B) (a : A) :
  (∀ a x, x ∈ l → f a x = g a x) → foldl f a l = foldl g a l.
Proof.
  revert a. induction l as [|x l IH]; intros a H; simpl; [done|].
  rewrite H by set_solver. apply IH. intros. apply H. set_solver.
Qed.

Section ProcessFacts.

Variable audioData : list Qc.
Variables S C : nat.
Variable progressCallback : callback.
Variable cancellationFlag : flag_ptr.
Hypothesis S_pos : 0 < S.
Hypothesis C_pos : 0 < C.

Let N : nat := length audioData.
Let B : nat := N / S / C.

Local Abbreviation peak := (strided_max audioData S C).

Lemma peaks_shaped : shaped C B (peaks audioData S C).
Proof.
  split.
  - unfold peaks. by rewrite length_fmap, length_seq.
  - unfold peaks. apply Forall_fmap, Forall_forall. intros c _. simpl.
    by rewrite length_fmap, length_seq.
Qed.

Lemma cell_peaks c p : c < C → p < B → cell (peaks audioData S C) c p = Some (peak p c).
Proof.
  intros Hc Hp. unfold cell, peaks.
  rewrite list_lookup_fmap, lookup_seq_lt by done. simpl.
  by rewrite list_lookup_fmap, lookup_seq_lt.
Qed.

Lemma mt_channels_st simd pixel r :
  pixel < B → mt_channels audioData S C simd pixel r
              = st_channels audioData S C pixel r.
Proof.
  intros Hp. unfold mt_channels, st_channels.
  apply foldl_ext_in. intros a ch Hch.
  apply elem_of_seq in Hch.
  destruct (C =? 1) eqn:E; [|done].
  apply Nat.eqb_eq in E. assert (ch = 0) as -> by lia.
  by rewrite findMaxAbs_strided.
Qed.

Lemma filled_st_channels D r pixel :
  (filled audioData S C) D r →
  (filled audioData S C) (λ p, D p ∨ p = pixel) (st_channels audioData S C pixel r).
Proof.
  intros [Hs Hd]. split; [by apply fill_shaped|].
  intros c p Hc Hp HD. unfold st_channels. rewrite cell_fill.
  case_bool_decide as Hdec.
  - destruct Hdec as [_ ->].
    by destruct (shaped_cell_is_Some C B r c pixel Hs Hc Hp) as [x ->].
  - destruct HD as [HD | ->]; [by apply Hd|].
    destruct Hdec. split; [|done]. apply elem_of_seq. lia.
Qed.

Lemma filled_weaken (D D' : nat → Prop) r :
  (∀ p, D' p → D p) → (filled audioData S C) D r → (filled audioData S C) D' r.
Proof. intros H [Hs Hd]. split; [done|]. intros. apply Hd; auto. Qed.

Lemma filled_all r : (filled audioData S C) (λ p, p < B) r → r = (peaks audioData S C).
Proof.
  intros [Hs Hd]. apply (shaped_ext C B); [done|apply peaks_shaped|].
  intros c p Hc Hp. rewrite cell_peaks by done. by apply Hd.
Qed.

(** *** The single-threaded loop *)

Lemma st_loop_filled pixels D r w :
  never_set cancellationFlag →
  (filled audioData S C) D r →
  ∃ r' w',
    st_loop audioData S C progressCallback cancellationFlag pixels r w
    = (Some r', w')
    ∧ (filled audioData S C) (λ p, D p ∨ p ∈ pixels) r'.
Proof.
  intros Hnever. revert D r w.
  induction pixels as [|pixel rest IH]; intros D r w Hf.
  - exists r, w. split; [done|].
    eapply filled_weaken; [|done]. intros p [?|Hp]; [done|]. set_solver.
  - cbn [st_loop].
    destruct (pixel mod 100 =? 0).
    + pose proof (isCancelled_never cancellationFlag (InBucket pixel) w Hnever)
        as Hc.
      destruct (isCancelled cancellationFlag (InBucket pixel) w) as [c w1].
      simpl in Hc. subst c.
      edestruct IH as (r' & w' & -> & Hf');
        [by apply (filled_st_channels D r pixel)|].
      exists r', w'. split; [done|].
      eapply filled_weaken; [|done].
      intros p [?|[->|?]%elem_of_cons]; auto.
    + edestruct IH as (r' & w' & -> & Hf');
        [by apply (filled_st_channels D r pixel)|].
      exists r', w'. split; [done|].
      eapply filled_weaken; [|done].
      intros p [?|[->|?]%elem_of_cons]; auto.
Qed.

Lemma filled_zeros : (filled audioData S C) (λ _, False) (replicate C (replicate B 0%Qc)).
Proof. split; [apply zeros_shaped|]. by intros. Qed.

Lemma st_loop_peaks w :
  never_set cancellationFlag →
  ∃ w',
    st_loop audioData S C progressCallback cancellationFlag (seq 0 B)
      (replicate C (replicate B 0%Qc)) w
    = (Some (peaks audioData S C), w').
Proof.
  intros Hnever.
  destruct (st_loop_filled (seq 0 B) (λ _, False) _ w Hnever filled_zeros)
    as (r' & w' & Heq & Hf).
  exists w'. rewrite Heq. do 2 f_equal. apply filled_all.
  eapply filled_weaken; [|done]. intros p Hp. right. apply elem_of_seq. lia.
Qed.

End ProcessFacts.

(** *** The machine of the worker threads *)

Section MachineFacts.

Variable audioData : list Qc.
Variables S C : nat.
Variable progressCallback : callback.
Variable cancellationFlag : flag_ptr.
Variable simd : simd_kind.
Variable numThreads : nat.
Hypothesis S_pos : 0 < S.
Hypothesis C_pos : 0 < C.
Hypothesis never : never_set cancellationFlag.

Let N : nat := length audioData.
Let B : nat := N / S / C.
Let ppt : nat := pixelsPerThread audioData S C numThreads.

Local Abbreviation peak := (strided_max audioData S C).
Local Abbreviation step :=
  (mt_step audioData S C progressCallback cancellationFlag simd).

(** state the hypotheses with the local names of the section *)
Local Ltac refold :=
  repeat match goal with
  | H : context [pixelsPerThread audioData S C numThreads] |- _ =>
      progress (fold N B ppt in H)
  | H : context [length audioData] |- _ => progress (fold N B in H)
  end.

(** what one step of a worker does when no load finds the flag set *)
Lemma mt_step_never t m wk :
  m_workers m !! t = Some wk → w_returned wk = false →
  (∃ processed, w_pending wk = Some processed
     ∧ m_result (step t m) = m_result m
     ∧ m_workers (step t m)
       = <[t := Worker (w_pixel wk) (w_endPixel wk) None false]> (m_workers m))
  ∨ (w_pending wk = None ∧ w_pixel wk < w_endPixel wk
     ∧ m_result (step t m)
       = mt_channels audioData S C simd (w_pixel wk) (m_result m)
     ∧ ∃ pending, m_workers (step t m)
       = <[t := Worker (w_pixel wk + 1) (w_endPixel wk) pending false]>
           (m_workers m))
  ∨ (w_pending wk = None ∧ w_endPixel wk ≤ w_pixel wk ∧ step t m = m).
Proof.
  intros Hwk Hret. unfold mt_step. rewrite Hwk, Hret.
  destruct (w_pending wk) as [processed|].
  { left. exists processed. done. }
  right. destruct (w_pixel wk <? w_endPixel wk) eqn:Hlt.
  - apply Nat.ltb_lt in Hlt. left.
    assert ((if w_pixel wk mod 100 =? 0
             then isCancelled cancellationFlag (InBucket (w_pixel wk))
                    (m_world m)
             else (false, m_world m)).1 = false) as Hc.
    { destruct (w_pixel wk mod 100 =? 0); [|done].
      by apply isCancelled_never. }
    destruct (if w_pixel wk mod 100 =? 0 then _ else _) as [c w1].
    simpl in Hc. subst c. simpl. eauto 10.
  - apply Nat.ltb_ge in Hlt. right. done.
Qed.

Lemma mt_step_idle t m :
  m_workers m !! t = None → step t m = m.
Proof. intros H. unfold mt_step. by rewrite H. Qed.

Lemma cell_st_channels r c p pixel :
  shaped C B r → c < C → pixel < B →
  cell (st_channels audioData S C pixel r) c p
  = if decide (p = pixel) then Some (peak pixel c) else cell r c p.
Proof.
  intros Hs Hc Hp. unfold st_channels. rewrite cell_fill.
  destruct (decide (p = pixel)) as [-> | Hne].
  - rewrite bool_decide_eq_true_2.
    + by destruct (shaped_cell_is_Some C B r c pixel Hs Hc Hp) as [x ->].
    + split; [|done]. apply elem_of_seq. lia.
  - rewrite bool_decide_eq_false_2; [done|]. by intros [_ ?].
Qed.

Lemma minv_step t m : (minv audioData S C numThreads) m → (minv audioData S C numThreads) (step t m).
Proof.
  intros [Hs Hw].
  destruct (m_workers m !! t) as [wk|] eqn:Hwk;
    [|by rewrite mt_step_idle].
  destruct (Hw t wk Hwk) as (Hret & Hend & Hlo & Hhi & Hcells).
    refold.
  assert (t < length (m_workers m)) as Hlen by by eapply lookup_lt_Some.
  destruct (mt_step_never t m wk Hwk Hret)
    as [(processed & _ & Hr & Hws) | [(_ & Hlt & Hr & pending & Hws)
                                     | (_ & _ & ->)]]; [| |done].
  - split; rewrite Hr; [done|]. rewrite Hws. intros t' wk' Hwk'.
    destruct (decide (t' = t)) as [-> | Hne].
    + rewrite list_lookup_insert_eq in Hwk' by done.
      injection Hwk' as <-. done.
    + rewrite list_lookup_insert_ne in Hwk' by done. by apply Hw.
  - assert (w_pixel wk < B) as HpB by lia.
    rewrite mt_channels_st in Hr by done.
    split; rewrite Hr; [by apply fill_shaped|].
    rewrite Hws. intros t' wk' Hwk'.
    assert (∀ c p, c < C → p < B →
              cell (m_result m) c p = Some (peak p c) →
              cell (st_channels audioData S C (w_pixel wk) (m_result m)) c p
              = Some (peak p c)) as Hkeep.
    { intros c p Hc Hp Hold. rewrite cell_st_channels by done.
      by destruct (decide (p = w_pixel wk)) as [-> |]. }
    destruct (decide (t' = t)) as [-> | Hne].
    + rewrite list_lookup_insert_eq in Hwk' by done.
      injection Hwk' as <-. split; [done|]. split; [done|].
      split; [simpl; lia|]. split; [simpl; lia|]. simpl.
      intros c p Hc Hp. rewrite cell_st_channels by done.
      destruct (decide (p = w_pixel wk)) as [-> |]; [done|].
      apply Hcells; [done|lia].
    + rewrite list_lookup_insert_ne in Hwk' by done.
      destruct (Hw t' wk' Hwk') as (Hret' & Hend' & Hlo' & Hhi' & Hcells').
    refold.
      split; [done|]. split; [done|]. split; [done|]. split; [done|].
      intros c p Hc Hp. apply Hkeep; [done| |by apply Hcells'].
      destruct Hhi' as [Hhi' | Hhi']; lia.
Qed.

Lemma advances_refl m : advances m m.
Proof. intros t wk Hwk. exists wk. done. Qed.

Lemma advances_trans m1 m2 m3 :
  advances m1 m2 → advances m2 m3 → advances m1 m3.
Proof.
  intros H12 H23 t wk Hwk.
  destruct (H12 t wk Hwk) as (wk2 & Hwk2 & He2 & Hp2).
  destruct (H23 t wk2 Hwk2) as (wk3 & Hwk3 & He3 & Hp3).
  exists wk3. split; [done|]. split; [congruence|lia].
Qed.

Lemma advances_step t m : (minv audioData S C numThreads) m → advances m (step t m).
Proof.
  intros [Hs Hw] t' wk' Hwk'.
  destruct (m_workers m !! t) as [wk|] eqn:Hwk;
    [|rewrite mt_step_idle by done; eauto].
  destruct (Hw t wk Hwk) as (Hret & _).
    refold.
  assert (t < length (m_workers m)) as Hlen by by eapply lookup_lt_Some.
  destruct (mt_step_never t m wk Hwk Hret)
    as [(processed & _ & _ & Hws) | [(_ & _ & _ & pending & Hws)
                                    | (_ & _ & ->)]]; [| |eauto].
  - rewrite Hws. destruct (decide (t' = t)) as [-> | Hne].
    + rewrite list_lookup_insert_eq by done.
      assert (wk' = wk) as -> by congruence. eauto.
    + rewrite list_lookup_insert_ne by done. eauto.
  - rewrite Hws. destruct (decide (t' = t)) as [-> | Hne].
    + rewrite list_lookup_insert_eq by done.
      assert (wk' = wk) as -> by congruence.
      eexists. split; [done|]. simpl. split; [done|lia].
    + rewrite list_lookup_insert_ne by done. eauto.
Qed.

Lemma mu_step t m wk :
  (minv audioData S C numThreads) m → m_workers m !! t = Some wk →
  ∃ wk', m_workers (step t m) !! t = Some wk'
    ∧ worker_mu wk' ≤ pred (worker_mu wk).
Proof.
  intros [Hs Hw] Hwk.
  destruct (Hw t wk Hwk) as (Hret & _).
    refold.
  assert (t < length (m_workers m)) as Hlen by by eapply lookup_lt_Some.
  destruct (mt_step_never t m wk Hwk Hret)
    as [(processed & Hp & _ & Hws) | [(Hp & Hlt & _ & pending & Hws)
                                    | (Hp & Hge & ->)]].
  - rewrite Hws, list_lookup_insert_eq by done.
    eexists. split; [done|]. unfold worker_mu. rewrite Hp. simpl. lia.
  - rewrite Hws, list_lookup_insert_eq by done.
    eexists. split; [done|]. unfold worker_mu. rewrite Hp. simpl.
    destruct pending; lia.
  - exists wk. split; [done|]. unfold worker_mu. rewrite Hp. lia.
Qed.

Lemma minv_iter n t m : (minv audioData S C numThreads) m → (minv audioData S C numThreads) (Nat.iter n (step t) m).
Proof. intros H. induction n; simpl; [done|]. by apply minv_step. Qed.

Lemma advances_iter n t m : (minv audioData S C numThreads) m → advances m (Nat.iter n (step t) m).
Proof.
  intros H. induction n; simpl; [apply advances_refl|].
  eapply advances_trans; [done|]. apply advances_step. by apply minv_iter.
Qed.

Lemma mu_iter n t m wk :
  (minv audioData S C numThreads) m → m_workers m !! t = Some wk →
  ∃ wk', m_workers (Nat.iter n (step t) m) !! t = Some wk'
    ∧ worker_mu wk' ≤ worker_mu wk - n.
Proof.
  intros Hm Hwk. induction n as [|n (wk1 & Hwk1 & Hmu1)]; simpl.
  - exists wk. split; [done|lia].
  - destruct (mu_step t _ wk1 (minv_iter n t m Hm) Hwk1) as (wk2 & Hwk2 & Hmu2).
    exists wk2. split; [done|lia].
Qed.

Local Abbreviation join_worker :=
  (join audioData S C progressCallback cancellationFlag simd numThreads).

(** after [wait()] the worker has left its loop *)
Lemma join_finished t m wk :
  (minv audioData S C numThreads) m → m_workers m !! t = Some wk →
  ∃ wk', m_workers (join_worker m t) !! t = Some wk'
    ∧ w_endPixel wk' ≤ w_pixel wk'.
Proof.
  intros Hm Hwk. unfold join. fold ppt.
  destruct (mu_iter (2 * ppt + 1) t m wk Hm Hwk) as (wk' & Hwk' & Hmu).
  exists wk'. split; [done|].
  destruct Hm as [_ Hw].
  destruct (Hw t wk Hwk) as (_ & Hend & Hlo & _).
    refold.
  unfold worker_mu in Hmu.
  destruct (w_pending wk), (w_pending wk'); lia.
Qed.

Lemma minv_join t m : (minv audioData S C numThreads) m → (minv audioData S C numThreads) (join_worker m t).
Proof. apply minv_iter. Qed.

Lemma advances_join t m : (minv audioData S C numThreads) m → advances m (join_worker m t).
Proof. apply advances_iter. Qed.

Lemma minv_sched sched m :
  (minv audioData S C numThreads) m → (minv audioData S C numThreads) (foldl (λ m t, step t m) m sched)
           ∧ advances m (foldl (λ m t, step t m) m sched).
Proof.
  revert m. induction sched as [|t sched IH]; intros m Hm; simpl.
  - split; [done|apply advances_refl].
  - destruct (IH (step t m) (minv_step t m Hm)) as [Hm' Ha'].
    split; [done|].
    eapply advances_trans; [by apply advances_step|done].
Qed.

Lemma joins_finished ts m :
  (minv audioData S C numThreads) m →
  (minv audioData S C numThreads) (foldl join_worker m ts)
  ∧ advances m (foldl join_worker m ts)
  ∧ ∀ t wk, t ∈ ts → m_workers m !! t = Some wk →
      ∃ wk', m_workers (foldl join_worker m ts) !! t = Some wk'
        ∧ w_endPixel wk' ≤ w_pixel wk'.
Proof.
  revert m. induction ts as [|t0 ts IH]; intros m Hm; cbn [foldl].
  - split; [done|]. split; [apply advances_refl|]. intros t wk Ht.
    by apply not_elem_of_nil in Ht.
  - pose proof (minv_join t0 m Hm) as Hm1.
    pose proof (advances_join t0 m Hm) as Ha1.
    destruct (IH _ Hm1) as (Hm' & Ha' & Hfin').
    split; [done|]. split; [by eapply advances_trans|].
    intros t wk Ht Hwk.
    destruct (decide (t = t0)) as [-> | Hne].
    + destruct (join_finished t0 m wk Hm Hwk) as (wk1 & Hwk1 & Hfin1).
      destruct (Ha' t0 wk1 Hwk1) as (wk' & Hwk' & He & Hp).
      exists wk'. split; [done|lia].
    + destruct (Ha1 t wk Hwk) as (wk1 & Hwk1 & _).
      apply (Hfin' t wk1); [|done].
      apply elem_of_cons in Ht as [?|?]; done.
Qed.

Lemma minv_spawn w :
  (minv audioData S C numThreads) (Machine (replicate C (replicate B 0%Qc))
          (spawn audioData S C numThreads <$> seq 0 numThreads) 0 w).
Proof.
  split; [apply zeros_shaped|]. simpl. intros t wk Hwk.
  rewrite list_lookup_fmap in Hwk.
  destruct (seq 0 numThreads !! t) as [t'|] eqn:Ht; [|done].
  apply lookup_seq in Ht as [-> Ht]. simpl in Hwk. injection Hwk as <-.
  unfold worker_ok, spawn. fold ppt. fold N. fold B. simpl.
  split; [done|]. split; [done|]. split; [lia|]. split; [by right|].
  intros; lia.
Qed.

(** the workers together fill the whole envelope *)
Lemma mt_run_peaks sched w :
  0 < numThreads → 0 < B →
  m_result (mt_run audioData S C progressCallback cancellationFlag simd
              numThreads sched (replicate C (replicate B 0%Qc)) w)
  = peaks audioData S C.
Proof.
  intros HT HB. unfold mt_run.
  set (m0 := Machine _ _ _ _).
  pose proof (minv_spawn w) as Hm0. fold m0 in Hm0.
  destruct (minv_sched sched m0 Hm0) as [Hm1 Ha1].
  set (m1 := foldl _ m0 sched) in *.
  destruct (joins_finished (seq 0 numThreads) m1 Hm1) as (Hm2 & Ha2 & Hfin).
  set (m2 := foldl _ m1 _) in *.
  apply filled_all; [done..|]. destruct Hm2 as [Hs Hw]. split; [done|].
  intros c p Hc _ Hp. fold N B in Hp.
  assert (0 < ppt) as Hppt.
  { unfold ppt, pixelsPerThread. fold N B.
    apply Nat.div_str_pos. lia. }
  assert (B ≤ numThreads * ppt) as Hcover.
  { unfold ppt, pixelsPerThread. fold N B.
    pose proof (Nat.div_mod_eq (B + numThreads - 1) numThreads).
    pose proof (Nat.mod_upper_bound (B + numThreads - 1) numThreads).
    lia. }
  set (t := p / ppt).
  pose proof (Nat.div_mod_eq p ppt) as Hdm.
  pose proof (Nat.mod_upper_bound p ppt ltac:(lia)) as Hmod.
  assert (t < numThreads) as Ht by (subst t; nia).
  assert (m_workers m0 !! t = Some (spawn audioData S C numThreads t)) as Hw0.
  { subst m0. simpl. rewrite list_lookup_fmap, lookup_seq_lt by done. done. }
  destruct (Ha1 t _ Hw0) as (wk1 & Hwk1 & _).
  destruct (Hfin t wk1) as (wk2 & Hwk2 & Hfin2);
    [apply elem_of_seq; lia|done|].
  destruct (Hw t wk2 Hwk2) as (_ & Hend & _ & _ & Hcells).
    refold.
  apply Hcells; [done|]. subst t. nia.
Qed.

End MachineFacts.

(** ** processWaveform as a whole *)

Lemma buckets_numPixels pcm S C :
  (0 < S)%Z → (0 < C)%Z →
  buckets pcm S C = length pcm / Z.to_nat S / Z.to_nat C.
Proof.
  intros HS HC. unfold buckets.
  rewrite Nat.Div0.div_div.
  rewrite <-(Z2Nat.id S) at 1 by lia. rewrite <-(Z2Nat.id C) at 1 by lia.
  rewrite <-Nat2Z.inj_mul, <-Nat2Z.inj_div. apply Nat2Z.id.
Qed.

Lemma process_body_peaks audioData S C cb flag hw simd sched w :
  never_set flag → 0 < S → 0 < C → 0 < length audioData / S / C →
  (process_body audioData S C cb flag hw simd sched w).1
  = peaks audioData S C.
Proof.
  intros Hnever HS HC HB. unfold process_body.
  destruct (Nat.min hw (length audioData / S / C) <=? 1) eqn:Hth.
  - destruct (st_loop_peaks audioData S C cb flag HS HC w Hnever) as (w' & ->).
    done.
  - apply Nat.leb_gt in Hth.
    rewrite mt_run_peaks by (done || lia).
    pose proof (isCancelled_never flag AfterJoin
      (m_world (mt_run audioData S C cb flag simd
                  (Nat.min hw (length audioData / S / C)) sched
                  (replicate C (replicate (length audioData / S / C) 0%Qc)) w))
      Hnever) as Hc.
    destruct (isCancelled flag AfterJoin _) as [c w']. simpl in Hc. by subst c.
Qed.

Lemma processWaveform_env pf pcm S C cb flag w :
  never_set flag →
  (processWaveform pf pcm S C cb flag w).1
  = if rejected pcm S C then []
    else peaks pcm (Z.to_nat S) (Z.to_nat C).
Proof.
  intros Hnever. unfold processWaveform, rejected.
  destruct (bool_decide (pcm = []) || (S <=? 0)%Z || (C <=? 0)%Z) eqn:Hg;
    [done|].
  apply orb_false_iff in Hg as [Hg HC]. apply orb_false_iff in Hg as [_ HS].
  apply Z.leb_gt in HS, HC. simpl.
  destruct (length pcm / Z.to_nat S / Z.to_nat C =? 0) eqn:HB; [done|].
  apply Nat.eqb_neq in HB.
  apply process_body_peaks; (done || lia).
Qed.

Lemma never_set_null : never_set None.
Proof. intros load H. discriminate. Qed.

(** the samples after the last whole bucket do not enter the peaks *)
Lemma peaks_remainder pcm S C remainder :
  0 < S → 0 < C →
  length remainder < S * C →
  peaks (take (length pcm / S / C * S * C) pcm ++ remainder) S C
  = peaks pcm S C.
Proof.
  intros HS HC Hrem.
  set (B := length pcm / S / C).
  set (pcm' := take (B * S * C) pcm ++ remainder).
  pose proof (whole_buckets pcm S C HS HC) as Hwb. fold B in Hwb.
  assert (length pcm' = B * S * C + length remainder) as Hlen.
  { subst pcm'. rewrite length_app, length_take. lia. }
  assert (length pcm' / S / C = B) as HB'.
  { rewrite Hlen, Nat.Div0.div_div.
    replace (B * S * C) with (B * (S * C)) by lia.
    rewrite Nat.div_add_l by lia. rewrite Nat.div_small by done. lia. }
  assert (∀ i, i < B * S * C → at_index pcm' i = at_index pcm i) as Hat.
  { intros i Hi. unfold at_index. subst pcm'.
    rewrite lookup_app_l by (rewrite length_take; lia).
    by rewrite lookup_take_lt. }
  unfold peaks. rewrite HB'. fold B.
  apply list_fmap_ext. intros c ? Hc.
  apply lookup_seq in Hc as [-> Hc].
  apply list_fmap_ext. intros p ? Hp.
  apply lookup_seq in Hp as [-> Hp]. simpl.
  apply (is_peak_unique pcm S C p c).
  - destruct (strided_max_is_peak pcm' S C HS HC p c) as [Hb (k & Hk & Ha)];
      [by rewrite HB'|done|].
    assert (∀ k, k < S → p * S * C + k * C + c < B * S * C) as Hin.
    { intros k' Hk'.
      pose proof (bucket_in_range (replicate (B * S * C) 0%Qc) S C HS HC p c k')
        as Hr.
      rewrite length_replicate in Hr.
      replace (B * S * C / S / C) with B in Hr; [by apply Hr|].
      rewrite Nat.Div0.div_div.
      replace (B * S * C) with (B * (S * C)) by lia.
      rewrite Nat.div_mul by lia. done. }
    split.
    + intros k' Hk'. rewrite <-Hat by by apply Hin. by apply Hb.
    + exists k. split; [done|]. rewrite Ha. f_equal. apply Hat. by apply Hin.
  - by apply strided_max_is_peak.
Qed.

(** C1. [processWaveform(pcm, S, C)] returns the empty envelope when
    [pcm] is empty, [S <= 0], [C <= 0] or [B = ⌊len(pcm) / (S·C)⌋] is zero.
    Otherwise the envelope has exactly [C] channels of [B] buckets, the
    cell [env[c][b]] is the maximum over [k < S] of
    [|pcm[b·S·C + k·C + c]|], and replacing the samples after the first
    [B·S·C] by any other incomplete bucket leaves the envelope
    unchanged.  This holds on every platform: any number of CPUs, any
    SIMD unit, any interleaving of the workers. *)
Theorem processWaveform_peak_envelope pf (pcm : list Qc) (S C : Z) w :
  let B := buckets pcm S C in
  let env := (processWaveform pf pcm S C None None w).1 in
  (pcm = [] ∨ (S ≤ 0)%Z ∨ (C ≤ 0)%Z ∨ B = 0 → env = [])
  ∧ (pcm ≠ [] → (0 < S)%Z → (0 < C)%Z → B ≠ 0 →
     length env = Z.to_nat C
     ∧ (∀ row, row ∈ env → length row = B)
     ∧ (∀ c b, c < Z.to_nat C → b < B →
          ∃ v, cell env c b = Some v
               ∧ is_peak pcm (Z.to_nat S) (Z.to_nat C) b c v)
     ∧ (∀ remainder,
          length remainder < Z.to_nat S * Z.to_nat C →
          (processWaveform pf
             (take (B * Z.to_nat S * Z.to_nat C) pcm ++ remainder)
             S C None None w).1 = env)).
Proof.
  intros B env. subst env.
  rewrite (processWaveform_env pf pcm S C None None w never_set_null).
  split.
  - intros Hempty. unfold rejected.
    destruct (bool_decide (pcm = [])) eqn:E1; [done|].
    destruct (S <=? 0)%Z eqn:E2; [done|].
    destruct (C <=? 0)%Z eqn:E3; [done|].
    apply bool_decide_eq_false in E1. apply Z.leb_gt in E2, E3.
    destruct Hempty as [?|[?|[?|HB]]]; [done|lia|lia|].
    subst B. rewrite buckets_numPixels in HB by done.
    rewrite HB. done.
  - intros Hne HS HC HB.
    assert (B = length pcm / Z.to_nat S / Z.to_nat C) as HBeq
      by by apply buckets_numPixels.
    assert (rejected pcm S C = false) as ->.
    { unfold rejected. rewrite bool_decide_eq_false_2 by done.
      rewrite (proj2 (Z.leb_gt S 0)), (proj2 (Z.leb_gt C 0)) by done.
      simpl. apply Nat.eqb_neq. lia. }
    assert (0 < Z.to_nat S) as HS' by lia.
    assert (0 < Z.to_nat C) as HC' by lia.
    destruct (peaks_shaped pcm (Z.to_nat S) (Z.to_nat C)) as [Hl Hr].
    rewrite <-HBeq in Hr.
    split; [done|]. split.
    { intros row Hrow. rewrite Forall_forall in Hr. by apply Hr. }
    split.
    { intros c b Hc Hb. eexists. split.
      - apply cell_peaks; [done|lia].
      - apply strided_max_is_peak; (done || lia). }
    intros remainder Hrem.
    rewrite (processWaveform_env pf _ S C None None w never_set_null).
    rewrite HBeq.
    assert (rejected
              (take (length pcm / Z.to_nat S / Z.to_nat C
                     * Z.to_nat S * Z.to_nat C) pcm ++ remainder) S C
            = false) as ->.
    { unfold rejected.
      pose proof (whole_buckets pcm (Z.to_nat S) (Z.to_nat C) HS' HC') as Hwb.
      assert (length (take (length pcm / Z.to_nat S / Z.to_nat C
                            * Z.to_nat S * Z.to_nat C) pcm ++ remainder)
              = length pcm / Z.to_nat S / Z.to_nat C
                * Z.to_nat S * Z.to_nat C + length remainder) as Hlen.
      { rewrite length_app, length_take. lia. }
      rewrite bool_decide_eq_false_2.
      2:{ intros Heq. rewrite Heq in Hlen. simpl in Hlen. nia. }
      rewrite (proj2 (Z.leb_gt S 0)), (proj2 (Z.leb_gt C 0)) by done.
      simpl. apply Nat.eqb_neq. rewrite Hlen, Nat.Div0.div_div.
      replace (length pcm / Z.to_nat S / Z.to_nat C * Z.to_nat S * Z.to_nat C)
        with (length pcm / Z.to_nat S / Z.to_nat C * (Z.to_nat S * Z.to_nat C))
        by lia.
      rewrite Nat.div_add_l by lia. lia. }
    by apply peaks_remainder.
Qed.

(** On ordered floats, without cancellation, the envelope does not
    depend on the platform: the number of CPUs, the interleaving of
    the workers and the SIMD unit behind [findMaxAbs]. *)
Lemma processWaveform_deterministic pf pf' pcm S C cb flag w :
  never_set flag →
  (processWaveform pf pcm S C cb flag w).1
  = (processWaveform pf' pcm S C cb flag w).1.
Proof.
  intros Hnever. by rewrite !processWaveform_env.
Qed.

(** ** normalizeWaveform *)

Section NormalizeFacts.

Local Open Scope Qc_scope.

Variables scale threshold : Qc.

Lemma threshold_max_nonneg channel M : (threshold_max threshold) channel M → 0 ≤ M.
Proof.
  intros [_ [-> | (s & _ & _ & ->)]]; [apply Qcle_refl|apply fabs_nonneg].
Qed.

Lemma threshold_max_unique channel M M' :
  (threshold_max threshold) channel M → (threshold_max threshold) channel M' → M = M'.
Proof.
  intros H H'.
  pose proof (threshold_max_nonneg _ _ H).
  pose proof (threshold_max_nonneg _ _ H').
  destruct H as [Hb Ha], H' as [Hb' Ha'].
  apply Qcle_antisym.
  - destruct Ha as [-> | (s & Hs & Ht & ->)]; [done|]. by apply Hb'.
  - destruct Ha' as [-> | (s & Hs & Ht & ->)]; [done|]. by apply Hb.
Qed.

Lemma channel_max_spec channelData :
  (threshold_max threshold) channelData ((channel_max threshold) channelData).
Proof.
  unfold channel_max.
  induction channelData as [|x l IH] using rev_ind.
  - split; [|by left]. intros s Hs. by apply not_elem_of_nil in Hs.
  - rewrite foldl_app. simpl.
    set (M := foldl _ 0 l) in *. destruct IH as [Hb Ha].
    destruct (geb (fabs x) threshold) eqn:E.
    + apply geb_ge in E. split.
      * intros s Hs Ht. apply elem_of_app in Hs as [Hs | Hs].
        -- eapply Qcle_trans; [by apply Hb|apply fmax_l].
        -- apply list_elem_of_singleton in Hs as ->. apply fmax_r.
      * destruct (fmax_cases M (fabs x)) as [-> | ->].
        -- destruct Ha as [-> | (s & Hs & Ht & ->)]; [by left|].
           right. exists s. split; [|done]. apply elem_of_app. by left.
        -- right. exists x. split; [|done]. apply elem_of_app. right.
           by apply list_elem_of_singleton.
    + assert (¬ threshold ≤ fabs x) as Hlt.
      { intros Hge. apply geb_ge in Hge. congruence. }
      split.
      * intros s Hs Ht. apply elem_of_app in Hs as [Hs | Hs]; [by apply Hb|].
        apply list_elem_of_singleton in Hs as ->. done.
      * destruct Ha as [-> | (s & Hs & Ht & ->)]; [by left|].
        right. exists s. split; [set_solver|done].
Qed.

Lemma normalize_channel_unfold channelData :
  normalize_channel scale threshold channelData
  = if ltb 0 ((channel_max threshold) channelData) then
      (λ sample, if ltb (fabs sample) threshold then 0
                 else (sample / (channel_max threshold) channelData) * scale)
        <$> channelData
    else replicate (length channelData) 0.
Proof.
  destruct channelData as [|x l]; [|done].
  simpl. by destruct (ltb 0 ((channel_max threshold) [])).
Qed.

(** a sample divided by a bound of its magnitude, times the scale *)
Lemma scaled_bound s M :
  0 ≤ scale → 0 < M → fabs s ≤ M →
  - scale ≤ s / M * scale ∧ s / M * scale ≤ scale.
Proof.
  intros Hscale HM Hs.
  apply Qcabs_Qcle_condition.
  rewrite Qcabs_Qcmult, (Qcabs_pos scale) by done.
  rewrite <-(Qcmult_1_l scale) at 2.
  apply Qcmult_le_compat_r; [|done].
  unfold Qcdiv. rewrite Qcabs_Qcmult.
  assert (0 < / M) as HiM by by apply Qcinv_pos.
  rewrite (Qcabs_pos (/ M)) by by apply Qclt_le_weak.
  rewrite <-(Qcmult_inv_r M).
  - apply Qcmult_le_compat_r; [done|by apply Qclt_le_weak].
  - intros ->. by apply Qclt_not_eq in HM.
Qed.

Lemma normalize_channel_spec channelData :
  let M := (channel_max threshold) channelData in
  let out := normalize_channel scale threshold channelData in
  length out = length channelData
  ∧ (∀ i s, channelData !! i = Some s →
       (fabs s < threshold → out !! i = Some 0)
       ∧ (threshold ≤ fabs s → M ≠ 0 → out !! i = Some (s / M * scale))
       ∧ (M = 0 → out !! i = Some 0))
  ∧ (0 ≤ scale → ∀ x, x ∈ out → - scale ≤ x ∧ x ≤ scale).
Proof.
  intros M out. subst out. rewrite normalize_channel_unfold. fold M.
  pose proof (channel_max_spec channelData) as HM. fold M in HM.
  pose proof (threshold_max_nonneg _ _ HM) as HM0.
  destruct HM as [Hb Ha].
  destruct (ltb 0 M) eqn:E.
  - apply ltb_lt in E.
    split; [by rewrite length_fmap|]. split.
    + intros i s Hs. rewrite list_lookup_fmap, Hs. simpl.
      split; [|split].
      * intros Hlt. apply ltb_lt in Hlt. by rewrite Hlt.
      * intros Hge _. apply ltb_ge in Hge. by rewrite Hge.
      * intros HMz. rewrite HMz in E. by apply Qclt_not_eq in E.
    + intros Hscale x Hx. apply list_elem_of_fmap in Hx as (s & -> & Hs).
      destruct (ltb (fabs s) threshold) eqn:Et.
      * split; [|done]. apply Qcopp_le_compat in Hscale. done.
      * apply ltb_ge in Et. apply scaled_bound; [done..|by apply Hb].
  - apply ltb_ge in E. assert (M = 0) as HMz by by apply Qcle_antisym.
    split; [by rewrite length_replicate|]. split.
    + intros i s Hs.
      assert (replicate (length channelData) 0 !! i = Some 0) as Hz.
      { apply lookup_replicate_2. by eapply lookup_lt_Some. }
      split; [done|]. split; [done|done].
    + intros Hscale x Hx. apply elem_of_replicate in Hx as [-> _].
      split; [|done]. apply Qcopp_le_compat in Hscale. done.
Qed.

End NormalizeFacts.

(** C2. [normalizeWaveform(env, scale, t)] returns an envelope of the
    shape of [env], computed channel by channel: with [M] the maximum
    of [|s|] over the samples of the channel with [|s| >= t] (zero when
    there is none), a sample with [|s| < t] becomes [0], any other
    sample becomes [(s / M) * scale], and the whole channel becomes
    zeros when [M = 0]; an empty channel stays empty; and for
    [scale >= 0] every output value lies in [[-scale, scale]]. *)
Theorem normalizeWaveform_spec (env : envelope) (scale t : Qc) :
  let out := normalizeWaveform env scale t in
  length out = length env
  ∧ ∀ c channel, env !! c = Some channel →
      ∃ channel' M,
        out !! c = Some channel'
        ∧ length channel' = length channel
        ∧ (channel = [] → channel' = [])
        ∧ threshold_max t channel M
        ∧ (∀ i s, channel !! i = Some s →
             ((fabs s < t)%Qc → channel' !! i = Some 0%Qc)
             ∧ ((t ≤ fabs s)%Qc → M ≠ 0%Qc →
                channel' !! i = Some (s / M * scale)%Qc)
             ∧ (M = 0%Qc → channel' !! i = Some 0%Qc))
        ∧ ((0 ≤ scale)%Qc →
           ∀ x, x ∈ channel' → (- scale ≤ x)%Qc ∧ (x ≤ scale)%Qc).
Proof.
  intros out.
  assert (out = normalize_channel scale t <$> env) as ->.
  { subst out. by destruct env. }
  split; [by rewrite length_fmap|].
  intros c channel Hc.
  exists (normalize_channel scale t channel), (channel_max t channel).
  destruct (normalize_channel_spec scale t channel) as (Hlen & Hcells & Hbound).
  split; [by rewrite list_lookup_fmap, Hc|].
  split; [done|]. split; [by intros ->|].
  split; [apply channel_max_spec|]. done.
Qed.

(** ** What the processor adds to the trace *)

Lemma extends_refl P w : extends P w w.
Proof. exists []. by rewrite app_nil_r. Qed.

Lemma extends_trans P w1 w2 w3 :
  extends P w1 w2 → extends P w2 w3 → extends P w1 w3.
Proof.
  intros (e1 & H1 & F1) (e2 & H2 & F2). exists (e1 ++ e2).
  split; [by rewrite H2, H1, app_assoc|by apply Forall_app].
Qed.

Lemma extends_log (P : event → Prop) e w : P e → extends P w (log e w).
Proof. intros. exists [e]. split; [done|]. by apply Forall_singleton. Qed.

Lemma extends_weaken (P Q : event → Prop) w w' :
  (∀ e, P e → Q e) → extends P w w' → extends Q w w'.
Proof.
  intros HPQ (evs & H & F). exists evs. split; [done|].
  by eapply Forall_impl.
Qed.

(** what [updateProgress] stores and delivers is in [[0, 1]] *)
Lemma updateProgress_clamped v w :
  ∃ v', updateProgress v w = World v' (trace w ++ [EvProgress v'])
        ∧ clamped v'.
Proof.
  unfold updateProgress. eexists. split; [reflexivity|].
  destruct (ltb v 0%Qc) eqn:E0.
  - replace (ltb 1%Qc 0%Qc) with false by done. by split.
  - apply ltb_ge in E0. destruct (ltb 1%Qc v) eqn:E1.
    + by split.
    + apply ltb_ge in E1. by split.
Qed.

Lemma updateProgress_extends v w :
  extends (progress_event clamped) w (updateProgress v w).
Proof.
  destruct (updateProgress_clamped v w) as (v' & -> & Hv').
  exists [EvProgress v']. split; [done|]. by apply Forall_singleton.
Qed.

Lemma progressMapper_delivers : delivers clamped (Some progressMapper).
Proof. intros f [= <-] v w. apply updateProgress_extends. Qed.

Lemma null_delivers Q : delivers Q None.
Proof. intros f H. discriminate. Qed.

Section TraceFacts.

Variable audioData : list Qc.
Variables S C : nat.
Variable progressCallback : callback.
Variable cancellationFlag : flag_ptr.
Variable Q : Qc → Prop.
Hypothesis quiet : delivers Q progressCallback.

Lemma reportProgress_calm processed w :
  extends (calm Q) w (reportProgress audioData S C progressCallback processed w).
Proof.
  unfold reportProgress. destruct progressCallback as [f|] eqn:E.
  - eapply extends_weaken; [|by apply (quiet f)].
    intros [] He; try done. split; [done|]. by intros H.
  - apply extends_refl.
Qed.

(** a load in the bucket loop: either it finds the flag clear, or it
    is the last event *)
Lemma isCancelled_extends s w :
  processor_event Q (EvPoll s true) →
  let '(c, w') := isCancelled cancellationFlag s w in
  if c then trace w' = trace w ++ [EvPoll s true]
  else extends (calm Q) w w'.
Proof.
  intros Hs. unfold isCancelled. destruct cancellationFlag as [load|].
  - destruct (load (polls w)) eqn:E; [done|].
    apply extends_log. split; [by destruct s|]. by intros H.
  - apply extends_refl.
Qed.

(** the single-threaded loop either completes calmly, or stops at the
    load that found the flag set *)
Lemma st_loop_trace pixels r w :
  match st_loop audioData S C progressCallback cancellationFlag pixels r w
  with
  | (Some _, w') => extends (calm Q) w w'
  | (None, w') =>
      ∃ w1 s, extends (calm Q) w w1 ∧ processor_event Q (EvPoll s true)
              ∧ trace w' = trace w1 ++ [EvPoll s true]
  end.
Proof.
  revert r w. induction pixels as [|pixel rest IH]; intros r w;
    cbn [st_loop]; [apply extends_refl|].
  assert (∃ c w1,
    (if pixel mod 100 =? 0
     then isCancelled cancellationFlag (InBucket pixel) w
     else (false, w)) = (c, w1)
    ∧ if c then trace w1 = trace w ++ [EvPoll (InBucket pixel) true]
      else extends (calm Q) w w1) as (c & w1 & -> & Hc).
  { destruct (pixel mod 100 =? 0).
    - pose proof (isCancelled_extends (InBucket pixel) w I) as H.
      destruct (isCancelled cancellationFlag (InBucket pixel) w) as [c w1].
      by exists c, w1.
    - exists false, w. split; [done|apply extends_refl]. }
  destruct c.
  { exists w, (InBucket pixel). split; [apply extends_refl|done]. }
  set (w2 := log (EvBucket pixel) w1).
  assert (extends (calm Q) w w2) as Hw2.
  { eapply extends_trans; [done|]. apply extends_log.
    split; [done|]. by intros H. }
  match goal with
  | |- context [st_loop _ _ _ _ _ rest _ ?w] => set (w3 := w)
  end.
  assert (extends (calm Q) w w3) as Hw3.
  { subst w3. destruct (_ || _); [|done].
    eapply extends_trans; [done|]. apply reportProgress_calm. }
  specialize (IH (st_channels audioData S C pixel r) w3).
  destruct (st_loop _ _ _ _ _ rest _ w3) as [[r'|] w'].
  - by eapply extends_trans.
  - destruct IH as (w4 & s & H4 & Hs & Ht). exists w4, s.
    split; [by eapply extends_trans|done].
Qed.

(** every step of a worker adds processor events only *)
Lemma mt_step_trace simd t m :
  extends (processor_event Q) (m_world m)
    (m_world (mt_step audioData S C progressCallback cancellationFlag
                simd t m)).
Proof.
  unfold mt_step. destruct (m_workers m !! t) as [wk|]; [|apply extends_refl].
  destruct (w_returned wk); [apply extends_refl|].
  destruct (w_pending wk) as [processed|].
  { simpl. eapply extends_weaken; [|apply reportProgress_calm].
    by intros e [He _]. }
  destruct (w_pixel wk <? w_endPixel wk); [|apply extends_refl].
  assert (∃ c w1,
    (if w_pixel wk mod 100 =? 0
     then isCancelled cancellationFlag (InBucket (w_pixel wk)) (m_world m)
     else (false, m_world m)) = (c, w1)
    ∧ extends (processor_event Q) (m_world m) w1) as (c & w1 & -> & Hc).
  { destruct (w_pixel wk mod 100 =? 0).
    - pose proof (isCancelled_extends (InBucket (w_pixel wk)) (m_world m) I)
        as H.
      destruct (isCancelled cancellationFlag _ (m_world m)) as [c w1].
      exists c, w1. split; [done|]. destruct c.
      + eexists [_]. split; [done|]. by apply Forall_singleton.
      + eapply extends_weaken; [|done]. by intros e [He _].
    - exists false, (m_world m). split; [done|apply extends_refl]. }
  destruct c; simpl; [done|].
  eapply extends_trans; [done|]. by apply extends_log.
Qed.

Lemma mt_run_trace simd numThreads sched r w :
  extends (processor_event Q) w
    (m_world (mt_run audioData S C progressCallback cancellationFlag simd
                numThreads sched r w)).
Proof.
  unfold mt_run.
  set (m0 := Machine r _ 0 w).
  assert (∀ ts m,
    extends (processor_event Q) (m_world m)
      (m_world (foldl (λ m t,
         mt_step audioData S C progressCallback cancellationFlag simd t m)
         m ts))) as Hsched.
  { induction ts as [|t ts IH]; intros m; simpl; [apply extends_refl|].
    eapply extends_trans; [apply mt_step_trace|apply IH]. }
  assert (∀ n t m,
    extends (processor_event Q) (m_world m)
      (m_world (Nat.iter n
         (mt_step audioData S C progressCallback cancellationFlag simd t) m)))
    as Hiter.
  { induction n as [|n IH]; intros t m; simpl; [apply extends_refl|].
    eapply extends_trans; [apply IH|apply mt_step_trace]. }
  assert (∀ ts m,
    extends (processor_event Q) (m_world m)
      (m_world (foldl
         (join audioData S C progressCallback cancellationFlag simd
            numThreads) m ts))) as Hjoin.
  { induction ts as [|t ts IH]; intros m; simpl; [apply extends_refl|].
    eapply extends_trans; [apply Hiter|apply IH]. }
  eapply extends_trans; [apply (Hsched sched m0)|apply Hjoin].
Qed.

Lemma process_body_trace hw simd sched w :
  extends (processor_event Q) w
    (process_body audioData S C progressCallback cancellationFlag
       hw simd sched w).2.
Proof.
  unfold process_body.
  destruct (Nat.min hw (length audioData / S / C) <=? 1).
  - pose proof (st_loop_trace (seq 0 (length audioData / S / C))
      (replicate C (replicate (length audioData / S / C) 0%Qc)) w) as H.
    destruct (st_loop _ _ _ _ _ _ _ w) as [[r'|] w']; simpl.
    + eapply extends_trans.
      * eapply extends_weaken; [|done]. by intros e [He _].
      * eapply extends_weaken; [|apply reportProgress_calm].
        by intros e [He _].
    + destruct H as (w1 & s & (evs & H1 & F1) & Hs & Ht).
      exists (evs ++ [EvPoll s true]). split.
      * by rewrite Ht, H1, app_assoc.
      * apply Forall_app. split.
        -- eapply Forall_impl; [done|]. by intros e [He _].
        -- by apply Forall_singleton.
  - set (m := mt_run _ _ _ _ _ _ _ _ _ _).
    pose proof (mt_run_trace simd
      (Nat.min hw (length audioData / S / C)) sched
      (replicate C (replicate (length audioData / S / C) 0%Qc)) w) as Hm.
    fold m in Hm.
    pose proof (isCancelled_extends AfterJoin (m_world m) I) as Hc.
    destruct (isCancelled cancellationFlag AfterJoin (m_world m)) as [c w'].
    destruct c; simpl.
    + eapply extends_trans; [done|].
      eexists [_]. split; [done|]. by apply Forall_singleton.
    + eapply extends_trans; [done|]. eapply extends_trans.
      * eapply extends_weaken; [|done]. by intros e [He _].
      * eapply extends_weaken; [|apply reportProgress_calm].
        by intros e [He _].
Qed.

(** the single-threaded path: a load that finds the flag set empties
    the result *)
Lemma st_cancelled_empty hw simd sched w env w' :
  Nat.min hw (length audioData / S / C) ≤ 1 →
  process_body audioData S C progressCallback cancellationFlag
    hw simd sched w = (env, w') →
  (∃ evs, trace w' = trace w ++ evs ∧ Exists saw_cancel evs) →
  env = [].
Proof.
  intros Hth. unfold process_body.
  rewrite (proj2 (Nat.leb_le _ _) Hth).
  pose proof (st_loop_trace (seq 0 (length audioData / S / C))
    (replicate C (replicate (length audioData / S / C) 0%Qc)) w) as H.
  destruct (st_loop _ _ _ _ _ _ _ w) as [[r'|] w1]; [|by intros [= <- <-]].
  intros [= <- <-] (evs & Hevs & Hex).
  assert (extends (calm Q) w
            (reportProgress audioData S C progressCallback
               (length audioData / S / C) w1)) as (evs' & Hevs' & Hcalm).
  { eapply extends_trans; [done|apply reportProgress_calm]. }
  rewrite Hevs in Hevs'. apply app_inv_head in Hevs'. subst evs'.
  apply Exists_exists in Hex as (e & He & Hsaw).
  rewrite Forall_forall in Hcalm. by destruct (Hcalm e He) as [_ Hn].
Qed.

End TraceFacts.

Lemma processWaveform_trace Q pf pcm S C cb flag w :
  delivers Q cb →
  extends (processor_event Q) w (processWaveform pf pcm S C cb flag w).2.
Proof.
  intros Hcb. unfold processWaveform.
  destruct (_ || _); [apply extends_refl|]. simpl.
  destruct (_ =? 0); [apply extends_refl|].
  by apply process_body_trace.
Qed.

(** ** extract *)

Lemma checkpoint_not_processor Q s b :
  checkpoint s → ¬ processor_event Q (EvPoll s b).
Proof. intros [-> | [-> | [-> | ->]]] H; exact H. Qed.

Lemma updateProgress_zero w : progress_ (updateProgress 0%Qc w) = 0%Qc.
Proof. reflexivity. Qed.

Lemma trace_updateProgress v w :
  ∃ v', trace (updateProgress v w) = trace w ++ [EvProgress v'].
Proof. eexists. reflexivity. Qed.

(** C5. In every run of [extract], if the flag is found set at one of
    the four checkpoints (before decode, after decode, after processing,
    after normalization), the stored progress ends at [0.0] and the
    future resolves with the empty envelope.  The future is rejected
    only by an exception of the decoder, in a run where no load found
    the flag set. *)
Theorem extract_cancellation pf decodeAudioData cancelled_ config :
  let o := (extract pf decodeAudioData cancelled_ config).1 in
  let w := (extract pf decodeAudioData cancelled_ config).2 in
  (∀ s, checkpoint s → EvPoll s true ∈ trace w →
     o = Resolved [] ∧ progress_ w = 0%Qc)
  ∧ (o = Rejected →
     (∃ e, decodeAudioData config = DecodeThrows e)
     ∧ Forall (λ e, ¬ saw_cancel e) (trace w)).
Proof.
  intros o w. subst o w. unfold extract, isCancelled.
  set (w1 := updateProgress (dec 1 10) (World 0%Qc [])).
  destruct (cancelled_ (polls w1)) eqn:E1; cbn zeta beta iota.
  { split; [done|]. intros H. discriminate. }
  set (w2 := log (EvPoll BeforeDecode false) w1).
  destruct (decodeAudioData config) as [audioData|e] eqn:Hdec;
    cbn zeta beta iota.
  2:{ split.
      - intros s Hs Hin. destruct e; simpl in Hin;
          repeat (apply elem_of_cons in Hin as [[=] | Hin]); by inversion Hin.
      - intros _. split; [by exists e|].
        destruct e; simpl; repeat constructor; by intros H. }
  destruct (cancelled_ (polls w2)) eqn:E2; cbn zeta beta iota.
  { split; [done|]. intros H. discriminate. }
  set (w3 := updateProgress (dec 5 10) (log (EvPoll AfterDecode false) w2)).
  pose proof (processWaveform_trace clamped pf audioData 100 2
                (Some progressMapper) (Some cancelled_) w3
                progressMapper_delivers)
    as (evs & Hevs & Fevs).
  unfold extractor_processWaveform.
  destruct (processWaveform pf audioData 100 2 (Some progressMapper)
              (Some cancelled_) w3) as [waveform w4].
  cbn [snd] in Hevs.
  destruct (cancelled_ (polls w4)) eqn:E3; cbn zeta beta iota.
  { split; [done|]. intros H. discriminate. }
  set (w5 := updateProgress (dec 8 10) (log (EvPoll AfterProcessing false) w4)).
  destruct (cancelled_ (polls w5)) eqn:E4; cbn zeta beta iota.
  { split; [done|]. intros H. discriminate. }
  split; [|intros H; discriminate].
  intros s Hs Hin. exfalso. cbn [snd] in Hin.
  assert (trace (updateProgress 1%Qc (log (EvPoll AfterNormalization false) w5))
          = [EvProgress (dec 1 10); EvPoll BeforeDecode false;
             EvPoll AfterDecode false; EvProgress (dec 5 10)]
            ++ evs
            ++ [EvPoll AfterProcessing false; EvProgress (dec 8 10);
                EvPoll AfterNormalization false; EvProgress 1%Qc]) as Ht.
  { cbn. rewrite Hevs. cbn. rewrite <-!app_assoc. reflexivity. }
  rewrite Ht in Hin.
  apply elem_of_app in Hin as [Hin | Hin].
  { repeat (apply elem_of_cons in Hin as [[=] | Hin]). by inversion Hin. }
  apply elem_of_app in Hin as [Hin | Hin].
  { rewrite Forall_forall in Fevs.
    by apply (checkpoint_not_processor clamped s true Hs), Fevs. }
  repeat (apply elem_of_cons in Hin as [[=] | Hin]). by inversion Hin.
Qed.

(** C9. The configuration string reaches the result of [extract] only
    through the decoder: two configurations that decode to the same PCM
    buffer give the same outcome, the same stored progress and the same
    trace (hence the same sequence of progress values), also across
    decoders.  When no load finds the flag set, a decoded buffer [pcm]
    resolves to [normalizeWaveform(processWaveform(pcm, 100, 2), 1.0, 0.0)]:
    the five parameters are the constants of the code. *)
Theorem extract_config_only_through_decode pf cancelled_
    (decode decode' : string → decode_outcome) (c1 c2 : string) :
  (decode c1 = decode' c2 →
   extract pf decode cancelled_ c1 = extract pf decode' cancelled_ c2)
  ∧ (∀ pcm w, decode c1 = Decoded pcm → (∀ k, cancelled_ k = false) →
     (extract pf decode cancelled_ c1).1
     = Resolved (normalizeWaveform
                   (processWaveform pf pcm 100 2 None None w).1 1%Qc 0%Qc)).
Proof.
  split.
  - intros H. unfold extract. by rewrite H.
  - intros pcm w Hdec Hclear.
    assert (never_set (Some cancelled_)) as Hnever.
    { intros load [= <-] k. apply Hclear. }
    unfold extract, isCancelled. rewrite Hdec, !Hclear. cbn zeta beta iota.
    unfold extractor_processWaveform.
    match goal with
    | |- context [processWaveform pf pcm 100 2 (Some progressMapper)
                    (Some cancelled_) ?w3] =>
        pose proof (processWaveform_env pf pcm 100 2 (Some progressMapper)
                      (Some cancelled_) w3 Hnever) as Henv;
        destruct (processWaveform pf pcm 100 2 (Some progressMapper)
                    (Some cancelled_) w3) as [waveform w4]
    end.
    cbn [fst] in Henv. rewrite !Hclear. cbn [fst].
    rewrite (processWaveform_env pf pcm 100 2 None None w never_set_null).
    by rewrite Henv.
Qed.

(** ** The registry *)

Section FactoryFacts.

Variable createPlatformPlayer : string → option player.
Variable createPlatformExtractor : string → option extractor.

Local Abbreviation run :=
  (run_operations createPlatformPlayer createPlatformExtractor).
Local Abbreviation apply_op :=
  (apply_operation createPlatformPlayer createPlatformExtractor).

Lemma createPlayer_duplicate key f :
  is_Some (players_ f !! key) →
  createPlayer createPlatformPlayer key f = (Throw AlreadyExists, f).
Proof. intros H. unfold createPlayer. by rewrite bool_decide_eq_true_2. Qed.

Lemma createPlayer_full key f :
  players_ f !! key = None → MAX_PLAYERS ≤ size (players_ f) →
  createPlayer createPlatformPlayer key f = (Throw LimitReached, f).
Proof.
  intros Hnone Hfull. unfold createPlayer.
  rewrite bool_decide_eq_false_2 by (rewrite Hnone; by intros [? ?]).
  by rewrite (proj2 (Nat.leb_le _ _) Hfull).
Qed.

Lemma createPlayer_failure_unchanged key f e :
  (createPlayer createPlatformPlayer key f).1 = Throw e →
  (createPlayer createPlatformPlayer key f).2 = f.
Proof.
  unfold createPlayer. case_bool_decide; [done|].
  destruct (MAX_PLAYERS <=? size (players_ f)); [done|].
  by destruct (createPlatformPlayer key).
Qed.

Lemma createPlayer_size key f :
  size (players_ f) ≤ MAX_PLAYERS →
  size (players_ (createPlayer createPlatformPlayer key f).2) ≤ MAX_PLAYERS.
Proof.
  intros Hle. unfold createPlayer. case_bool_decide as Hdup; [done|].
  destruct (MAX_PLAYERS <=? size (players_ f)) eqn:Hfull; [done|].
  apply Nat.leb_gt in Hfull.
  destruct (createPlatformPlayer key); [|done]. simpl.
  rewrite map_size_insert_None; [lia|].
  destruct (players_ f !! key) eqn:E; [|done]. destruct Hdup. by eexists.
Qed.

Lemma apply_operation_size f op :
  size (players_ f) ≤ MAX_PLAYERS →
  size (players_ (apply_op f op)) ≤ MAX_PLAYERS.
Proof.
  intros Hle. destruct op as [key|key|key|key| |]; simpl.
  - by apply createPlayer_size.
  - unfold createExtractor. case_bool_decide; [done|].
    by destruct (createPlatformExtractor key).
  - unfold removePlayer. destruct (players_ f !! key) eqn:E; [|done].
    simpl. rewrite map_size_delete, E. simpl. lia.
  - unfold removeExtractor. by destruct (extractors_ f !! key).
  - unfold stopAllPlayers.
    destruct (foldl stop_one _ _) as [[allStopped|] stopped]; simpl; [|done].
    rewrite map_size_empty. lia.
  - done.
Qed.

Lemma run_operations_size ops : size (players_ (run ops)) ≤ MAX_PLAYERS.
Proof.
  unfold run_operations.
  assert (∀ f, size (players_ f) ≤ MAX_PLAYERS →
               size (players_ (foldl apply_op f ops)) ≤ MAX_PLAYERS) as H.
  { induction ops as [|op ops IH]; intros f Hf; simpl; [done|].
    by apply IH, apply_operation_size. }
  apply H. simpl. rewrite map_size_empty. lia.
Qed.

(** C7, as the code has it.  [createPlayer(key)] fails with the
    duplicate-key error whenever [key] is already registered, also
    when 30 players are registered; it fails with the
    capacity-exceeded error whenever 30 players are registered and
    [key] is not one of them.  Every failure leaves the registry as it
    was, so every registered handle stays registered, and after any
    sequence of registry operations the player map holds at most 30
    entries. *)
Theorem createPlayer_failures key f :
  (is_Some (players_ f !! key) →
   createPlayer createPlatformPlayer key f = (Throw AlreadyExists, f))
  ∧ (players_ f !! key = None → size (players_ f) = MAX_PLAYERS →
     createPlayer createPlatformPlayer key f = (Throw LimitReached, f))
  ∧ (∀ e, (createPlayer createPlatformPlayer key f).1 = Throw e →
          (createPlayer createPlatformPlayer key f).2 = f)
  ∧ (∀ ops, size (players_ (run ops)) ≤ MAX_PLAYERS).
Proof.
  split; [apply createPlayer_duplicate|].
  split; [intros; apply createPlayer_full; [done|lia]|].
  split; [apply createPlayer_failure_unchanged|].
  apply run_operations_size.
Qed.

End FactoryFacts.

Section StopAllFacts.

Lemma stopped_cleanlyb_spec p :
  stopped_cleanlyb p = true ↔ stopped_cleanly p.
Proof.
  unfold stopped_cleanlyb, stopped_cleanly.
  destruct (stop p) as [|[]|e]; split; try done.
  - by intros [? _].
  - intros [_ H]. by destruct (H e).
Qed.

Lemma orderlyb_spec p : orderlyb p = true ↔ orderly p.
Proof.
  unfold orderlyb, orderly. destruct (isPlaying p) as [[]|e]; [|done|done].
  apply stopped_cleanlyb_spec.
Qed.

Lemma escapesb_spec p : escapesb p = true ↔ escapes p.
Proof.
  unfold escapesb, escapes.
  destruct (isPlaying p) as [[]|[]], (stop p) as [|[]|[]]; split;
    try done; try (by intros [?|[? ?]]); try (by left); by right.
Qed.

Lemma escapesb_false p : escapesb p = false ↔ ¬ escapes p.
Proof. by rewrite <-escapesb_spec, not_true_iff_false. Qed.

(** once an exception has left the loop, nothing more happens *)
Lemma foldl_stop_one_escaped l stopped :
  foldl stop_one (None, stopped) l = (None, stopped).
Proof. induction l as [|[key p] l IH]; simpl; [done|apply IH]. Qed.

(** the loop when no exception leaves it *)
Lemma foldl_stop_one l allStopped stopped :
  Forall (λ kp, ¬ escapes kp.2) l →
  foldl stop_one (Some allStopped, stopped) l
  = (Some (allStopped && forallb (λ kp, orderlyb kp.2) l),
     stopped ++ playing_keys l).
Proof.
  revert allStopped stopped.
  induction l as [|[key p] l IH]; intros allStopped stopped Hl; simpl.
  - by rewrite andb_true_r, app_nil_r.
  - apply Forall_cons in Hl as [Hp Hl]. simpl in Hp.
    apply escapesb_false in Hp. unfold escapesb in Hp.
    unfold playing_keys, orderlyb, stopped_cleanlyb. simpl.
    destruct (isPlaying p) as [[]|[]]; try done.
    + destruct (stop p) as [|[]|[]]; try done;
        rewrite (IH _ _ Hl); unfold playing_keys; simpl;
        rewrite <-?app_assoc; f_equal;
        by rewrite ?andb_true_r, ?andb_false_r.
    + by rewrite (IH _ _ Hl).
    + rewrite (IH _ _ Hl). by rewrite andb_false_r.
Qed.

(** the loop when an exception leaves it *)
Lemma foldl_stop_one_escapes l allStopped stopped :
  Exists (λ kp, escapes kp.2) l →
  (foldl stop_one (Some allStopped, stopped) l).1 = None.
Proof.
  revert allStopped stopped.
  induction l as [|[key p] l IH]; intros allStopped stopped Hl; simpl.
  - by apply Exists_nil in Hl.
  - destruct (escapesb p) eqn:E.
    + unfold escapesb in E.
      destruct (isPlaying p) as [[]|[]]; try done;
        [destruct (stop p) as [|[]|[]]; try done|];
        by rewrite foldl_stop_one_escaped.
    + apply Exists_cons in Hl as [Hp | Hl].
      { simpl in Hp. apply escapesb_spec in Hp. congruence. }
      unfold escapesb in E.
      destruct (isPlaying p) as [[]|[]]; try done;
        [destruct (stop p) as [|[]|[]]; try done|..];
        by apply IH.
Qed.

(** when the loop ends, [stop()] has been called on the players that
    report playing *)
Lemma foldl_stop_one_calls l allStopped stopped b :
  (foldl stop_one (Some allStopped, stopped) l).1 = Some b →
  (foldl stop_one (Some allStopped, stopped) l).2
  = stopped ++ playing_keys l.
Proof.
  revert allStopped stopped.
  induction l as [|[key p] l IH]; intros allStopped stopped; simpl.
  - intros _. by rewrite app_nil_r.
  - unfold playing_keys. simpl.
    destruct (isPlaying p) as [[]|[]];
      [destruct (stop p) as [|[]|[]]|..];
      rewrite ?foldl_stop_one_escaped; try done;
      intros H; rewrite (IH _ _ H); by rewrite <-?app_assoc.
Qed.

Lemma playing_keys_spec (m : gmap string player) key :
  key ∈ playing_keys (map_to_list m)
  ↔ ∃ p, m !! key = Some p ∧ isPlaying p = Playing true.
Proof.
  unfold playing_keys. rewrite list_elem_of_omap. split.
  - intros ([k p] & Hin & Hsome). simpl in Hsome.
    destruct (isPlaying p) as [[]|] eqn:E; try done. injection Hsome as ->.
    exists p. split; [|done]. by apply elem_of_map_to_list.
  - intros (p & Hp & Hplay). exists (key, p).
    split; [by apply elem_of_map_to_list|]. simpl. by rewrite Hplay.
Qed.

Lemma playing_keys_NoDup (m : gmap string player) :
  NoDup (playing_keys (map_to_list m)).
Proof.
  pose proof (NoDup_fst_map_to_list m) as Hnd. unfold playing_keys.
  induction (map_to_list m) as [|[k p] l IH]; simpl; [constructor|].
  simpl in Hnd. apply NoDup_cons in Hnd as [Hk Hnd].
  destruct (isPlaying p) as [[]|]; try by apply IH.
  apply NoDup_cons. split; [|by apply IH].
  rewrite list_elem_of_omap. intros ([k' p'] & Hin & Hsome).
  simpl in Hsome. destruct (isPlaying p') as [[]|]; try done.
  injection Hsome as ->. apply Hk.
  apply list_elem_of_fmap. by exists (k, p').
Qed.

(** [stopAllPlayers()] when every exception is a [std::exception]:
    [stop()] is called exactly on the registered players that report
    playing, once each; the future resolves, to true if and only if
    every [isPlaying()] returned and none of the stops resolved to
    false or threw; the player map is empty afterwards. *)
Lemma stopAllPlayers_spec (f : factory) :
  (∀ key p, players_ f !! key = Some p → ¬ escapes p) →
  let stopped := (stopAllPlayers f).1.2 in
  let f' := (stopAllPlayers f).2 in
  (∀ key, key ∈ stopped
          ↔ ∃ p, players_ f !! key = Some p ∧ isPlaying p = Playing true)
  ∧ NoDup stopped
  ∧ (∃ allStopped, (stopAllPlayers f).1.1 = Some allStopped
       ∧ (allStopped = true
          ↔ ∀ key p, players_ f !! key = Some p → orderly p))
  ∧ players_ f' = ∅
  ∧ getPlayerCount f' = 0
  ∧ extractors_ f' = extractors_ f.
Proof.
  intros Hstd. unfold stopAllPlayers. rewrite foldl_stop_one.
  2:{ apply Forall_forall. intros [key p] Hin. simpl.
      apply elem_of_map_to_list in Hin. by eapply Hstd. }
  simpl. split; [apply playing_keys_spec|].
  split; [apply playing_keys_NoDup|]. split.
  - eexists. split; [done|]. rewrite forallb_forall. split.
    + intros Hall key p Hp. apply orderlyb_spec.
      apply (Hall (key, p)), list_elem_of_In. by apply elem_of_map_to_list.
    + intros Hall [key p] Hin. simpl.
      apply list_elem_of_In, elem_of_map_to_list in Hin.
      apply orderlyb_spec. by eapply Hall.
  - split; [done|]. split; [|done].
    unfold getPlayerCount. simpl. apply map_size_empty.
Qed.

(** [stopAllPlayers()] when a call on a registered player throws an
    exception that is no [std::exception]: the future is rejected and
    the factory is left as it was, the player map not cleared. *)
Lemma stopAllPlayers_rejected (f : factory) key p :
  players_ f !! key = Some p → escapes p →
  (stopAllPlayers f).1.1 = None ∧ (stopAllPlayers f).2 = f.
Proof.
  intros Hp Hesc. unfold stopAllPlayers.
  pose proof (foldl_stop_one_escapes (map_to_list (players_ f)) true []) as H.
  destruct (foldl stop_one _ _) as [running stopped]. simpl in H.
  rewrite H; [done|].
  apply Exists_exists. exists (key, p). split; [|done].
  by apply elem_of_map_to_list.
Qed.

(** a registry in which no call throws an exception that is no
    [std::exception], decided by evaluation *)
Lemma no_escape_check (f : factory) :
  forallb (λ kp, negb (escapesb kp.2)) (map_to_list (players_ f)) = true →
  ∀ key p, players_ f !! key = Some p → ¬ escapes p.
Proof.
  rewrite forallb_forall. intros Hall key p Hp.
  apply escapesb_false, negb_true_iff.
  apply (Hall (key, p)), list_elem_of_In. by apply elem_of_map_to_list.
Qed.

(** C8, at the failing input.  One player is registered and reports
    playing, and its [stop()] throws an exception that is no
    [std::exception].  The handler of [stopAllPlayers()] does not catch
    it: [stop()] has been called, the future is rejected instead of
    resolving to false, and the player map is not cleared, so the
    player count is still one. *)
Theorem stopAllPlayers_exception_escapes :
  (stopAllPlayers throwing_registry).1.1 = None
  ∧ (stopAllPlayers throwing_registry).1.2 = ["a"]
  ∧ (stopAllPlayers throwing_registry).2 = throwing_registry
  ∧ getPlayerCount (stopAllPlayers throwing_registry).2 = 1
  ∧ hasPlayer "a" (stopAllPlayers throwing_registry).2 = true.
Proof.
  assert (stopAllPlayers throwing_registry
          = (None, ["a"], throwing_registry)) as ->
    by (vm_compute; reflexivity).
  cbn [fst snd]. repeat split; by vm_compute.
Qed.

Lemma foldl_cancel_one l cancelled :
  foldl cancel_one cancelled l
  = cancelled
    ++ omap (λ ke, if cancel_throws ke.2 then None else Some ke.1) l.
Proof.
  revert cancelled. induction l as [|[key e] l IH]; intros cancelled; simpl.
  - by rewrite app_nil_r.
  - rewrite IH. destruct (cancel_throws e); [done|].
    by rewrite <-app_assoc.
Qed.

(** C10. [stopAllExtractors()] always resolves to true, also when
    [cancel()] throws on some extractor; it cancels every extractor
    whose [cancel()] does not throw; and it leaves the extractor map
    empty, so that the extractor count is zero afterwards. *)
Theorem stopAllExtractors_spec (f : factory) :
  let cancelled := (stopAllExtractors f).1.2 in
  let f' := (stopAllExtractors f).2 in
  (stopAllExtractors f).1.1 = true
  ∧ (∀ key, key ∈ cancelled
            ↔ ∃ e, extractors_ f !! key = Some e ∧ cancel_throws e = false)
  ∧ extractors_ f' = ∅
  ∧ getExtractorCount f' = 0
  ∧ players_ f' = players_ f.
Proof.
  unfold stopAllExtractors. rewrite foldl_cancel_one. simpl.
  split; [done|]. split.
  - intros key. rewrite list_elem_of_omap. split.
    + intros ([k e] & Hin & Hsome). simpl in Hsome.
      destruct (cancel_throws e) eqn:E; [done|]. injection Hsome as ->.
      exists e. split; [|done]. by apply elem_of_map_to_list.
    + intros (e & He & Hok). exists (key, e).
      split; [by apply elem_of_map_to_list|]. simpl. by rewrite Hok.
  - split; [done|]. split; [|done].
    unfold getExtractorCount. simpl. apply map_size_empty.
Qed.

End StopAllFacts.

(** ** Concrete runs *)

(** S1: the mono envelope, on one CPU and on four CPUs with SSE2 *)
Example mono_envelope :
  (processWaveform single pcm_mono 2 1 None None w0).1
  = [[dec 9 10; dec 3 10; dec 8 10]]
  ∧ (processWaveform quad pcm_mono 2 1 None None w0).1
    = [[dec 9 10; dec 3 10; dec 8 10]].
Proof. split; by_evaluation. Qed.

(** S2: the stereo envelope *)
Example stereo_envelope :
  (processWaveform dual pcm_stereo 2 2 None None w0).1
  = [[dec 2 10; dec 7 10]; [dec 5 10; dec 6 10]].
Proof. by_evaluation. Qed.

(** S3 and S4: normalization without and with a threshold *)
Example normalize_plain :
  normalizeWaveform [[dec 2 10; dec 7 10; 0%Qc]] 1%Qc 0%Qc
  = [[dec 2 7; 1%Qc; 0%Qc]].
Proof. by_evaluation. Qed.

Example normalize_threshold :
  normalizeWaveform [[dec 5 100; dec 5 10; dec 9 10]] 1%Qc (dec 1 10)
  = [[0%Qc; dec 5 9; 1%Qc]].
Proof. by_evaluation. Qed.

(** five samples: two whole stereo buckets of one sample and a remainder *)
Example remainder_discarded :
  (processWaveform single [dec 1 2; dec 1 4; dec 1 8; dec 1 16; 1%Qc]
     1 2 None None w0).1
  = [[dec 1 2; dec 1 8]; [dec 1 4; dec 1 16]].
Proof. by_evaluation. Qed.

Lemma processWaveform_peak_envelope_witness :
  length (processWaveform quad pcm_mono 2 1 None None w0).1 = 1
  ∧ (∀ remainder, length remainder < 2 →
       (processWaveform quad (take 6 pcm_mono ++ remainder) 2 1 None None w0).1
       = (processWaveform quad pcm_mono 2 1 None None w0).1).
Proof.
  destruct (processWaveform_peak_envelope quad pcm_mono 2 1 w0) as [_ H].
  destruct H as (Hlen & _ & _ & Hrem).
  - discriminate.
  - lia.
  - lia.
  - vm_compute. discriminate.
  - split; [exact Hlen|]. intros remainder Hr. apply (Hrem remainder).
    simpl. lia.
Defined.

Lemma normalizeWaveform_spec_witness :
  ∃ channel' M,
    normalizeWaveform [[dec 5 100; dec 5 10; dec 9 10]] 1%Qc (dec 1 10) !! 0
    = Some channel'
    ∧ threshold_max (dec 1 10) [dec 5 100; dec 5 10; dec 9 10] M
    ∧ ∀ x, x ∈ channel' → (- (1) ≤ x)%Qc ∧ (x ≤ 1)%Qc.
Proof.
  destruct (normalizeWaveform_spec [[dec 5 100; dec 5 10; dec 9 10]]
              1%Qc (dec 1 10)) as [_ H].
  destruct (H 0 [dec 5 100; dec 5 10; dec 9 10])
    as (channel' & M & Hout & _ & _ & HM & _ & Hbound).
  - reflexivity.
  - exists channel', M. split; [exact Hout|]. split; [exact HM|].
    apply Hbound. vm_compute. discriminate.
Defined.

(** ** Cancellation inside the processor *)

(** the multi-threaded path: a flag found set after the join empties
    the result *)
Lemma mt_cancelled_after_join_empty audioData S C cb flag hw simd sched w :
  1 < Nat.min hw (length audioData / S / C) →
  (isCancelled flag AfterJoin
     (m_world (mt_run audioData S C cb flag simd
                 (Nat.min hw (length audioData / S / C)) sched
                 (replicate C (replicate (length audioData / S / C) 0%Qc))
                 w))).1 = true →
  (process_body audioData S C cb flag hw simd sched w).1 = [].
Proof.
  intros Hth Hc. unfold process_body.
  rewrite (proj2 (Nat.leb_gt _ _) Hth).
  destruct (isCancelled flag AfterJoin _) as [c w']. simpl in Hc. by subst c.
Qed.

(** *** The loads inside the bucket loops *)

Lemma well_polled_refl w : well_polled w w.
Proof.
  exists []. split; [by rewrite app_nil_r|]. intros i p Hi. done.
Qed.

Lemma well_polled_no_bucket w0 w w' :
  well_polled w0 w → extends no_bucket w w' → well_polled w0 w'.
Proof.
  intros (evs & H & Hp) (evs' & H' & F').
  exists (evs ++ evs'). split; [by rewrite H', H, app_assoc|].
  intros i p Hi Hmod.
  destruct (decide (i < length evs)) as [Hlt | Hge].
  - rewrite lookup_app_l in Hi by done.
    destruct (Hp i p Hi Hmod) as (j & -> & Hj).
    exists j. split; [done|]. rewrite lookup_app_l by lia. done.
  - rewrite lookup_app_r in Hi by lia.
    rewrite Forall_lookup in F'. by destruct (F' _ _ Hi).
Qed.

Lemma well_polled_bucket w0 w p :
  well_polled w0 w →
  (p mod 100 = 0 →
   ∃ w1, well_polled w0 w1 ∧ w = log (EvPoll (InBucket p) false) w1) →
  well_polled w0 (log (EvBucket p) w).
Proof.
  intros (evs & H & Hp) Hpoll.
  exists (evs ++ [EvBucket p]).
  split; [unfold log; simpl; by rewrite H, app_assoc|].
  intros i q Hi Hmod.
  destruct (decide (i < length evs)) as [Hlt | Hge].
  - rewrite lookup_app_l in Hi by done.
    destruct (Hp i q Hi Hmod) as (j & -> & Hj).
    exists j. split; [done|]. rewrite lookup_app_l by lia. done.
  - assert (i = length evs) as ->.
    { apply lookup_lt_Some in Hi. rewrite length_app in Hi. simpl in Hi. lia. }
    rewrite lookup_app_r, Nat.sub_diag in Hi by lia.
    injection Hi as <-.
    destruct (Hpoll Hmod) as (w1 & (evs1 & H1 & _) & ->).
    unfold log in H. simpl in H. rewrite H1, <-app_assoc in H.
    apply app_inv_head in H. subst evs.
    exists (length evs1). split.
    + rewrite length_app. simpl. lia.
    + rewrite lookup_app_l by (rewrite length_app; simpl; lia).
      rewrite lookup_app_r, Nat.sub_diag by lia. done.
Qed.

Section PollFacts.

Variable audioData : list Qc.
Variables S C : nat.
Variable progressCallback : callback.
Variable load : nat → bool.
Variable Q : Qc → Prop.
Hypothesis quiet : delivers Q progressCallback.

Lemma reportProgress_no_bucket processed w :
  extends no_bucket w
    (reportProgress audioData S C progressCallback processed w).
Proof.
  unfold reportProgress. destruct progressCallback as [f|] eqn:E.
  - eapply extends_weaken; [|by apply (quiet f)]. by intros [].
  - apply extends_refl.
Qed.

(** the load before a bucket and the bucket itself *)
Lemma poll_then_bucket w0 w pixel :
  well_polled w0 w →
  let cw := if pixel mod 100 =? 0
            then isCancelled (Some load) (InBucket pixel) w
            else (false, w) in
  well_polled w0 cw.2
  ∧ (cw.1 = false → well_polled w0 (log (EvBucket pixel) cw.2)).
Proof.
  intros Hw. destruct (pixel mod 100 =? 0) eqn:E; cbn zeta.
  - apply Nat.eqb_eq in E. unfold isCancelled. cbn [fst snd].
    assert (well_polled w0 (log (EvPoll (InBucket pixel) (load (polls w))) w))
      as Hw1.
    { apply (well_polled_no_bucket w0 w); [done|]. by apply extends_log. }
    split; [done|]. intros Hc. apply well_polled_bucket; [done|].
    intros _. exists w. by rewrite Hc.
  - apply Nat.eqb_neq in E. cbn [fst snd]. split; [done|]. intros _.
    apply well_polled_bucket; [done|]. intros Hmod. by destruct E.
Qed.

Lemma st_loop_well_polled pixels r w0 w :
  well_polled w0 w →
  well_polled w0
    (st_loop audioData S C progressCallback (Some load) pixels r w).2.
Proof.
  revert r w. induction pixels as [|pixel rest IH]; intros r w Hw;
    cbn [st_loop]; [done|].
  destruct (poll_then_bucket w0 w pixel Hw) as [Hw1 Hw2].
  destruct (if pixel mod 100 =? 0 then _ else _) as [c w1].
  cbn [fst snd] in *. destruct c; [done|].
  apply IH. specialize (Hw2 eq_refl).
  destruct (_ || _); [|done].
  eapply well_polled_no_bucket; [done|apply reportProgress_no_bucket].
Qed.

Lemma mt_step_well_polled simd t w0 m :
  well_polled w0 (m_world m) →
  well_polled w0
    (m_world (mt_step audioData S C progressCallback (Some load) simd t m)).
Proof.
  intros Hm. unfold mt_step.
  destruct (m_workers m !! t) as [wk|]; [|done].
  destruct (w_returned wk); [done|].
  destruct (w_pending wk) as [processed|].
  { simpl. eapply well_polled_no_bucket; [done|].
    apply reportProgress_no_bucket. }
  destruct (w_pixel wk <? w_endPixel wk); [|done].
  destruct (poll_then_bucket w0 (m_world m) (w_pixel wk) Hm) as [Hw1 Hw2].
  destruct (if w_pixel wk mod 100 =? 0 then _ else _) as [c w1].
  cbn [fst snd] in *. destruct c; simpl; [done|]. by apply Hw2.
Qed.

Lemma mt_run_well_polled simd numThreads sched r w :
  well_polled w
    (m_world (mt_run audioData S C progressCallback (Some load) simd
                numThreads sched r w)).
Proof.
  unfold mt_run.
  set (m0 := Machine r _ 0 w).
  assert (∀ ts m, well_polled w (m_world m) →
    well_polled w
      (m_world (foldl (λ m t,
         mt_step audioData S C progressCallback (Some load) simd t m)
         m ts))) as Hsched.
  { induction ts as [|t ts IH]; intros m Hm; simpl; [done|].
    by apply IH, mt_step_well_polled. }
  assert (∀ n t m, well_polled w (m_world m) →
    well_polled w
      (m_world (Nat.iter n
         (mt_step audioData S C progressCallback (Some load) simd t) m)))
    as Hiter.
  { induction n as [|n IH]; intros t m Hm; simpl; [done|].
    by apply mt_step_well_polled, IH. }
  assert (∀ ts m, well_polled w (m_world m) →
    well_polled w
      (m_world (foldl
         (join audioData S C progressCallback (Some load) simd numThreads)
         m ts))) as Hjoin.
  { induction ts as [|t ts IH]; intros m Hm; simpl; [done|].
    by apply IH, Hiter. }
  apply Hjoin, Hsched. apply well_polled_refl.
Qed.

Lemma process_body_well_polled hw simd sched w :
  well_polled w
    (process_body audioData S C progressCallback (Some load)
       hw simd sched w).2.
Proof.
  unfold process_body.
  destruct (Nat.min hw (length audioData / S / C) <=? 1).
  - pose proof (st_loop_well_polled (seq 0 (length audioData / S / C))
      (replicate C (replicate (length audioData / S / C) 0%Qc)) w w
      (well_polled_refl w)) as H.
    destruct (st_loop _ _ _ _ _ _ _ w) as [[r'|] w']; cbn [snd] in *; [|done].
    eapply well_polled_no_bucket; [done|apply reportProgress_no_bucket].
  - set (m := mt_run _ _ _ _ _ _ _ _ _ _).
    pose proof (mt_run_well_polled simd
      (Nat.min hw (length audioData / S / C)) sched
      (replicate C (replicate (length audioData / S / C) 0%Qc)) w) as Hm.
    fold m in Hm. unfold isCancelled.
    assert (well_polled w
              (log (EvPoll AfterJoin (load (polls (m_world m)))) (m_world m)))
      as Hw1.
    { eapply well_polled_no_bucket; [done|]. by apply extends_log. }
    destruct (load (polls (m_world m))); cbn [snd]; [done|].
    eapply well_polled_no_bucket; [done|apply reportProgress_no_bucket].
Qed.

End PollFacts.

(** X8. On every platform and for every flag that is passed: among the
    events of a call of [processWaveform], a bucket whose index is a
    multiple of 100 comes right after a load of the flag that found it
    clear, in the single-threaded loop and in every worker. *)
Lemma processWaveform_well_polled Q pf pcm S C cb load w :
  delivers Q cb →
  well_polled w (processWaveform pf pcm S C cb (Some load) w).2.
Proof.
  intros Hcb. unfold processWaveform.
  destruct (_ || _); [apply well_polled_refl|]. cbn zeta.
  destruct (_ =? 0); [apply well_polled_refl|].
  by apply (process_body_well_polled pcm (Z.to_nat S) (Z.to_nat C) cb load Q).
Qed.

(** *** A flag that stays set *)

Lemma polls_extends P w w' : extends P w w' → polls w ≤ polls w'.
Proof.
  intros (evs & H & _). unfold polls. rewrite H, filter_app, length_app. lia.
Qed.

Lemma polls_progress Q w w' :
  extends (progress_event Q) w w' → polls w' = polls w.
Proof.
  intros (evs & H & F). unfold polls. rewrite H, filter_app, length_app.
  assert (filter is_poll evs = []) as ->; [|simpl; lia].
  clear H. induction F as [|e evs He F IH]; [done|].
  by destruct e.
Qed.

Lemma tracked_refl load w : tracked load w w.
Proof.
  exists []. split; [by rewrite app_nil_r|]. intros H. by inversion H.
Qed.

(** events that are not loads finding the flag set keep the tracking *)
Lemma tracked_quiet load w0 w w' :
  tracked load w0 w → extends (λ e, ¬ saw_cancel e) w w' →
  tracked load w0 w'.
Proof.
  intros (evs & H & Hseen) Hext. pose proof Hext as (evs' & H' & F').
  exists (evs ++ evs'). split; [by rewrite H', H, app_assoc|].
  intros [Hex | Hex]%Exists_app.
  - destruct (Hseen Hex) as (k & Hk & Hload). exists k. split; [|done].
    pose proof (polls_extends _ w w' Hext). lia.
  - apply Exists_exists in Hex as (e & He & Hsaw).
    rewrite Forall_forall in F'. by destruct (F' e He).
Qed.

Lemma tracked_calm Q load w0 w w' :
  tracked load w0 w → extends (calm Q) w w' → tracked load w0 w'.
Proof.
  intros Hw Hext. apply (tracked_quiet load w0 w); [done|].
  eapply extends_weaken; [|done]. by intros e [_ He].
Qed.

Lemma isCancelled_tracked load s w0 w :
  tracked load w0 w → tracked load w0 (isCancelled (Some load) s w).2.
Proof.
  intros Hw. unfold isCancelled. cbn [snd].
  destruct (load (polls w)) eqn:E.
  - destruct Hw as (evs & H & _). exists (evs ++ [EvPoll s true]).
    split; [unfold log; simpl; by rewrite H, app_assoc|].
    intros _. exists (polls w). split; [|done].
    unfold polls, log. simpl. rewrite filter_app, length_app. simpl. lia.
  - apply (tracked_quiet load w0 w); [done|].
    apply extends_log. by intros H.
Qed.

Section StickyFacts.

Variable audioData : list Qc.
Variables S C : nat.
Variable progressCallback : callback.
Variable load : nat → bool.
Variable Q : Qc → Prop.
Hypothesis quiet : delivers Q progressCallback.

Lemma mt_step_tracked simd t w0 m :
  tracked load w0 (m_world m) →
  tracked load w0
    (m_world (mt_step audioData S C progressCallback (Some load) simd t m)).
Proof.
  intros Hm. unfold mt_step.
  destruct (m_workers m !! t) as [wk|]; [|done].
  destruct (w_returned wk); [done|].
  destruct (w_pending wk) as [processed|].
  { simpl. eapply tracked_calm; [done|].
    by apply (reportProgress_calm audioData S C progressCallback Q). }
  destruct (w_pixel wk <? w_endPixel wk); [|done].
  assert (∃ c w1,
    (if w_pixel wk mod 100 =? 0
     then isCancelled (Some load) (InBucket (w_pixel wk)) (m_world m)
     else (false, m_world m)) = (c, w1)
    ∧ tracked load w0 w1) as (c & w1 & -> & Hw1).
  { destruct (w_pixel wk mod 100 =? 0).
    - pose proof (isCancelled_tracked load (InBucket (w_pixel wk)) w0
                    (m_world m) Hm) as H.
      destruct (isCancelled (Some load) _ (m_world m)) as [c w1].
      by exists c, w1.
    - by exists false, (m_world m). }
  destruct c; simpl; [done|].
  apply (tracked_quiet load w0 w1); [done|].
  apply extends_log. by intros H.
Qed.

Lemma mt_run_tracked simd numThreads sched r w :
  tracked load w
    (m_world (mt_run audioData S C progressCallback (Some load) simd
                numThreads sched r w)).
Proof.
  unfold mt_run.
  set (m0 := Machine r _ 0 w).
  assert (∀ ts m, tracked load w (m_world m) →
    tracked load w
      (m_world (foldl (λ m t,
         mt_step audioData S C progressCallback (Some load) simd t m)
         m ts))) as Hsched.
  { induction ts as [|t ts IH]; intros m Hm; simpl; [done|].
    by apply IH, mt_step_tracked. }
  assert (∀ n t m, tracked load w (m_world m) →
    tracked load w
      (m_world (Nat.iter n
         (mt_step audioData S C progressCallback (Some load) simd t) m)))
    as Hiter.
  { induction n as [|n IH]; intros t m Hm; simpl; [done|].
    by apply mt_step_tracked, IH. }
  assert (∀ ts m, tracked load w (m_world m) →
    tracked load w
      (m_world (foldl
         (join audioData S C progressCallback (Some load) simd numThreads)
         m ts))) as Hjoin.
  { induction ts as [|t ts IH]; intros m Hm; simpl; [done|].
    by apply IH, Hiter. }
  apply Hjoin, Hsched. apply tracked_refl.
Qed.

(** the multi-threaded path under a flag that stays set: a load that
    finds the flag set empties the result *)
Lemma mt_cancelled_sticky_empty hw simd sched w env w' :
  sticky load →
  1 < Nat.min hw (length audioData / S / C) →
  process_body audioData S C progressCallback (Some load)
    hw simd sched w = (env, w') →
  (∃ evs, trace w' = trace w ++ evs ∧ Exists saw_cancel evs) →
  env = [].
Proof.
  intros Hsticky Hth. unfold process_body.
  rewrite (proj2 (Nat.leb_gt _ _) Hth).
  set (m := mt_run _ _ _ _ _ _ _ _ _ _).
  pose proof (mt_run_tracked simd (Nat.min hw (length audioData / S / C))
                sched (replicate C (replicate (length audioData / S / C) 0%Qc))
                w) as Hm.
  fold m in Hm. unfold isCancelled.
  destruct (load (polls (m_world m))) eqn:E; [by intros [= <- <-]|].
  intros [= <- <-] (evs & Hevs & Hex).
  set (w1 := log (EvPoll AfterJoin false) (m_world m)) in *.
  assert (extends (calm Q) w1
            (reportProgress audioData S C progressCallback
               (length audioData / S / C) w1)) as Hrep
    by by apply reportProgress_calm.
  assert (tracked load w
            (reportProgress audioData S C progressCallback
               (length audioData / S / C) w1)) as (evs' & Hevs' & Hseen).
  { eapply tracked_calm; [|done].
    apply (tracked_quiet load w (m_world m)); [done|].
    apply extends_log. by intros H. }
  rewrite Hevs in Hevs'. apply app_inv_head in Hevs'. subst evs'.
  destruct (Hseen Hex) as (k & Hk & Hload).
  assert (polls (reportProgress audioData S C progressCallback
                   (length audioData / S / C) w1)
          = polls (m_world m) + 1) as Hpolls.
  { unfold reportProgress. destruct progressCallback as [f|] eqn:Ecb.
    - rewrite (polls_progress Q w1) by by apply (quiet f).
      unfold polls, w1, log. simpl. rewrite filter_app, length_app. done.
    - unfold polls, w1, log. simpl. rewrite filter_app, length_app. done. }
  rewrite Hpolls in Hk.
  rewrite (Hsticky k (polls (m_world m))) in E; [done|lia|done].
Qed.

End StickyFacts.

(** X9. Under a flag that stays set once it is set, on every platform
    and for every interleaving of the workers: a call of
    [processWaveform] in which some load finds the flag set returns the
    empty envelope. *)
Lemma processWaveform_cancelled_sticky_empty Q pf pcm S C cb load w env w' :
  delivers Q cb → sticky load →
  processWaveform pf pcm S C cb (Some load) w = (env, w') →
  (∃ evs, trace w' = trace w ++ evs ∧ Exists saw_cancel evs) →
  env = [].
Proof.
  intros Hcb Hsticky. unfold processWaveform.
  destruct (_ || _); [by intros [= <- <-]|]. cbn zeta.
  destruct (_ =? 0); [by intros [= <- <-]|].
  destruct (decide (Nat.min (hardware_concurrency pf)
                      (length pcm / Z.to_nat S / Z.to_nat C) ≤ 1))
    as [Hst | Hmt].
  - by apply (st_cancelled_empty pcm (Z.to_nat S) (Z.to_nat C) cb (Some load) Q).
  - apply (mt_cancelled_sticky_empty pcm (Z.to_nat S) (Z.to_nat C) cb load Q);
      [done|done|lia].
Qed.

(** C4, at the failing input.  Two CPUs, two mono buckets, one worker
    each.  The flag is set when the first worker loads it before bucket
    0 and clear again when it is loaded after the join (a [cancel()]
    followed by a [resetCancellation()]).  The first worker returns at
    once, the second fills bucket 1, and the call returns the envelope
    [[0, 1/4]]: bucket 0 was never computed (its peak is 1/2). *)
Theorem processWaveform_partial_envelope_after_cancel :
  let set_then_clear := Some (λ k, k =? 0) in
  let run :=
    processWaveform (Platform 2 NoSimd []) [dec 1 2; dec 1 4] 1 1
      None set_then_clear w0 in
  EvPoll (InBucket 0) true ∈ trace run.2
  ∧ run.1 = [[0%Qc; dec 1 4]]
  ∧ (processWaveform (Platform 2 NoSimd []) [dec 1 2; dec 1 4] 1 1
       None None w0).1 = [[dec 1 2; dec 1 4]].
Proof.
  intros set_then_clear run. subst set_then_clear run.
  split; [|split]; by_evaluation.
Qed.

(** ** The progress sequence of extract *)

(** C6, at the failing input.  Two CPUs and 400 decoded samples, that
    is two buckets and one worker each, no cancellation and no failure.
    Both workers finish their bucket and take their counter values, 1
    and 2; the second worker reports first.  The callback receives 0.8
    and then 0.65. *)
Theorem extract_progress_reordered :
  let w :=
    (extract (Platform 2 NoSimd [0; 1; 1; 0])
       (λ _, Decoded (replicate 400 (dec 1 2))) clear "").2 in
  delivered w
  = [dec 1 10; dec 5 10; dec 8 10; dec 65 100; dec 8 10; dec 8 10; 1%Qc]
  ∧ ¬ nondecreasing (delivered w).
Proof.
  intros w. subst w.
  assert (delivered
            (extract (Platform 2 NoSimd [0; 1; 1; 0])
               (λ _, Decoded (replicate 400 (dec 1 2))) clear "").2
          = [dec 1 10; dec 5 10; dec 8 10; dec 65 100; dec 8 10; dec 8 10;
             1%Qc]) as Heq by by_evaluation.
  split; [exact Heq|]. rewrite Heq. intros Hmono.
  specialize (Hmono 2 (dec 8 10) (dec 65 100) eq_refl eq_refl).
  vm_compute in Hmono. by apply Hmono.
Qed.

(** *** What holds of the progress sequence on every platform *)

Lemma delivered_log e w :
  (∀ v, e ≠ EvProgress v) → delivered (log e w) = delivered w.
Proof.
  intros He. unfold delivered, log. simpl. rewrite omap_app. simpl.
  destruct e; [by rewrite app_nil_r..|]. by destruct (He v).
Qed.

Lemma delivered_extends Q w w' :
  extends (processor_event Q) w w' →
  ∃ vs, delivered w' = delivered w ++ vs ∧ Forall Q vs.
Proof.
  intros (evs & Hevs & F). unfold delivered. rewrite Hevs, omap_app.
  eexists. split; [done|].
  apply Forall_forall. intros v Hv.
  apply list_elem_of_omap in Hv as (e & He & Hsome).
  rewrite Forall_forall in F. specialize (F e He).
  destruct e; try done. by injection Hsome as <-.
Qed.

Lemma extract_trace_in_range pf decodeAudioData cancelled_ config :
  Forall in_range (trace (extract pf decodeAudioData cancelled_ config).2).
Proof.
  unfold extract, isCancelled.
  set (w1 := updateProgress (dec 1 10) (World 0%Qc [])).
  assert (clamped 0%Qc) as H0 by done.
  assert (clamped 1%Qc) as H1 by done.
  assert (clamped (dec 1 10)) as H01 by done.
  assert (clamped (dec 5 10)) as H5 by done.
  assert (clamped (dec 8 10)) as H8 by done.
  destruct (cancelled_ (polls w1)) eqn:E1; cbn zeta beta iota.
  { by repeat constructor. }
  destruct (decodeAudioData config) as [audioData|[]]; cbn zeta beta iota.
  2,3: by repeat constructor.
  set (w2 := log (EvPoll BeforeDecode false) w1).
  destruct (cancelled_ (polls w2)) eqn:E2; cbn zeta beta iota.
  { by repeat constructor. }
  set (w3 := updateProgress (dec 5 10) (log (EvPoll AfterDecode false) w2)).
  pose proof (processWaveform_trace clamped pf audioData 100 2
                (Some progressMapper) (Some cancelled_) w3
                progressMapper_delivers)
    as (evs & Hevs & Fevs).
  unfold extractor_processWaveform.
  destruct (processWaveform pf audioData 100 2 (Some progressMapper)
              (Some cancelled_) w3) as [waveform w4].
  cbn [snd] in Hevs.
  assert (Forall in_range (trace w4)) as F4.
  { rewrite Hevs. apply Forall_app. split; [by repeat constructor|].
    eapply Forall_impl; [exact Fevs|]. by intros [[] b|p|v] He. }
  destruct (cancelled_ (polls w4)) eqn:E3; cbn zeta beta iota.
  { cbn. rewrite <-?app_assoc. apply Forall_app. split; [done|].
    by repeat constructor. }
  set (w5 := updateProgress (dec 8 10) (log (EvPoll AfterProcessing false) w4)).
  destruct (cancelled_ (polls w5)) eqn:E4; cbn zeta beta iota.
  { cbn. rewrite <-?app_assoc. apply Forall_app. split; [done|].
    by repeat constructor. }
  cbn. rewrite <-?app_assoc. apply Forall_app. split; [done|].
  by repeat constructor.
Qed.

(** X12. In every run of [extract], cancelled or not, on every platform:
    every value handed to the progress callback lies in [[0, 1]]. *)
Lemma extract_progress_in_range pf decodeAudioData cancelled_ config :
  Forall clamped
    (delivered (extract pf decodeAudioData cancelled_ config).2).
Proof.
  pose proof (extract_trace_in_range pf decodeAudioData cancelled_ config)
    as F.
  apply Forall_forall. intros v Hv. unfold delivered in Hv.
  apply list_elem_of_omap in Hv as (e & He & Hsome).
  destruct e as [| |v']; try done. injection Hsome as ->.
  rewrite Forall_forall in F. by apply (F _ He).
Qed.

(** an uncancelled run whose decoder succeeds ends with the value 1.0 *)
Lemma extract_progress_final pf decodeAudioData cancelled_ config pcm :
  (∀ k, cancelled_ k = false) → decodeAudioData config = Decoded pcm →
  last (delivered (extract pf decodeAudioData cancelled_ config).2) = Some 1%Qc
  ∧ progress_ (extract pf decodeAudioData cancelled_ config).2 = 1%Qc.
Proof.
  intros Hclear Hdec. unfold extract, isCancelled.
  rewrite Hdec, !Hclear. cbn zeta beta iota.
  unfold extractor_processWaveform.
  destruct (processWaveform _ _ _ _ _ _ _) as [waveform w4].
  rewrite !Hclear. cbn [snd]. split; [|done].
  unfold delivered. cbn [trace updateProgress]. rewrite omap_app. cbn.
  apply last_snoc.
Qed.

(** *** The progress sequence of the single-threaded path *)

Lemma updateProgress_clamp v w :
  updateProgress v w = World (clamp v) (trace w ++ [EvProgress (clamp v)]).
Proof. reflexivity. Qed.

Lemma delivered_updateProgress v w :
  delivered (updateProgress v w) = delivered w ++ [clamp v].
Proof.
  rewrite updateProgress_clamp. unfold delivered. simpl.
  by rewrite omap_app.
Qed.

Lemma clamp_mono v v' : (v ≤ v')%Qc → (clamp v ≤ clamp v')%Qc.
Proof.
  intros Hle. unfold clamp.
  assert (0 ≤ 1)%Qc as H01 by done.
  assert (ltb 1%Qc 0%Qc = false) as E10 by done.
  destruct (ltb v 0%Qc) eqn:E0, (ltb v' 0%Qc) eqn:E0'.
  - apply Qcle_refl.
  - apply ltb_ge in E0'. rewrite E10.
    destruct (ltb 1%Qc v'); done.
  - apply ltb_ge in E0. apply ltb_lt in E0'.
    destruct (Qclt_not_le _ _ E0'). by eapply Qcle_trans.
  - destruct (ltb 1%Qc v) eqn:E1, (ltb 1%Qc v') eqn:E1'.
    + apply Qcle_refl.
    + apply ltb_lt in E1. apply ltb_ge in E1'.
      destruct (Qclt_not_le _ _ E1). by eapply Qcle_trans.
    + by apply ltb_ge in E1.
    + done.
Qed.

Lemma of_nat_nonneg n : (0 ≤ of_nat n)%Qc.
Proof.
  unfold of_nat. rewrite <-Z2Qc_inj_0, <-Z2Qc_inj_le. lia.
Qed.

Lemma Qcinv_nonneg x : (0 ≤ x)%Qc → (0 ≤ / x)%Qc.
Proof.
  intros Hx. destruct (decide (x = 0%Qc)) as [-> | Hne]; [done|].
  apply Qclt_le_weak, Qcinv_pos.
  destruct (Qclt_le_dec 0%Qc x) as [?|Hle]; [done|].
  destruct Hne. by apply Qcle_antisym.
Qed.

Lemma mapped_mono B j j' : j ≤ j' → (mapped B j ≤ mapped B j')%Qc.
Proof.
  intros Hle. unfold mapped. apply clamp_mono.
  apply Qcplus_le_compat; [done|].
  apply Qcmult_le_compat_r; [|done].
  unfold Qcdiv. apply Qcmult_le_compat_r.
  - unfold of_nat. rewrite <-Z2Qc_inj_le. lia.
  - apply Qcinv_nonneg, of_nat_nonneg.
Qed.

Lemma mapped_0 B : mapped B 0 = dec 5 10.
Proof.
  unfold mapped, of_nat. change (Z.of_nat 0) with 0%Z. rewrite Z2Qc_inj_0.
  unfold Qcdiv. rewrite !Qcmult_0_l, Qcplus_0_r. by_evaluation.
Qed.

Lemma mapped_full B : 0 < B → mapped B B = dec 8 10.
Proof.
  intros HB. unfold mapped, Qcdiv. rewrite Qcmult_inv_r.
  - by_evaluation.
  - unfold of_nat. rewrite <-Z2Qc_inj_0. intros H%Z2Qc_inj. lia.
Qed.

Lemma bsorted_weaken u u' l : (u ≤ u')%Qc → bsorted u l → bsorted u' l.
Proof.
  intros Hle [Hs Hb]. split; [done|].
  eapply Forall_impl; [done|]. intros x Hx. simpl in Hx.
  exact (Qcle_trans _ _ _ Hx Hle).
Qed.

Lemma bsorted_snoc u v l : bsorted u l → (u ≤ v)%Qc → bsorted v (l ++ [v]).
Proof.
  intros [Hs Hb] Hle. split.
  - intros i x y Hx Hy.
    destruct (decide (i + 1 < length l)) as [Hlt | Hge].
    + rewrite lookup_app_l in Hx by lia. rewrite lookup_app_l in Hy by lia.
      by eapply Hs.
    + assert (i < length l) as Hi.
      { apply lookup_lt_Some in Hy. rewrite length_app in Hy. simpl in Hy.
        lia. }
      rewrite lookup_app_l in Hx by done.
      rewrite lookup_app_r in Hy by lia.
      replace (i + 1 - length l) with 0 in Hy by lia. injection Hy as <-.
      rewrite Forall_lookup in Hb.
      exact (Qcle_trans _ _ _ (Hb i x Hx) Hle).
  - apply Forall_app. split.
    + eapply Forall_impl; [done|]. intros x Hx. simpl in Hx.
      exact (Qcle_trans _ _ _ Hx Hle).
    + apply Forall_singleton. apply Qcle_refl.
Qed.

Section ProgressFacts.

Variable audioData : list Qc.
Variables S C : nat.
Variable cancellationFlag : flag_ptr.

Let B : nat := length audioData / S / C.

Lemma delivered_isCancelled s w :
  delivered (isCancelled cancellationFlag s w).2 = delivered w.
Proof.
  unfold isCancelled. destruct cancellationFlag; [|done].
  simpl. by apply delivered_log.
Qed.

Lemma delivered_reportProgress processed w :
  delivered (reportProgress audioData S C (Some progressMapper) processed w)
  = delivered w ++ [mapped B processed].
Proof.
  unfold reportProgress, progressMapper. by rewrite delivered_updateProgress.
Qed.

(** in the single-threaded loop the reported values grow with the
    pixel index *)
Lemma st_loop_sorted n k r w :
  bsorted (mapped B k) (delivered w) →
  bsorted (mapped B (k + n))
    (delivered
       (st_loop audioData S C (Some progressMapper) cancellationFlag
          (seq k n) r w).2).
Proof.
  revert k r w. induction n as [|n IH]; intros k r w Hw; cbn [seq st_loop].
  { by rewrite Nat.add_0_r. }
  assert (∃ c w1,
    (if k mod 100 =? 0
     then isCancelled cancellationFlag (InBucket k) w
     else (false, w)) = (c, w1)
    ∧ delivered w1 = delivered w) as (c & w1 & -> & Hw1).
  { destruct (k mod 100 =? 0).
    - pose proof (delivered_isCancelled (InBucket k) w) as H.
      destruct (isCancelled cancellationFlag (InBucket k) w) as [c w1].
      by exists c, w1.
    - by exists false, w. }
  destruct c; cbn beta iota zeta.
  { cbn [snd]. rewrite Hw1. eapply bsorted_weaken; [|done].
    apply mapped_mono. lia. }
  replace (k + Datatypes.S n) with (Datatypes.S k + n) by lia.
  apply IH.
  destruct (_ || _).
  - rewrite delivered_reportProgress, delivered_log, Hw1 by done.
    replace (Datatypes.S k) with (k + 1) by lia.
    eapply bsorted_snoc; [done|]. apply mapped_mono. lia.
  - rewrite delivered_log, Hw1 by done.
    eapply bsorted_weaken; [|done]. apply mapped_mono. lia.
Qed.

Lemma st_process_body_sorted hw simd sched w :
  Nat.min hw B ≤ 1 → 0 < B →
  bsorted (dec 5 10) (delivered w) →
  bsorted (dec 8 10)
    (delivered
       (process_body audioData S C (Some progressMapper) cancellationFlag
          hw simd sched w).2).
Proof.
  intros Hth HB Hw. unfold process_body. fold B.
  rewrite (proj2 (Nat.leb_le _ _) Hth).
  pose proof (st_loop_sorted B 0 (replicate C (replicate B 0%Qc)) w) as Hloop.
  rewrite mapped_0, mapped_full in Hloop by done. specialize (Hloop Hw).
  destruct (st_loop _ _ _ _ _ _ _ w) as [[r'|] w']; cbn [snd] in *; [|done].
  rewrite delivered_reportProgress. fold B. rewrite mapped_full by done.
  by eapply bsorted_snoc.
Qed.

End ProgressFacts.

Lemma st_processWaveform_sorted pf pcm S C flag w :
  hardware_concurrency pf ≤ 1 →
  bsorted (dec 5 10) (delivered w) →
  bsorted (dec 8 10)
    (delivered (processWaveform pf pcm S C (Some progressMapper) flag w).2).
Proof.
  intros Hhw Hw. unfold processWaveform.
  assert (bsorted (dec 8 10) (delivered w)) as Hw8.
  { eapply bsorted_weaken; [|done]. done. }
  destruct (_ || _); [done|]. simpl.
  destruct (_ =? 0) eqn:HB; [done|]. apply Nat.eqb_neq in HB.
  apply st_process_body_sorted; [lia|lia|done].
Qed.

(** X13. On a host that reports at most one CPU (the single-threaded
    path of [processWaveform]), an uncancelled run of [extract] whose
    decoder succeeds delivers a sequence of progress values that never
    decreases. *)
Lemma extract_progress_sorted_single_threaded pf decodeAudioData cancelled_
    config pcm :
  hardware_concurrency pf ≤ 1 →
  (∀ k, cancelled_ k = false) → decodeAudioData config = Decoded pcm →
  nondecreasing (delivered (extract pf decodeAudioData cancelled_ config).2).
Proof.
  intros Hhw Hclear Hdec. unfold extract, isCancelled.
  rewrite Hdec, !Hclear. cbn zeta beta iota.
  unfold extractor_processWaveform.
  set (w3 := updateProgress (dec 5 10) _).
  assert (bsorted (dec 5 10) (delivered w3)) as Hw3.
  { replace (delivered w3) with (([] ++ [dec 1 10]) ++ [dec 5 10])
      by by_evaluation.
    apply (bsorted_snoc (dec 1 10)); [|done].
    apply (bsorted_snoc 0%Qc); [|done].
    split; [|constructor]. intros i x y Hx. done. }
  pose proof (st_processWaveform_sorted pf pcm 100 2 (Some cancelled_) w3
                Hhw Hw3) as Hw4.
  destruct (processWaveform pf pcm 100 2 (Some progressMapper)
              (Some cancelled_) w3) as [waveform w4].
  rewrite !Hclear. cbn [snd] in *.
  rewrite !delivered_updateProgress, !delivered_log by done.
  rewrite delivered_updateProgress, delivered_log by done.
  apply (bsorted_snoc (dec 8 10) 1%Qc); [|done].
  by apply (bsorted_snoc (dec 8 10) (dec 8 10)).
Qed.

(** the same input on one CPU: the values arrive in order *)
Example extract_progress_single_threaded :
  delivered
    (extract single (λ _, Decoded (replicate 400 (dec 1 2))) clear "").2
  = [dec 1 10; dec 5 10; dec 65 100; dec 8 10; dec 8 10; dec 8 10; 1%Qc].
Proof. by_evaluation. Qed.

Lemma extract_cancellation_witness :
  let set_after_decode := λ k, k =? 1 in
  (extract single (λ _, Decoded pcm_stereo) set_after_decode "a.mp3").1
  = Resolved []
  ∧ progress_
      (extract single (λ _, Decoded pcm_stereo) set_after_decode "a.mp3").2
    = 0%Qc.
Proof.
  intros set_after_decode.
  destruct (extract_cancellation single (λ _, Decoded pcm_stereo)
              set_after_decode "a.mp3") as [H _].
  apply (H AfterDecode).
  - right. left. reflexivity.
  - apply (bool_decide_unpack _). vm_compute. exact I.
Defined.

Lemma extract_config_only_through_decode_witness :
  extract quad (λ _, Decoded pcm_stereo) clear "a.mp3"
  = extract quad (λ _, Decoded pcm_stereo) clear "b.wav".
Proof.
  destruct (extract_config_only_through_decode quad clear
              (λ _, Decoded pcm_stereo) (λ _, Decoded pcm_stereo) "a.mp3" "b.wav")
    as [H _].
  apply H. reflexivity.
Defined.

(** ** Concrete registries *)

(** S6: the registry is full; a new key is refused, and accepted after
    a removal *)
Example capacity_scenario :
  size (players_ full_registry) = 30
  ∧ (createPlayer (λ _, Some idle_player) "p30" full_registry).1
    = Throw LimitReached
  ∧ (createPlayer (λ _, Some idle_player) "p30"
       (removePlayer "p0" full_registry).2).1 = Ok idle_player.
Proof. split; [|split]; vm_compute; reflexivity. Qed.

(** C7 as stated fails on a full registry when the key is one of the
    thirty: the error is the duplicate-key error, not the
    capacity-exceeded error. *)
Lemma createPlayer_full_duplicate_counterexample :
  ¬ (size (players_ full_registry) = MAX_PLAYERS →
     (createPlayer (λ _, Some idle_player) "p0" full_registry).1
     = Throw LimitReached).
Proof.
  intros H.
  assert (size (players_ full_registry) = MAX_PLAYERS) as Hsize
    by (vm_compute; reflexivity).
  specialize (H Hsize).
  assert ((createPlayer (λ _, Some idle_player) "p0" full_registry).1
          = Throw AlreadyExists) as Hdup by (vm_compute; reflexivity).
  rewrite Hdup in H. discriminate H.
Qed.

Lemma createPlayer_failures_witness :
  createPlayer (λ _, Some idle_player) "p0" full_registry
  = (Throw AlreadyExists, full_registry)
  ∧ createPlayer (λ _, Some idle_player) "p30" full_registry
    = (Throw LimitReached, full_registry).
Proof.
  split.
  - destruct (createPlayer_failures (λ _, Some idle_player)
                (λ _, None) "p0" full_registry) as [H _].
    apply H. vm_compute. eexists. reflexivity.
  - destruct (createPlayer_failures (λ _, Some idle_player)
                (λ _, None) "p30" full_registry) as (_ & H & _).
    apply H; vm_compute; reflexivity.
Defined.

Example bulk_stop :
  (stopAllPlayers three_players).1.1 = Some false
  ∧ getPlayerCount (stopAllPlayers three_players).2 = 0.
Proof. split; vm_compute; reflexivity. Qed.

Example bulk_stop_calls :
  "b" ∈ (stopAllPlayers three_players).1.2
  ∧ getPlayerCount (stopAllPlayers three_players).2 = 0.
Proof.
  destruct (stopAllPlayers_spec three_players)
    as (Hstopped & _ & _ & _ & Hcount & _).
  { by apply no_escape_check. }
  split; [|exact Hcount].
  apply (Hstopped "b"). exists (Player (Playing true) (StopResolved true)).
  split; vm_compute; reflexivity.
Qed.

Lemma stopAllExtractors_spec_witness :
  (stopAllExtractors two_extractors).1.1 = true
  ∧ "y" ∈ (stopAllExtractors two_extractors).1.2
  ∧ getExtractorCount (stopAllExtractors two_extractors).2 = 0.
Proof.
  destruct (stopAllExtractors_spec two_extractors)
    as (Htrue & Hcancelled & _ & Hcount & _).
  split; [exact Htrue|]. split; [|exact Hcount].
  apply (Hcancelled "y"). exists (Extractor false).
  split; vm_compute; reflexivity.
Defined.

(** * Further properties of the code *)

(** ** findMaxAbs *)

(** X1. [findMaxAbs], in each of its three variants (NEON, SSE2 and
    scalar), returns the largest magnitude among the [count] floats of
    the block: it bounds the magnitude of every float of the block, it
    is the magnitude of one of them when the block is not empty, and it
    is [0.0] for an empty block. *)
Theorem findMaxAbs_is_max simd (data : fptr) (count : nat) :
  let m := findMaxAbs simd data count in
  (∀ i, i < count → (fabs (data i) ≤ m)%Qc)
  ∧ (count = 0 → m = 0%Qc)
  ∧ (0 < count → ∃ i, i < count ∧ m = fabs (data i)).
Proof.
  intros m. subst m. rewrite findMaxAbs_scalar.
  destruct (findMaxAbsScalar_spec data count) as [Hb Ha].
  split; [intros i Hi; apply Hb; lia|]. split.
  - intros ->. destruct Ha as [-> | (i & Hi & _)]; [done|lia].
  - intros Hc. destruct Ha as [Hz | Ha]; [|done].
    exists 0. split; [done|]. rewrite Hz. apply Qcle_antisym.
    + apply fabs_nonneg.
    + rewrite <-Hz. apply Hb. lia.
Qed.

(** ** The values of the envelope *)

Lemma fabs_0 : fabs 0%Qc = 0%Qc.
Proof. by_evaluation. Qed.

Lemma at_index_magnitude pcm i : magnitude_of pcm (fabs (at_index pcm i)).
Proof.
  unfold at_index. destruct (pcm !! i) as [x|] eqn:E; simpl.
  - right. exists x. split; [|done]. by eapply list_elem_of_lookup_2.
  - left. apply fabs_0.
Qed.

Section CellFacts.

Variable audioData : list Qc.
Variables S C : nat.
Variable progressCallback : callback.
Variable cancellationFlag : flag_ptr.
Variable P : Qc → Prop.
Hypothesis P_zero : P 0%Qc.
Hypothesis P_sample : ∀ i, P (fabs (at_index audioData i)).

Lemma strided_max_cell pixel channel :
  P (strided_max audioData S C pixel channel).
Proof.
  unfold strided_max.
  apply (for_loop_inv (λ _ m, P m)); [done|].
  intros j m _ Hm. by destruct (fmax_cases m (fabs (at_index audioData j))) as [-> | ->].
Qed.

Lemma findMaxAbs_cell simd start count :
  P (findMaxAbs simd (ptr_at audioData start) count).
Proof.
  rewrite findMaxAbs_scalar.
  destruct (findMaxAbsScalar_spec (ptr_at audioData start) count)
    as [_ [-> | (i & _ & ->)]]; [done|].
  apply P_sample.
Qed.

Lemma set_cell_cells channel pixel v r :
  P v → cells P r → cells P (set_cell channel pixel v r).
Proof.
  intros Hv Hr. unfold set_cell. apply Forall_alter; [done|].
  intros row _ Hrow. by apply Forall_insert.
Qed.

Lemma st_channels_cells pixel r :
  cells P r → cells P (st_channels audioData S C pixel r).
Proof.
  unfold st_channels. generalize (seq 0 C). intros chs. revert r.
  induction chs as [|c chs IH]; intros r Hr; simpl; [done|].
  apply IH, set_cell_cells; [apply strided_max_cell|done].
Qed.

Lemma mt_channels_cells simd pixel r :
  cells P r → cells P (mt_channels audioData S C simd pixel r).
Proof.
  unfold mt_channels. generalize (seq 0 C). intros chs. revert r.
  induction chs as [|c chs IH]; intros r Hr; simpl; [done|].
  apply IH. destruct (C =? 1).
  - apply set_cell_cells; [apply findMaxAbs_cell|done].
  - apply set_cell_cells; [apply strided_max_cell|done].
Qed.

Lemma st_loop_cells pixels r w r' w' :
  cells P r →
  st_loop audioData S C progressCallback cancellationFlag pixels r w
  = (Some r', w') →
  cells P r'.
Proof.
  revert r w. induction pixels as [|pixel rest IH]; intros r w Hr;
    cbn [st_loop].
  - by intros [= <- <-].
  - destruct (if pixel mod 100 =? 0 then _ else _) as [c w1].
    destruct c; [done|]. apply IH. by apply st_channels_cells.
Qed.

Lemma mt_step_cells simd t m :
  cells P (m_result m) →
  cells P (m_result (mt_step audioData S C progressCallback cancellationFlag
                       simd t m)).
Proof.
  intros Hm. unfold mt_step.
  destruct (m_workers m !! t) as [wk|]; [|done].
  destruct (w_returned wk); [done|].
  destruct (w_pending wk); [done|].
  destruct (w_pixel wk <? w_endPixel wk); [|done].
  destruct (if w_pixel wk mod 100 =? 0 then _ else _) as [c w1].
  destruct c; simpl; [done|]. by apply mt_channels_cells.
Qed.

Lemma mt_run_cells simd numThreads sched r w :
  cells P r →
  cells P (m_result (mt_run audioData S C progressCallback cancellationFlag
                       simd numThreads sched r w)).
Proof.
  intros Hr. unfold mt_run.
  set (m0 := Machine r _ 0 w).
  assert (cells P (m_result m0)) as H0 by done.
  clearbody m0.
  assert (∀ ts m, cells P (m_result m) →
    cells P (m_result (foldl (λ m t,
      mt_step audioData S C progressCallback cancellationFlag simd t m)
      m ts))) as Hsched.
  { induction ts as [|t ts IH]; intros m Hm; simpl; [done|].
    by apply IH, mt_step_cells. }
  assert (∀ n t m, cells P (m_result m) →
    cells P (m_result (Nat.iter n
      (mt_step audioData S C progressCallback cancellationFlag simd t) m)))
    as Hiter.
  { induction n as [|n IH]; intros t m Hm; simpl; [done|].
    by apply mt_step_cells, IH. }
  assert (∀ ts m, cells P (m_result m) →
    cells P (m_result (foldl
      (join audioData S C progressCallback cancellationFlag simd numThreads)
      m ts))) as Hjoin.
  { induction ts as [|t ts IH]; intros m Hm; simpl; [done|].
    by apply IH, Hiter. }
  by apply Hjoin, Hsched.
Qed.

Lemma process_body_cells hw simd sched w :
  cells P (process_body audioData S C progressCallback cancellationFlag
             hw simd sched w).1.
Proof.
  assert (cells P (replicate C (replicate (length audioData / S / C) 0%Qc)))
    as Hz.
  { apply Forall_replicate, Forall_replicate, P_zero. }
  unfold process_body.
  destruct (Nat.min hw (length audioData / S / C) <=? 1).
  - destruct (st_loop _ _ _ _ _ _ _ w) as [[r'|] w'] eqn:E; simpl.
    + by eapply st_loop_cells.
    + constructor.
  - destruct (isCancelled cancellationFlag AfterJoin _) as [c w'].
    destruct c; simpl; [constructor|]. by apply mt_run_cells.
Qed.

End CellFacts.

Lemma processWaveform_cells P pf pcm S C cb flag w :
  P 0%Qc → (∀ i, P (fabs (at_index pcm i))) →
  cells P (processWaveform pf pcm S C cb flag w).1.
Proof.
  intros H0 Hs. unfold processWaveform.
  destruct (_ || _); [constructor|]. cbn zeta.
  destruct (_ =? 0); [constructor|].
  by apply process_body_cells.
Qed.

Lemma processWaveform_nonempty pf pcm S C cb flag w :
  (processWaveform pf pcm S C cb flag w).1 ≠ [] → pcm ≠ [].
Proof.
  intros H ->. apply H. unfold processWaveform.
  by rewrite bool_decide_eq_true_2.
Qed.

(** X2. Whatever the flag, the callback, the platform and the
    interleaving of the workers: every value of the envelope that
    [processWaveform] returns is zero or the magnitude of one of the
    input samples.  So it is never negative, and it does not exceed a
    bound of the magnitudes of the samples. *)
Theorem processWaveform_values_are_magnitudes pf pcm S C cb flag w row v :
  row ∈ (processWaveform pf pcm S C cb flag w).1 → v ∈ row →
  (v = 0%Qc ∨ ∃ x, x ∈ pcm ∧ v = fabs x)
  ∧ (0 ≤ v)%Qc
  ∧ ∀ L, (∀ x, x ∈ pcm → (fabs x ≤ L)%Qc) → (v ≤ L)%Qc.
Proof.
  intros Hrow Hv.
  pose proof (processWaveform_cells (magnitude_of pcm) pf pcm S C cb flag w
                (or_introl eq_refl) (at_index_magnitude pcm)) as Hcells.
  unfold cells in Hcells. rewrite Forall_forall in Hcells.
  specialize (Hcells row Hrow). rewrite Forall_forall in Hcells.
  specialize (Hcells v Hv).
  split; [done|]. split.
  - destruct Hcells as [-> | (x & _ & ->)]; [done|apply fabs_nonneg].
  - intros L HL. destruct Hcells as [-> | (x & Hx & ->)]; [|by apply HL].
    assert (pcm ≠ []) as Hne.
    { apply (processWaveform_nonempty pf pcm S C cb flag w).
      intros E. rewrite E in Hrow. by apply not_elem_of_nil in Hrow. }
    destruct pcm as [|x pcm']; [done|].
    eapply Qcle_trans; [apply (fabs_nonneg x)|]. apply HL. by left.
Qed.

Lemma processWaveform_values_are_magnitudes_witness :
  [dec 9 10; dec 3 10; dec 8 10]
    ∈ (processWaveform quad pcm_mono 2 1 None None w0).1
  ∧ (∃ x, x ∈ pcm_mono ∧ dec 9 10 = fabs x)
  ∧ (dec 9 10 ≤ 1)%Qc.
Proof.
  assert ([dec 9 10; dec 3 10; dec 8 10]
            ∈ (processWaveform quad pcm_mono 2 1 None None w0).1) as Hrow.
  { apply (bool_decide_unpack _). vm_compute. exact I. }
  assert (dec 9 10 ∈ [dec 9 10; dec 3 10; dec 8 10]) as Hv.
  { apply (bool_decide_unpack _). vm_compute. exact I. }
  destruct (processWaveform_values_are_magnitudes quad pcm_mono 2 1 None None
              w0 [dec 9 10; dec 3 10; dec 8 10] (dec 9 10) Hrow Hv)
    as (Hmag & _ & HL).
  split; [exact Hrow|]. split.
  - destruct Hmag as [Hz | Hmag]; [|exact Hmag].
    exfalso. revert Hz. vm_compute. discriminate.
  - apply HL. apply Forall_forall.
    apply (bool_decide_unpack _). vm_compute. exact I.
Defined.

(** ** Magnitudes only *)

Lemma for_loop_ext {A : Type} fuel cond step (body body' : nat → A → A) i acc :
  (∀ j a, body j a = body' j a) →
  for_loop fuel cond step body i acc = for_loop fuel cond step body' i acc.
Proof.
  intros Hext. revert i acc.
  induction fuel as [|fuel IH]; intros i acc; simpl; [done|].
  destruct (cond i); [|done]. by rewrite Hext, IH.
Qed.

Lemma fabs_at_index pcm pcm' i :
  fabs <$> pcm = fabs <$> pcm' →
  fabs (at_index pcm i) = fabs (at_index pcm' i).
Proof.
  intros H. unfold at_index.
  assert ((fabs <$> pcm) !! i = (fabs <$> pcm') !! i) as Hi by by rewrite H.
  rewrite !list_lookup_fmap in Hi.
  destruct (pcm !! i), (pcm' !! i); simpl in *; congruence.
Qed.

Lemma strided_max_magnitudes pcm pcm' S C pixel channel :
  fabs <$> pcm = fabs <$> pcm' →
  strided_max pcm S C pixel channel = strided_max pcm' S C pixel channel.
Proof.
  intros H. unfold strided_max, endSample.
  assert (length pcm = length pcm') as ->.
  { by rewrite <-(length_fmap fabs pcm), H, length_fmap. }
  f_equal. apply for_loop_ext. intros j a. by rewrite (fabs_at_index pcm pcm').
Qed.

Lemma peaks_magnitudes pcm pcm' S C :
  fabs <$> pcm = fabs <$> pcm' → peaks pcm S C = peaks pcm' S C.
Proof.
  intros H. unfold peaks.
  assert (length pcm = length pcm') as ->.
  { by rewrite <-(length_fmap fabs pcm), H, length_fmap. }
  apply list_fmap_ext. intros _ c _. apply list_fmap_ext. intros _ p _.
  by apply strided_max_magnitudes.
Qed.

Lemma rejected_length pcm pcm' S C :
  length pcm = length pcm' → rejected pcm S C = rejected pcm' S C.
Proof.
  intros H. unfold rejected. rewrite H. do 3 f_equal.
  apply bool_decide_ext. split; intros ->; apply length_zero_iff_nil;
    simpl in H; congruence.
Qed.

(** X3. The envelope depends on the magnitudes of the samples only: two
    buffers with the same magnitudes sample by sample (a buffer and its
    polarity inversion, for instance) give the same envelope, when no
    load finds the flag set. *)
Theorem processWaveform_magnitudes_only pf pcm pcm' S C cb flag w :
  never_set flag → fabs <$> pcm = fabs <$> pcm' →
  (processWaveform pf pcm S C cb flag w).1
  = (processWaveform pf pcm' S C cb flag w).1.
Proof.
  intros Hnever H. rewrite !processWaveform_env by done.
  rewrite (rejected_length pcm pcm').
  - destruct (rejected pcm' S C); [done|]. by apply peaks_magnitudes.
  - by rewrite <-(length_fmap fabs pcm), H, length_fmap.
Qed.

Lemma processWaveform_magnitudes_only_witness :
  (processWaveform quad (Qcopp <$> pcm_mono) 2 1 None None w0).1
  = (processWaveform quad pcm_mono 2 1 None None w0).1.
Proof.
  apply processWaveform_magnitudes_only.
  - intros load Hload. discriminate Hload.
  - apply (bool_decide_unpack _). vm_compute. exact I.
Defined.

(** ** Chunks *)

Lemma at_index_app_l pcm1 pcm2 i :
  i < length pcm1 → at_index (pcm1 ++ pcm2) i = at_index pcm1 i.
Proof. intros Hi. unfold at_index. by rewrite lookup_app_l. Qed.

Lemma at_index_app_r pcm1 pcm2 i :
  at_index (pcm1 ++ pcm2) (length pcm1 + i) = at_index pcm2 i.
Proof.
  unfold at_index. rewrite lookup_app_r by lia.
  by replace (length pcm1 + i - length pcm1) with i by lia.
Qed.

Section ChunkFacts.

Variables pcm1 pcm2 : list Qc.
Variables S C B1 : nat.
Hypothesis S_pos : 0 < S.
Hypothesis C_pos : 0 < C.
Hypothesis whole : length pcm1 = B1 * S * C.

Lemma chunk_buckets :
  length (pcm1 ++ pcm2) / S / C = B1 + length pcm2 / S / C.
Proof.
  rewrite length_app, whole, !Nat.Div0.div_div.
  replace (B1 * S * C) with (B1 * (S * C)) by lia.
  rewrite Nat.div_add_l by lia. done.
Qed.

Lemma chunk_buckets_l : length pcm1 / S / C = B1.
Proof.
  rewrite whole, Nat.Div0.div_div.
  replace (B1 * S * C) with (B1 * (S * C)) by lia.
  apply Nat.div_mul. lia.
Qed.

Lemma strided_max_chunk_l pixel channel :
  pixel < B1 → channel < C →
  strided_max (pcm1 ++ pcm2) S C pixel channel
  = strided_max pcm1 S C pixel channel.
Proof.
  intros Hp Hc.
  apply (is_peak_unique (pcm1 ++ pcm2) S C pixel channel).
  - apply strided_max_is_peak; [done|done| |done]. rewrite chunk_buckets. lia.
  - destruct (strided_max_is_peak pcm1 S C S_pos C_pos pixel channel)
      as [Hb (k & Hk & Ha)]; [by rewrite chunk_buckets_l|done|].
    assert (∀ k, k < S → pixel * S * C + k * C + channel < length pcm1) as Hin.
    { intros k' Hk'. apply bucket_in_range; [done|done| |done|done].
      by rewrite chunk_buckets_l. }
    split.
    + intros k' Hk'. rewrite at_index_app_l by by apply Hin. by apply Hb.
    + exists k. split; [done|]. rewrite at_index_app_l by by apply Hin. done.
Qed.

Lemma strided_max_chunk_r pixel channel :
  pixel < length pcm2 / S / C → channel < C →
  strided_max (pcm1 ++ pcm2) S C (B1 + pixel) channel
  = strided_max pcm2 S C pixel channel.
Proof.
  intros Hp Hc.
  apply (is_peak_unique (pcm1 ++ pcm2) S C (B1 + pixel) channel).
  - apply strided_max_is_peak; [done|done| |done]. rewrite chunk_buckets. lia.
  - destruct (strided_max_is_peak pcm2 S C S_pos C_pos pixel channel)
      as [Hb (k & Hk & Ha)]; [done|done|].
    assert (∀ k, (B1 + pixel) * S * C + k * C + channel
                 = length pcm1 + (pixel * S * C + k * C + channel)) as Hidx.
    { intros k'. rewrite whole. lia. }
    split.
    + intros k' Hk'. rewrite Hidx, at_index_app_r. by apply Hb.
    + exists k. split; [done|]. by rewrite Hidx, at_index_app_r.
Qed.

Lemma peaks_chunks :
  peaks (pcm1 ++ pcm2) S C = zip_with app (peaks pcm1 S C) (peaks pcm2 S C).
Proof.
  unfold peaks. rewrite chunk_buckets, chunk_buckets_l.
  rewrite zip_with_fmap_l, zip_with_fmap_r, zip_with_diag.
  apply list_fmap_ext. intros i c Hc.
  apply lookup_seq in Hc as [-> Hc]. simpl.
  rewrite seq_app, fmap_app. f_equal.
  - apply list_fmap_ext. intros j p Hp. apply lookup_seq in Hp as [-> Hp].
    by apply strided_max_chunk_l.
  - assert (seq (0 + B1) (length pcm2 / S / C)
            = Nat.add B1 <$> seq 0 (length pcm2 / S / C)) as ->.
    { rewrite fmap_add_seq. f_equal. lia. }
    rewrite <-list_fmap_compose.
    apply list_fmap_ext. intros j p Hp. apply lookup_seq in Hp as [-> Hp].
    simpl. by apply strided_max_chunk_r.
Qed.

End ChunkFacts.

(** X4. A buffer can be processed in chunks: when the first chunk
    holds a whole number of buckets, at least one, and the second chunk
    holds at least one bucket, the envelope of the concatenation is,
    channel by channel, the envelope of the first chunk followed by the
    envelope of the second. *)
Theorem processWaveform_chunks pf pcm1 pcm2 S C w :
  (0 < S)%Z → (0 < C)%Z →
  length pcm1 = buckets pcm1 S C * Z.to_nat S * Z.to_nat C →
  buckets pcm1 S C ≠ 0 → buckets pcm2 S C ≠ 0 →
  (processWaveform pf (pcm1 ++ pcm2) S C None None w).1
  = zip_with app (processWaveform pf pcm1 S C None None w).1
                 (processWaveform pf pcm2 S C None None w).1.
Proof.
  intros HS HC Hwhole HB1 HB2.
  rewrite !buckets_numPixels in * by done.
  rewrite !processWaveform_env by apply never_set_null.
  assert (∀ pcm, length pcm / Z.to_nat S / Z.to_nat C ≠ 0 →
            rejected pcm S C = false) as Hrej.
  { intros pcm HB. unfold rejected.
    rewrite (proj2 (Nat.eqb_neq _ _) HB), orb_false_r.
    rewrite (proj2 (Z.leb_gt _ _) HS), (proj2 (Z.leb_gt _ _) HC), !orb_false_r.
    apply bool_decide_eq_false_2. intros ->. apply HB. simpl.
    by rewrite !Nat.Div0.div_0_l. }
  rewrite (Hrej pcm1), (Hrej pcm2) by done.
  rewrite Hrej.
  - apply (peaks_chunks pcm1 pcm2 (Z.to_nat S) (Z.to_nat C)
             (length pcm1 / Z.to_nat S / Z.to_nat C)); (done || lia).
  - rewrite (chunk_buckets pcm1 pcm2 (Z.to_nat S) (Z.to_nat C)
               (length pcm1 / Z.to_nat S / Z.to_nat C)); (done || lia).
Qed.

Lemma processWaveform_chunks_witness :
  (processWaveform dual (pcm_stereo ++ pcm_stereo) 2 2 None None w0).1
  = zip_with app (processWaveform dual pcm_stereo 2 2 None None w0).1
                 (processWaveform dual pcm_stereo 2 2 None None w0).1.
Proof.
  apply processWaveform_chunks.
  - lia.
  - lia.
  - reflexivity.
  - vm_compute. discriminate.
  - vm_compute. discriminate.
Defined.

(** ** Channels *)

Lemma rejected_buckets pcm S C :
  (0 < S)%Z → (0 < C)%Z →
  rejected pcm S C = (length pcm / Z.to_nat S / Z.to_nat C =? 0).
Proof.
  intros HS HC. unfold rejected.
  rewrite (proj2 (Z.leb_gt _ _) HS), (proj2 (Z.leb_gt _ _) HC), !orb_false_r.
  case_bool_decide as E; [|done]. subst pcm. simpl.
  by rewrite !Nat.Div0.div_0_l.
Qed.

Section ChannelFacts.

Variable pcm : list Qc.
Variables S C c : nat.
Hypothesis S_pos : 0 < S.
Hypothesis C_pos : 0 < C.
Hypothesis c_lt : c < C.

Lemma channel_samples_length : length (channel_samples pcm C c) = length pcm / C.
Proof. unfold channel_samples. by rewrite length_fmap, length_seq. Qed.

Lemma channel_buckets :
  length (channel_samples pcm C c) / S / 1 = length pcm / S / C.
Proof.
  rewrite channel_samples_length, Nat.div_1_r, !Nat.Div0.div_div.
  f_equal. lia.
Qed.

Lemma at_index_channel j :
  j < length pcm / C →
  at_index (channel_samples pcm C c) j = at_index pcm (j * C + c).
Proof.
  intros Hj. unfold at_index at 1, channel_samples.
  rewrite list_lookup_fmap, lookup_seq_lt by done. done.
Qed.

Lemma strided_max_channel pixel :
  pixel < length pcm / S / C →
  strided_max (channel_samples pcm C c) S 1 pixel 0
  = strided_max pcm S C pixel c.
Proof.
  intros Hp.
  assert (∀ k, k < S → pixel * S + k < length pcm / C) as Hin.
  { intros k Hk.
    assert (length pcm / S / C = length pcm / C / S) as E.
    { rewrite !Nat.Div0.div_div. f_equal. lia. }
    rewrite E in Hp.
    pose proof (Nat.Div0.mul_div_le (length pcm / C) S).
    assert ((pixel + 1) * S ≤ S * (length pcm / C / S)) by nia. lia. }
  apply (is_peak_unique pcm S C pixel c).
  - destruct (strided_max_is_peak (channel_samples pcm C c) S 1
                S_pos ltac:(lia) pixel 0) as [Hb (k & Hk & Ha)];
      [by rewrite channel_buckets|lia|].
    split.
    + intros k' Hk'. specialize (Hb k' Hk').
      replace (pixel * S * 1 + k' * 1 + 0) with (pixel * S + k') in Hb by lia.
      rewrite at_index_channel in Hb by by apply Hin.
      by replace (pixel * S * C + k' * C + c)
        with ((pixel * S + k') * C + c) by lia.
    + exists k. split; [done|]. rewrite Ha.
      replace (pixel * S * 1 + k * 1 + 0) with (pixel * S + k) by lia.
      rewrite at_index_channel by by apply Hin.
      by replace (pixel * S * C + k * C + c)
        with ((pixel * S + k) * C + c) by lia.
  - by apply strided_max_is_peak.
Qed.

Lemma peaks_channel :
  0 < length pcm / S / C →
  peaks pcm S C !! c = peaks (channel_samples pcm C c) S 1 !! 0.
Proof.
  intros HB. unfold peaks. rewrite channel_buckets.
  rewrite !list_lookup_fmap, !lookup_seq_lt by lia. simpl.
  f_equal. apply list_fmap_ext.
  intros i p Hp. apply lookup_seq in Hp as [-> Hp]. simpl.
  symmetry. by apply strided_max_channel.
Qed.

End ChannelFacts.

(** on ordered floats: channel [c] of the envelope of an interleaved
    buffer is the mono envelope of the samples of channel [c] *)
Lemma channel_independent_ordered pf pf' pcm S C c w :
  (0 < S)%Z → (0 < C)%Z → c < Z.to_nat C →
  (processWaveform pf pcm S C None None w).1 !! c
  = (processWaveform pf' (channel_samples pcm (Z.to_nat C) c) S 1
       None None w).1 !! 0.
Proof.
  intros HS HC Hc. rewrite !processWaveform_env by apply never_set_null.
  rewrite !rejected_buckets by lia. change (Z.to_nat 1) with 1.
  rewrite (channel_buckets pcm (Z.to_nat S) (Z.to_nat C) c) by lia.
  destruct (length pcm / Z.to_nat S / Z.to_nat C =? 0) eqn:E; [done|].
  apply Nat.eqb_neq in E. apply peaks_channel; lia.
Qed.

(** ** The ranges of the workers *)

(** X6. The ranges [[startPixel, endPixel)] of the workers of the
    multi-threaded path partition the buckets: every bucket lies in the
    range of exactly one worker, so that no two workers write the same
    cell of the result. *)
Theorem workers_partition_buckets audioData S C numThreads pixel :
  0 < numThreads → pixel < length audioData / S / C →
  ∃ t, t < numThreads
    ∧ w_pixel (spawn audioData S C numThreads t) ≤ pixel
    ∧ pixel < w_endPixel (spawn audioData S C numThreads t)
    ∧ ∀ t', w_pixel (spawn audioData S C numThreads t') ≤ pixel →
            pixel < w_endPixel (spawn audioData S C numThreads t') →
            t' = t.
Proof.
  intros HnT Hp. unfold spawn. simpl. unfold pixelsPerThread.
  set (N := length audioData / S / C) in *.
  set (ppt := (N + numThreads - 1) / numThreads).
  assert (N ≤ numThreads * ppt) as Hcover.
  { pose proof (Nat.div_mod_eq (N + numThreads - 1) numThreads) as Hdm.
    pose proof (Nat.mod_upper_bound (N + numThreads - 1) numThreads
                  ltac:(lia)) as Hm.
    fold ppt in Hdm. lia. }
  assert (0 < ppt) as Hppt.
  { destruct ppt; [lia|lia]. }
  exists (pixel / ppt).
  pose proof (Nat.div_mod_eq pixel ppt) as Hdm.
  pose proof (Nat.mod_upper_bound pixel ppt ltac:(lia)) as Hm.
  split; [apply Nat.Div0.div_lt_upper_bound; nia|].
  split; [nia|]. split; [nia|].
  intros t' Hlo Hhi.
  apply (Nat.div_unique pixel ppt t' (pixel - t' * ppt)); [|nia].
  nia.
Qed.

Lemma workers_partition_buckets_witness :
  ∃ t, t < 4
    ∧ w_pixel (spawn pcm_mono 1 1 4 t) ≤ 5
    ∧ 5 < w_endPixel (spawn pcm_mono 1 1 4 t).
Proof.
  destruct (workers_partition_buckets pcm_mono 1 1 4 5)
    as (t & Ht & Hlo & Hhi & _).
  - lia.
  - simpl. lia.
  - exists t. split; [exact Ht|]. split; [exact Hlo|exact Hhi].
Defined.

(** ** The values handed to the progress callback *)

Lemma of_nat_pos n : 0 < n → (0 < of_nat n)%Qc.
Proof.
  intros Hn. unfold of_nat. rewrite <-Z2Qc_inj_0, <-Z2Qc_inj_lt. lia.
Qed.

Lemma ratio_fraction p N : 1 ≤ p ≤ N → fraction (of_nat p / of_nat N)%Qc.
Proof.
  intros [Hp HN].
  assert (0 < of_nat N)%Qc as HNpos by (apply of_nat_pos; lia).
  assert (0 < / of_nat N)%Qc as Hinv by by apply Qcinv_pos.
  split.
  - unfold Qcdiv. apply Qcmult_pos_pos; [apply of_nat_pos; lia|done].
  - unfold Qcdiv. rewrite <-(Qcmult_inv_r (of_nat N)).
    + apply Qcmult_le_compat_r; [|by apply Qclt_le_weak].
      unfold of_nat. rewrite <-Z2Qc_inj_le. lia.
    + intros E. rewrite E in HNpos. by apply Qclt_not_eq in HNpos.
Qed.

Lemma ratio_full N : 0 < N → (of_nat N / of_nat N)%Qc = 1%Qc.
Proof.
  intros HN. unfold Qcdiv. apply Qcmult_inv_r.
  intros E. pose proof (of_nat_pos N HN) as H. rewrite E in H.
  by apply Qclt_not_eq in H.
Qed.

Lemma sum_list_snoc l n : sum_list (l ++ [n]) = sum_list l + n.
Proof. induction l as [|x l IH]; simpl; [lia|]. rewrite IH. lia. Qed.

Lemma sum_remaining_insert ws t wk wk' :
  ws !! t = Some wk →
  sum_list (remaining <$> <[t := wk']> ws) + remaining wk
  = sum_list (remaining <$> ws) + remaining wk'.
Proof.
  revert t. induction ws as [|x ws IH]; intros t Ht; [done|].
  destruct t as [|t].
  - injection Ht as ->.
    change (<[0 := wk']> (wk :: ws)) with (wk' :: ws).
    rewrite !fmap_cons. cbn [sum_list_with]. unfold id in *. lia.
  - specialize (IH t Ht).
    change (<[Datatypes.S t := wk']> (x :: ws)) with (x :: <[t := wk']> ws).
    rewrite !fmap_cons. cbn [sum_list_with]. unfold id in *. lia.
Qed.

Lemma sum_remaining_insert_same ws t wk wk' :
  ws !! t = Some wk → remaining wk' = remaining wk →
  sum_list (remaining <$> <[t := wk']> ws) = sum_list (remaining <$> ws).
Proof.
  intros Ht E. pose proof (sum_remaining_insert ws t wk wk' Ht). lia.
Qed.

Lemma sum_remaining_insert_step ws t wk wk' :
  ws !! t = Some wk → remaining wk' + 1 = remaining wk →
  sum_list (remaining <$> <[t := wk']> ws) + 1 = sum_list (remaining <$> ws).
Proof.
  intros Ht E. pose proof (sum_remaining_insert ws t wk wk' Ht). lia.
Qed.

Section ReportFacts.

Variable audioData : list Qc.
Variables S C : nat.
Variable progressCallback : callback.
Variable cancellationFlag : flag_ptr.
Variable Q : Qc → Prop.
Hypothesis guarded : delivers_on fraction Q progressCallback.

Local Abbreviation numPixels := (length audioData / S / C).

Lemma reportProgress_guarded processed w :
  1 ≤ processed ≤ numPixels →
  extends (calm Q) w
    (reportProgress audioData S C progressCallback processed w).
Proof.
  intros Hp. unfold reportProgress. destruct progressCallback as [f|] eqn:E.
  - eapply extends_weaken; [|apply (guarded f eq_refl), ratio_fraction, Hp].
    intros [] He; try done. split; [done|]. by intros H.
  - apply extends_refl.
Qed.

Lemma poll_extends pixel w :
  extends (processor_event Q) w
    (if pixel mod 100 =? 0
     then isCancelled cancellationFlag (InBucket pixel) w
     else (false, w)).2.
Proof.
  destruct (pixel mod 100 =? 0); [|apply extends_refl].
  pose proof (isCancelled_extends cancellationFlag Q (InBucket pixel) w I)
    as H.
  destruct (isCancelled cancellationFlag (InBucket pixel) w) as [c w1].
  destruct c; simpl.
  - eexists [_]. split; [done|]. by apply Forall_singleton.
  - eapply extends_weaken; [|done]. by intros e [He _].
Qed.

Lemma st_loop_guarded pixels r w :
  Forall (λ p, p < numPixels) pixels →
  extends (processor_event Q) w
    (st_loop audioData S C progressCallback cancellationFlag pixels r w).2.
Proof.
  revert r w. induction pixels as [|pixel rest IH]; intros r w HF;
    cbn [st_loop]; [apply extends_refl|].
  apply Forall_cons in HF as [Hp HF].
  pose proof (poll_extends pixel w) as Hpoll.
  destruct (if pixel mod 100 =? 0 then _ else _) as [c w1].
  cbn [snd] in Hpoll. destruct c; [done|].
  eapply extends_trans; [done|].
  eapply extends_trans; [|by apply IH].
  assert (extends (processor_event Q) w1 (log (EvBucket pixel) w1)) as Hb
    by by apply extends_log.
  destruct (_ || _); [|done].
  eapply extends_trans; [done|].
  eapply extends_weaken; [|apply reportProgress_guarded; lia].
  by intros e [He _].
Qed.

Lemma mt_step_guarded simd t m :
  counted numPixels m →
  extends (processor_event Q) (m_world m)
    (m_world (mt_step audioData S C progressCallback cancellationFlag
                simd t m))
  ∧ counted numPixels
      (mt_step audioData S C progressCallback cancellationFlag simd t m).
Proof.
  intros [Hsum Hpend]. unfold mt_step.
  destruct (m_workers m !! t) as [wk|] eqn:Ht;
    [|split; [apply extends_refl|done]].
  destruct (w_returned wk); [split; [apply extends_refl|done]|].
  destruct (w_pending wk) as [processed|] eqn:Hwp.
  { split.
    - simpl. eapply extends_weaken;
        [|apply reportProgress_guarded; by eapply Hpend].
      by intros e [He _].
    - split; simpl.
      + by rewrite (sum_remaining_insert_same _ t wk).
      + intros t' wk' p Hl Hp.
        destruct (decide (t' = t)) as [-> | Hne].
        * rewrite list_lookup_insert_eq in Hl
            by by eapply lookup_lt_Some.
          injection Hl as <-. done.
        * rewrite list_lookup_insert_ne in Hl by done. by eapply Hpend. }
  destruct (w_pixel wk <? w_endPixel wk) eqn:Hlt;
    [|split; [apply extends_refl|done]].
  apply Nat.ltb_lt in Hlt.
  pose proof (poll_extends (w_pixel wk) (m_world m)) as Hpoll.
  destruct (if w_pixel wk mod 100 =? 0 then _ else _) as [c w1].
  cbn [snd] in Hpoll. destruct c; simpl.
  - split; [done|]. split; simpl.
    + by rewrite (sum_remaining_insert_same _ t wk).
    + intros t' wk' p Hl Hp.
      destruct (decide (t' = t)) as [-> | Hne].
      * rewrite list_lookup_insert_eq in Hl by by eapply lookup_lt_Some.
        injection Hl as <-. done.
      * rewrite list_lookup_insert_ne in Hl by done. by eapply Hpend.
  - split.
    { eapply extends_trans; [done|]. by apply extends_log. }
    set (pending := if _ || _ then Some (pixelsProcessed m + 1) else None).
    pose proof (sum_remaining_insert_step (m_workers m) t wk
      (Worker (w_pixel wk + 1) (w_endPixel wk) pending false) Ht) as Hs.
    assert (remaining (Worker (w_pixel wk + 1) (w_endPixel wk) pending false)
            + 1 = remaining wk) as Hrem by (unfold remaining; simpl; lia).
    specialize (Hs Hrem).
    split; simpl.
    + lia.
    + intros t' wk' p Hl Hp.
      destruct (decide (t' = t)) as [-> | Hne].
      * rewrite list_lookup_insert_eq in Hl by by eapply lookup_lt_Some.
        injection Hl as <-. simpl in Hp. subst pending.
        destruct (_ || _); [|done]. injection Hp as <-. lia.
      * rewrite list_lookup_insert_ne in Hl by done. by eapply Hpend.
Qed.

Lemma spawn_remaining numThreads k :
  sum_list ((λ t, remaining (spawn audioData S C numThreads t)) <$> seq 0 k)
  ≤ Nat.min (k * pixelsPerThread audioData S C numThreads) numPixels.
Proof.
  induction k as [|k IH]; [simpl; lia|].
  rewrite seq_S, fmap_app, fmap_cons, fmap_nil, sum_list_snoc.
  set (total := sum_list _) in *. unfold remaining, spawn. simpl.
  set (ppt := pixelsPerThread audioData S C numThreads) in *.
  set (a := k * ppt) in *. lia.
Qed.

Lemma mt_run_guarded simd numThreads sched r w :
  extends (processor_event Q) w
    (m_world (mt_run audioData S C progressCallback cancellationFlag simd
                numThreads sched r w)).
Proof.
  unfold mt_run.
  set (m0 := Machine r _ 0 w).
  assert (counted numPixels m0) as H0.
  { split; simpl.
    - rewrite <-list_fmap_compose.
      pose proof (spawn_remaining numThreads numThreads). simpl in *.
      unfold compose. lia.
    - intros t wk p Hl Hp. rewrite list_lookup_fmap in Hl.
      destruct (seq 0 numThreads !! t); [|done]. injection Hl as <-. done. }
  change w with (m_world m0) at 1. clearbody m0.
  assert (∀ ts m, counted numPixels m →
    extends (processor_event Q) (m_world m)
      (m_world (foldl (λ m t,
         mt_step audioData S C progressCallback cancellationFlag simd t m)
         m ts))
    ∧ counted numPixels (foldl (λ m t,
         mt_step audioData S C progressCallback cancellationFlag simd t m)
         m ts)) as Hsched.
  { induction ts as [|t ts IH]; intros m Hm; simpl;
      [split; [apply extends_refl|done]|].
    destruct (mt_step_guarded simd t m Hm) as [He Hc].
    destruct (IH _ Hc) as [He' Hc']. split; [|done].
    by eapply extends_trans. }
  assert (∀ n t m, counted numPixels m →
    extends (processor_event Q) (m_world m)
      (m_world (Nat.iter n
         (mt_step audioData S C progressCallback cancellationFlag simd t) m))
    ∧ counted numPixels (Nat.iter n
         (mt_step audioData S C progressCallback cancellationFlag simd t) m))
    as Hiter.
  { induction n as [|n IH]; intros t m Hm; simpl;
      [split; [apply extends_refl|done]|].
    destruct (IH t m Hm) as [He Hc].
    destruct (mt_step_guarded simd t _ Hc) as [He' Hc']. split; [|done].
    by eapply extends_trans. }
  assert (∀ ts m, counted numPixels m →
    extends (processor_event Q) (m_world m)
      (m_world (foldl
         (join audioData S C progressCallback cancellationFlag simd
            numThreads) m ts))) as Hjoin.
  { induction ts as [|t ts IH]; intros m Hm; simpl; [apply extends_refl|].
    destruct (Hiter (2 * pixelsPerThread audioData S C numThreads + 1) t m Hm)
      as [He Hc].
    eapply extends_trans; [exact He|]. by apply IH. }
  destruct (Hsched sched m0 H0) as [He Hc].
  eapply extends_trans; [exact He|]. by apply Hjoin.
Qed.

(** the part after the guards: processor events, and a completed run
    ends with the report of all buckets *)
Lemma process_body_guarded hw simd sched w :
  0 < numPixels →
  let run := process_body audioData S C progressCallback cancellationFlag
               hw simd sched w in
  extends (processor_event Q) w run.2
  ∧ (run.1 ≠ [] →
     ∃ w1, extends (processor_event Q) w w1
           ∧ run.2 = reportProgress audioData S C progressCallback
                       numPixels w1).
Proof.
  intros HN. unfold process_body.
  destruct (Nat.min hw numPixels <=? 1).
  - pose proof (st_loop_guarded (seq 0 numPixels)
      (replicate C (replicate numPixels 0%Qc)) w) as H.
    destruct (st_loop _ _ _ _ _ _ _ w) as [[r'|] w']; simpl in *.
    + assert (extends (processor_event Q) w w') as Hw'.
      { apply H. apply Forall_seq. intros; lia. }
      split; [|by exists w'].
      eapply extends_trans; [done|].
      eapply extends_weaken; [|apply reportProgress_guarded; lia].
      by intros e [He _].
    + split; [|done]. apply H. apply Forall_seq. intros; lia.
  - set (m := mt_run _ _ _ _ _ _ _ _ _ _).
    pose proof (mt_run_guarded simd (Nat.min hw numPixels) sched
      (replicate C (replicate numPixels 0%Qc)) w) as Hm.
    fold m in Hm.
    pose proof (isCancelled_extends cancellationFlag Q AfterJoin
                  (m_world m) I) as Hc.
    destruct (isCancelled cancellationFlag AfterJoin (m_world m)) as [c w'].
    destruct c; simpl.
    + split; [|done]. eapply extends_trans; [done|].
      eexists [_]. split; [done|]. by apply Forall_singleton.
    + assert (extends (processor_event Q) w w') as Hw'.
      { eapply extends_trans; [done|].
        eapply extends_weaken; [|done]. by intros e [He _]. }
      split; [|by exists w'].
      eapply extends_trans; [done|].
      eapply extends_weaken; [|apply reportProgress_guarded; lia].
      by intros e [He _].
Qed.

End ReportFacts.

Lemma processWaveform_guarded Q pf pcm S C cb flag w :
  delivers_on fraction Q cb →
  let run := processWaveform pf pcm S C cb flag w in
  extends (processor_event Q) w run.2
  ∧ (run.1 ≠ [] →
     ∃ w1, extends (processor_event Q) w w1
           ∧ run.2 = reportProgress pcm (Z.to_nat S) (Z.to_nat C) cb
                       (length pcm / Z.to_nat S / Z.to_nat C) w1
           ∧ 0 < length pcm / Z.to_nat S / Z.to_nat C).
Proof.
  intros Hcb. unfold processWaveform.
  destruct (_ || _); [split; [apply extends_refl|done]|]. cbn zeta.
  destruct (_ =? 0) eqn:E; [split; [apply extends_refl|done]|].
  apply Nat.eqb_neq in E.
  destruct (process_body_guarded pcm (Z.to_nat S) (Z.to_nat C) cb flag Q Hcb
              (hardware_concurrency pf) (simd pf) (sched pf) w) as [H1 H2];
    [lia|].
  split; [done|]. intros Hne. destruct (H2 Hne) as (w1 & Hw1 & Hrun).
  exists w1. split; [done|]. split; [done|lia].
Qed.

Lemma record_delivers : delivers_on fraction fraction recording.
Proof.
  intros f [= <-] v w Hv. by apply extends_log.
Qed.

(** X7. [processWaveform] hands its progress callback values in
    (0, 1] only, whatever the flag, the platform and the interleaving
    of the workers; and when it returns an envelope that is not empty,
    the last value it hands over is exactly 1. *)
Theorem processWaveform_progress_fractions pf pcm S C flag w :
  let run := processWaveform pf pcm S C recording flag w in
  ∃ vs, delivered run.2 = delivered w ++ vs
    ∧ Forall (λ v, (0 < v)%Qc ∧ (v ≤ 1)%Qc) vs
    ∧ (run.1 ≠ [] → last vs = Some 1%Qc).
Proof.
  intros run.
  destruct (processWaveform_guarded fraction pf pcm S C recording flag w
              record_delivers) as [Hext Hlast].
  fold run in Hext, Hlast.
  destruct (delivered_extends fraction w run.2 Hext) as (vs & Hvs & Fvs).
  exists vs. split; [done|]. split; [done|].
  intros Hne. destruct (Hlast Hne) as (w1 & Hw1 & Hrun & HN).
  destruct (delivered_extends fraction w w1 Hw1) as (vs1 & Hvs1 & _).
  rewrite Hrun in Hvs. unfold reportProgress, recording in Hvs.
  rewrite ratio_full in Hvs by done.
  unfold delivered in Hvs at 1. simpl in Hvs. rewrite omap_app in Hvs.
  fold (delivered w1) in Hvs. rewrite Hvs1, <-app_assoc in Hvs.
  apply app_inv_head in Hvs. subst vs. simpl. apply last_snoc.
Qed.

(** ** The loads of the flag: concrete runs *)

Lemma processWaveform_well_polled_witness :
  well_polled w0 (processWaveform quad pcm_mono 2 1 None (Some clear) w0).2.
Proof.
  apply (processWaveform_well_polled (λ _, True)).
  intros f Hf. discriminate Hf.
Defined.

Lemma processWaveform_cancelled_sticky_empty_witness :
  (processWaveform quad pcm_mono 2 1 None (Some (λ _, true)) w0).1 = [].
Proof.
  apply (processWaveform_cancelled_sticky_empty (λ _, True) quad pcm_mono 2 1
           None (λ _, true) w0
           (processWaveform quad pcm_mono 2 1 None (Some (λ _, true)) w0).1
           (processWaveform quad pcm_mono 2 1 None (Some (λ _, true)) w0).2).
  - intros f Hf. discriminate Hf.
  - intros k k' _ _. reflexivity.
  - apply surjective_pairing.
  - exists (trace (processWaveform quad pcm_mono 2 1 None
                     (Some (λ _, true)) w0).2).
    split; [reflexivity|].
    apply Exists_exists. exists (EvPoll AfterJoin true).
    split; [|exact I].
    apply (bool_decide_unpack _). vm_compute. exact I.
Defined.

(** ** normalizeWaveform: the loudest sample *)

Section NormalizePeak.

Local Open Scope Qc_scope.

Variables scale threshold : Qc.

Lemma fabs_pos s : s ≠ 0 → 0 < fabs s.
Proof.
  intros Hs. destruct (Qclt_le_dec 0 (fabs s)) as [|Hle]; [done|].
  destruct Hs. apply Qcabs_null. apply Qcle_antisym; [done|apply fabs_nonneg].
Qed.

Lemma channel_max_pos channelData :
  (∃ s, s ∈ channelData ∧ threshold ≤ fabs s ∧ s ≠ 0) →
  0 < channel_max threshold channelData.
Proof.
  intros (s & Hs & Ht & Hne).
  destruct (channel_max_spec threshold channelData) as [Hb _].
  eapply Qclt_le_trans; [by apply fabs_pos|by apply Hb].
Qed.

Lemma ratio_le_1 s M : 0 < M → fabs s ≤ M → fabs (s / M) ≤ 1.
Proof.
  intros HM Hs. unfold Qcdiv, fabs. rewrite Qcabs_Qcmult.
  assert (0 < / M) as HiM by by apply Qcinv_pos.
  rewrite (Qcabs_pos (/ M)) by by apply Qclt_le_weak.
  rewrite <-(Qcmult_inv_r M).
  - apply Qcmult_le_compat_r; [done|by apply Qclt_le_weak].
  - intros ->. by apply Qclt_not_eq in HM.
Qed.

Lemma ratio_eq_1 s M : 0 < M → fabs s = M → fabs (s / M) = 1.
Proof.
  intros HM Hs. unfold Qcdiv, fabs. rewrite Qcabs_Qcmult.
  assert (0 < / M) as HiM by by apply Qcinv_pos.
  rewrite (Qcabs_pos (/ M)) by by apply Qclt_le_weak.
  unfold fabs in Hs. rewrite Hs. apply Qcmult_inv_r.
  intros ->. by apply Qclt_not_eq in HM.
Qed.

Lemma normalize_channel_peak channelData :
  (∃ s, s ∈ channelData ∧ threshold ≤ fabs s ∧ s ≠ 0) →
  (∃ x, x ∈ normalize_channel scale threshold channelData
        ∧ fabs x = fabs scale)
  ∧ (∀ x, x ∈ normalize_channel scale threshold channelData →
       fabs x ≤ fabs scale).
Proof.
  intros Hloud. pose proof (channel_max_pos channelData Hloud) as HM.
  rewrite normalize_channel_unfold.
  destruct (channel_max_spec threshold channelData) as [Hb Ha].
  set (M := channel_max threshold channelData) in *.
  rewrite (proj2 (ltb_lt 0 M) HM). split.
  - destruct Ha as [HM0 | (s0 & Hs0 & Ht0 & HMs)].
    { rewrite HM0 in HM. by apply Qclt_not_eq in HM. }
    exists (s0 / M * scale). split.
    + apply list_elem_of_fmap. exists s0. split; [|done].
      by rewrite (proj2 (ltb_ge (fabs s0) threshold) Ht0).
    + unfold fabs at 1. rewrite Qcabs_Qcmult.
      fold (fabs (s0 / M)). rewrite ratio_eq_1 by done.
      apply Qcmult_1_l.
  - intros x Hx. apply list_elem_of_fmap in Hx as (s & -> & Hs).
    destruct (ltb (fabs s) threshold) eqn:Et; [apply fabs_nonneg|].
    apply ltb_ge in Et. unfold fabs at 1. rewrite Qcabs_Qcmult.
    fold (fabs (s / M)). fold (fabs scale).
    rewrite <-(Qcmult_1_l (fabs scale)) at 2.
    apply Qcmult_le_compat_r; [|apply fabs_nonneg].
    apply ratio_le_1; [done|by apply Hb].
Qed.

End NormalizePeak.

(** X10. After [normalizeWaveform(env, scale, t)], for every scale
    (negative ones included): in a channel that has a non-zero sample
    with [|s| >= t], the largest magnitude is exactly [|scale|]; it is
    reached, and no value of the channel exceeds it. *)
Theorem normalizeWaveform_peak_is_scale (env : envelope) (scale t : Qc)
    c channel :
  env !! c = Some channel →
  (∃ s, s ∈ channel ∧ (t ≤ fabs s)%Qc ∧ s ≠ 0%Qc) →
  ∃ channel',
    normalizeWaveform env scale t !! c = Some channel'
    ∧ (∃ x, x ∈ channel' ∧ fabs x = fabs scale)
    ∧ (∀ x, x ∈ channel' → (fabs x ≤ fabs scale)%Qc).
Proof.
  intros Hc Hloud. exists (normalize_channel scale t channel). split.
  - assert (normalizeWaveform env scale t = normalize_channel scale t <$> env)
      as -> by by destruct env.
    by rewrite list_lookup_fmap, Hc.
  - by apply normalize_channel_peak.
Qed.

Lemma normalizeWaveform_peak_is_scale_witness :
  ∃ channel',
    normalizeWaveform [[dec 5 100; dec (-5) 10; dec 9 10]] 2%Qc (dec 1 10) !! 0
    = Some channel'
    ∧ (∃ x, x ∈ channel' ∧ fabs x = fabs 2%Qc).
Proof.
  destruct (normalizeWaveform_peak_is_scale
              [[dec 5 100; dec (-5) 10; dec 9 10]] 2%Qc (dec 1 10) 0
              [dec 5 100; dec (-5) 10; dec 9 10])
    as (channel' & H & Hpeak & _).
  - reflexivity.
  - exists (dec 9 10). split; [|split].
    + apply (bool_decide_unpack _). vm_compute. exact I.
    + vm_compute. discriminate.
    + vm_compute. discriminate.
  - exists channel'. split; [exact H|exact Hpeak].
Defined.

(** ** normalizeWaveform twice *)

Section NormalizeTwice.

Local Open Scope Qc_scope.

Variable threshold : Qc.
Hypothesis no_threshold : threshold ≤ 0.

Lemma above_threshold s : threshold ≤ fabs s.
Proof. eapply Qcle_trans; [done|apply fabs_nonneg]. Qed.

Lemma channel_max_zeros n : channel_max threshold (replicate n 0) = 0.
Proof.
  apply (threshold_max_unique threshold (replicate n 0));
    [apply channel_max_spec|].
  split; [|by left]. intros s Hs _. apply elem_of_replicate in Hs as [-> _].
  done.
Qed.

Lemma div_1 x : x / 1 * 1 = x.
Proof.
  unfold Qcdiv. assert (/ 1 = 1) as -> by by_evaluation.
  by rewrite !Qcmult_1_r.
Qed.

Lemma normalize_channel_idempotent channelData :
  normalize_channel 1 threshold (normalize_channel 1 threshold channelData)
  = normalize_channel 1 threshold channelData.
Proof.
  set (out := normalize_channel 1 threshold channelData).
  rewrite (normalize_channel_unfold 1 threshold out).
  destruct (ltb 0 (channel_max threshold channelData)) eqn:E.
  - apply ltb_lt in E.
    assert (∃ s, s ∈ channelData ∧ threshold ≤ fabs s ∧ s ≠ 0) as Hloud.
    { destruct (channel_max_spec threshold channelData)
        as [_ [HM0 | (s & Hs & Ht & HMs)]].
      - rewrite HM0 in E. by apply Qclt_not_eq in E.
      - exists s. split; [done|]. split; [done|]. intros ->.
        assert (fabs 0 = 0) as H0 by by_evaluation.
        rewrite HMs, H0 in E. by apply Qclt_not_eq in E. }
    destruct (normalize_channel_peak 1 threshold channelData Hloud)
      as [(x & Hx & Hx1) Hb].
    fold out in Hx, Hb.
    assert (fabs 1 = 1) as H1 by by_evaluation.
    rewrite H1 in Hx1. setoid_rewrite H1 in Hb.
    assert (channel_max threshold out = 1) as ->.
    { apply (threshold_max_unique threshold out); [apply channel_max_spec|].
      split.
      - intros s Hs _. by apply Hb.
      - right. exists x. split; [done|]. split; [apply above_threshold|].
        by rewrite Hx1. }
    assert (ltb 0 1 = true) as -> by done.
    rewrite <-(list_fmap_id out) at 2. apply list_fmap_ext.
    intros i s _. rewrite (proj2 (ltb_ge (fabs s) threshold))
      by apply above_threshold.
    apply div_1.
  - assert (out = replicate (length channelData) 0) as ->.
    { subst out. by rewrite normalize_channel_unfold, E. }
    by rewrite channel_max_zeros, length_replicate.
Qed.

End NormalizeTwice.

(** X11. With the scale [1.0] and a threshold that is not positive
    (the values [extract] passes: [1.0] and [0.0]), normalizing twice
    gives what normalizing once gives. *)
Theorem normalizeWaveform_idempotent (env : envelope) (t : Qc) :
  (t ≤ 0)%Qc →
  normalizeWaveform (normalizeWaveform env 1%Qc t) 1%Qc t
  = normalizeWaveform env 1%Qc t.
Proof.
  intros Ht.
  assert (∀ data, normalizeWaveform data 1%Qc t
                  = normalize_channel 1%Qc t <$> data) as Hmap
    by by intros [].
  rewrite !Hmap, <-list_fmap_compose. apply list_fmap_ext.
  intros i ch _. simpl. by apply normalize_channel_idempotent.
Qed.

Lemma normalizeWaveform_idempotent_witness :
  normalizeWaveform
    (normalizeWaveform [[dec 2 10; dec 7 10; 0%Qc]] 1%Qc 0%Qc) 1%Qc 0%Qc
  = normalizeWaveform [[dec 2 10; dec 7 10; 0%Qc]] 1%Qc 0%Qc.
Proof.
  apply normalizeWaveform_idempotent. vm_compute. discriminate.
Defined.

(** ** extract *)

Lemma clamp_id x : (0 ≤ x)%Qc → (x ≤ 1)%Qc → clamp x = x.
Proof.
  intros H0 H1. unfold clamp.
  rewrite (proj2 (ltb_ge x 0%Qc) H0). by rewrite (proj2 (ltb_ge 1%Qc x) H1).
Qed.

Lemma progressMapper_band :
  delivers_on fraction processing_band (Some progressMapper).
Proof.
  intros f [= <-] v w [Hv0 Hv1]. unfold progressMapper.
  rewrite updateProgress_clamp.
  assert (dec 5 10 < dec 5 10 + v * dec 3 10)%Qc as Hlo.
  { rewrite <-(Qcplus_0_r (dec 5 10)) at 1. apply Qcplus_lt_mono_l.
    by apply Qcmult_pos_pos. }
  assert (dec 5 10 + v * dec 3 10 ≤ dec 8 10)%Qc as Hhi.
  { assert (dec 8 10 = dec 5 10 + 1 * dec 3 10)%Qc as -> by by_evaluation.
    apply Qcplus_le_mono_l. by apply Qcmult_le_compat_r. }
  rewrite clamp_id.
  - eexists [_]. split; [done|]. by apply Forall_singleton.
  - eapply Qcle_trans; [|apply Qclt_le_weak, Hlo]. done.
  - eapply Qcle_trans; [exact Hhi|]. done.
Qed.

(** X22. [WaveformExtractorBase::processWaveform] returns what
    [WaveformProcessor::processWaveform] returns, and every progress
    value it delivers through [updateProgress] lies in (0.5, 0.8], in
    every run, cancelled or not. *)
Theorem extractor_processWaveform_band pf cancelled_ audioData S C w :
  let run := extractor_processWaveform pf cancelled_ audioData S C w in
  run.1 = (processWaveform pf audioData S C (Some progressMapper)
             (Some cancelled_) w).1
  ∧ ∃ vs, delivered run.2 = delivered w ++ vs
          ∧ Forall (λ v, (dec 5 10 < v)%Qc ∧ (v ≤ dec 8 10)%Qc) vs.
Proof.
  intros run. split; [done|]. subst run. unfold extractor_processWaveform.
  destruct (processWaveform_guarded processing_band pf audioData S C
              (Some progressMapper) (Some cancelled_) w progressMapper_band)
    as [Hext _].
  by apply delivered_extends in Hext.
Qed.

Lemma processWaveform_rejected pf pcm S C cb flag w :
  rejected pcm S C = true → processWaveform pf pcm S C cb flag w = ([], w).
Proof.
  unfold rejected, processWaveform. intros H.
  destruct (bool_decide (pcm = []) || (S <=? 0)%Z || (C <=? 0)%Z); [done|].
  simpl in H. cbn zeta. by rewrite H.
Qed.

(** the run of [extract] when no load finds the flag set *)
Lemma extract_uncancelled pf decode cancelled_ config pcm :
  decode config = Decoded pcm → (∀ k, cancelled_ k = false) →
  ∃ w4,
    let w3 := updateProgress (dec 5 10)
                (log (EvPoll AfterDecode false)
                   (log (EvPoll BeforeDecode false)
                      (updateProgress (dec 1 10) (World 0%Qc [])))) in
    (processWaveform pf pcm 100 2 (Some progressMapper) (Some cancelled_) w3).2
    = w4
    ∧ extract pf decode cancelled_ config
      = (Resolved (normalizeWaveform
           (if rejected pcm 100 2 then [] else peaks pcm 100 2) 1%Qc 0%Qc),
         updateProgress 1%Qc
           (log (EvPoll AfterNormalization false)
              (updateProgress (dec 8 10)
                 (log (EvPoll AfterProcessing false) w4)))).
Proof.
  intros Hdec Hclear.
  assert (never_set (Some cancelled_)) as Hnever.
  { intros load [= <-] k. apply Hclear. }
  eexists. split; [reflexivity|].
  unfold extract, isCancelled. rewrite Hdec, !Hclear. cbn zeta beta iota.
  unfold extractor_processWaveform.
  match goal with
  | |- context [processWaveform pf pcm 100 2 (Some progressMapper)
                  (Some cancelled_) ?w3] =>
      pose proof (processWaveform_env pf pcm 100 2 (Some progressMapper)
                    (Some cancelled_) w3 Hnever) as Henv;
      destruct (processWaveform pf pcm 100 2 (Some progressMapper)
                  (Some cancelled_) w3) as [waveform w4]
  end.
  cbn [fst snd] in *. rewrite !Hclear. by rewrite Henv.
Qed.

(** X14. An uncancelled run of [extract] whose decoder succeeds
    delivers, on every platform and for every interleaving of the
    workers: [0.1], [0.5], then the values of the processing phase, all
    in (0.5, 0.8], then [0.8] and [1.0]. *)
Theorem extract_progress_phases pf decode cancelled_ config pcm :
  decode config = Decoded pcm → (∀ k, cancelled_ k = false) →
  ∃ during,
    delivered (extract pf decode cancelled_ config).2
    = [dec 1 10; dec 5 10] ++ during ++ [dec 8 10; 1%Qc]
    ∧ Forall (λ v, (dec 5 10 < v)%Qc ∧ (v ≤ dec 8 10)%Qc) during.
Proof.
  intros Hdec Hclear.
  destruct (extract_uncancelled pf decode cancelled_ config pcm Hdec Hclear)
    as (w4 & Hw4 & ->).
  cbn zeta in Hw4. cbn [snd].
  match type of Hw4 with
  | (processWaveform _ _ _ _ _ _ ?w3).2 = _ =>
      destruct (processWaveform_guarded processing_band pf pcm 100 2
                  (Some progressMapper) (Some cancelled_) w3
                  progressMapper_band) as [Hext _]
  end.
  rewrite Hw4 in Hext.
  apply delivered_extends in Hext as (during & Hd & Fd).
  exists during. split; [|done].
  repeat (rewrite delivered_updateProgress || rewrite delivered_log by done).
  repeat (rewrite delivered_updateProgress in Hd
          || rewrite delivered_log in Hd by done).
  rewrite Hd.
  assert (clamp (dec 1 10) = dec 1 10) as -> by by_evaluation.
  assert (clamp (dec 5 10) = dec 5 10) as -> by by_evaluation.
  assert (clamp (dec 8 10) = dec 8 10) as -> by by_evaluation.
  assert (clamp 1%Qc = 1%Qc) as -> by by_evaluation.
  unfold delivered at 1. simpl. by rewrite <-!app_assoc.
Qed.

Lemma extract_progress_phases_witness :
  ∃ during,
    delivered (extract dual (λ _, Decoded (replicate 400 (dec 1 2))) clear "").2
    = [dec 1 10; dec 5 10] ++ during ++ [dec 8 10; 1%Qc].
Proof.
  destruct (extract_progress_phases dual (λ _, Decoded (replicate 400 (dec 1 2)))
              clear "" (replicate 400 (dec 1 2)) eq_refl (λ _, eq_refl))
    as (during & H & _).
  exists during. exact H.
Defined.

(** X15. An uncancelled run of [extract] whose decoder returns [n]
    samples resolves to the empty waveform when [n < 200], and
    otherwise to a waveform of 2 channels of [⌊n / 200⌋] values each
    (100 samples per bucket and 2 channels are the constants of the
    code). *)
Theorem extract_waveform_shape pf decode cancelled_ config pcm :
  decode config = Decoded pcm → (∀ k, cancelled_ k = false) →
  ∃ waveform,
    (extract pf decode cancelled_ config).1 = Resolved waveform
    ∧ (length pcm < 200 → waveform = [])
    ∧ (200 ≤ length pcm →
       length waveform = 2
       ∧ ∀ row, row ∈ waveform → length row = length pcm / 200).
Proof.
  intros Hdec Hclear.
  destruct (extract_uncancelled pf decode cancelled_ config pcm Hdec Hclear)
    as (w4 & _ & ->).
  eexists. split; [reflexivity|].
  assert (length pcm / 100 / 2 = length pcm / 200) as Hdiv
    by by rewrite Nat.Div0.div_div.
  assert (rejected pcm 100 2 = (length pcm / 200 =? 0)) as ->.
  { unfold rejected. change ((100 <=? 0)%Z) with false.
    change ((2 <=? 0)%Z) with false. rewrite !orb_false_r.
    change (Z.to_nat 100) with 100. change (Z.to_nat 2) with 2.
    rewrite Hdiv. destruct (length pcm / 200 =? 0) eqn:E;
      [apply orb_true_r|]. rewrite orb_false_r.
    apply bool_decide_eq_false_2. intros ->. by vm_compute in E. }
  split.
  - intros Hlen. by rewrite Nat.div_small.
  - intros Hlen.
    assert (length pcm / 200 ≠ 0) as HB.
    { pose proof (Nat.Div0.div_le_mono 200 (length pcm) 200 Hlen) as H.
      rewrite Nat.div_same in H by lia. lia. }
    rewrite (proj2 (Nat.eqb_neq _ _) HB).
    destruct (peaks_shaped pcm 100 2) as [Hrows Hcols].
    assert (normalizeWaveform (peaks pcm 100 2) 1%Qc 0%Qc
            = normalize_channel 1%Qc 0%Qc <$> peaks pcm 100 2) as ->.
    { by destruct (peaks pcm 100 2). }
    split; [by rewrite length_fmap|].
    intros row Hrow. apply list_elem_of_fmap in Hrow as (ch & -> & Hch).
    destruct (normalize_channel_spec 1%Qc 0%Qc ch) as [-> _].
    rewrite Forall_forall in Hcols. rewrite <-Hdiv. by apply Hcols.
Qed.

Lemma extract_waveform_shape_witness :
  ∃ waveform,
    (extract dual (λ _, Decoded (replicate 400 (dec 1 2))) clear "").1
    = Resolved waveform
    ∧ length waveform = 2.
Proof.
  destruct (extract_waveform_shape dual (λ _, Decoded (replicate 400 (dec 1 2)))
              clear "" (replicate 400 (dec 1 2)) eq_refl (λ _, eq_refl))
    as (waveform & H & _ & Hlen).
  exists waveform. split; [exact H|]. apply Hlen.
  rewrite length_replicate. lia.
Defined.

(** X30. Without cancellation, the outcome of [extract] does not depend
    on the platform: hosts with different numbers of CPUs, different
    SIMD units and different interleavings of the workers resolve to
    the same waveform (or are rejected alike when the decoder
    throws). *)
Theorem extract_platform_independent pf pf' decode cancelled_ config :
  (∀ k, cancelled_ k = false) →
  (extract pf decode cancelled_ config).1
  = (extract pf' decode cancelled_ config).1.
Proof.
  intros Hclear. destruct (decode config) as [pcm|] eqn:Hdec.
  - destruct (extract_uncancelled pf decode cancelled_ config pcm Hdec Hclear)
      as (w4 & _ & ->).
    by destruct (extract_uncancelled pf' decode cancelled_ config pcm Hdec
                   Hclear) as (w4' & _ & ->).
  - unfold extract, isCancelled. by rewrite Hdec, !Hclear.
Qed.

Lemma extract_platform_independent_witness :
  (extract dual (λ _, Decoded (replicate 400 (dec 1 2))) clear "").1
  = (extract single (λ _, Decoded (replicate 400 (dec 1 2))) clear "").1.
Proof.
  apply extract_platform_independent. intros k. reflexivity.
Defined.

(** *** The values of the waveform *)

Lemma normalize_channel_nonneg scale threshold channelData :
  (0 ≤ scale)%Qc → Forall (λ v, (0 ≤ v)%Qc) channelData →
  Forall (λ v, (0 ≤ v)%Qc) (normalize_channel scale threshold channelData).
Proof.
  intros Hscale Hch. rewrite normalize_channel_unfold.
  destruct (ltb 0%Qc (channel_max threshold channelData)) eqn:E.
  - apply ltb_lt in E. apply Forall_fmap.
    eapply Forall_impl; [exact Hch|]. intros s Hs. simpl.
    destruct (ltb (fabs s) threshold); [done|].
    rewrite <-(Qcmult_0_l scale). apply Qcmult_le_compat_r; [|done].
    unfold Qcdiv. rewrite <-(Qcmult_0_l (/ channel_max threshold channelData)).
    apply Qcmult_le_compat_r; [done|]. by apply Qclt_le_weak, Qcinv_pos.
  - by apply Forall_replicate.
Qed.

Lemma normalizeWaveform_unit data :
  cells (λ v, (0 ≤ v)%Qc) data →
  cells (λ v, (0 ≤ v)%Qc ∧ (v ≤ 1)%Qc) (normalizeWaveform data 1%Qc 0%Qc).
Proof.
  intros Hdata. unfold cells.
  assert (normalizeWaveform data 1%Qc 0%Qc
          = normalize_channel 1%Qc 0%Qc <$> data) as ->
    by by destruct data.
  apply Forall_fmap. eapply Forall_impl; [exact Hdata|].
  intros ch Hch. simpl.
  pose proof (normalize_channel_nonneg 1%Qc 0%Qc ch ltac:(done) Hch) as Hlo.
  destruct (normalize_channel_spec 1%Qc 0%Qc ch) as (_ & _ & Hhi).
  apply Forall_forall. intros v Hv. rewrite Forall_forall in Hlo.
  split; [by apply Hlo|]. by apply Hhi.
Qed.

(** X16. In every run of [extract], whatever the flag does, on every
    platform: every value of the waveform the future resolves to lies
    in [[0, 1]]. *)
Theorem extract_values_in_unit_interval pf decode cancelled_ config
    waveform row v :
  (extract pf decode cancelled_ config).1 = Resolved waveform →
  row ∈ waveform → v ∈ row → (0 ≤ v)%Qc ∧ (v ≤ 1)%Qc.
Proof.
  unfold extract, isCancelled.
  destruct (cancelled_ _); cbn zeta beta iota.
  { intros [= <-] Hrow. by apply not_elem_of_nil in Hrow. }
  destruct (decode config) as [audioData|[]]; cbn zeta beta iota;
    [|done|done].
  destruct (cancelled_ _); cbn zeta beta iota.
  { intros [= <-] Hrow. by apply not_elem_of_nil in Hrow. }
  unfold extractor_processWaveform.
  match goal with
  | |- context [processWaveform pf audioData 100 2 ?cb ?flag ?w3] =>
      pose proof (processWaveform_cells (λ v, (0 ≤ v)%Qc) pf audioData 100 2
                    cb flag w3 ltac:(done) (λ i, fabs_nonneg _)) as Hcells;
      destruct (processWaveform pf audioData 100 2 cb flag w3)
        as [processed w4]
  end.
  cbn [fst] in Hcells.
  destruct (cancelled_ _); cbn zeta beta iota.
  { intros [= <-] Hrow. by apply not_elem_of_nil in Hrow. }
  destruct (cancelled_ _); cbn zeta beta iota.
  { intros [= <-] Hrow. by apply not_elem_of_nil in Hrow. }
  intros [= <-] Hrow Hv.
  pose proof (normalizeWaveform_unit processed Hcells) as Hunit.
  unfold cells in Hunit. rewrite Forall_forall in Hunit.
  specialize (Hunit row Hrow). rewrite Forall_forall in Hunit.
  by apply Hunit.
Qed.

(** *** Short buffers and failures *)

(** X18. A decoded buffer of fewer than 200 samples (an empty one
    included) is no error: an uncancelled run resolves to the empty
    waveform, stores the progress [1.0] and delivers exactly [0.1],
    [0.5], [0.8], [1.0]. *)
Theorem extract_short_buffer pf decode cancelled_ config pcm :
  decode config = Decoded pcm → (∀ k, cancelled_ k = false) →
  length pcm < 200 →
  (extract pf decode cancelled_ config).1 = Resolved []
  ∧ progress_ (extract pf decode cancelled_ config).2 = 1%Qc
  ∧ delivered (extract pf decode cancelled_ config).2
    = [dec 1 10; dec 5 10; dec 8 10; 1%Qc].
Proof.
  intros Hdec Hclear Hlen.
  assert (rejected pcm 100 2 = true) as Hrej.
  { unfold rejected. change (Z.to_nat 100) with 100.
    change (Z.to_nat 2) with 2.
    rewrite Nat.Div0.div_div, Nat.div_small by lia. apply orb_true_r. }
  unfold extract, isCancelled. rewrite Hdec, !Hclear. cbn zeta beta iota.
  unfold extractor_processWaveform.
  rewrite processWaveform_rejected by done. rewrite !Hclear.
  cbn zeta beta iota. split; [done|]. split; [done|]. by_evaluation.
Qed.

(** X19. When the decoder throws and the first load finds the flag
    clear, the future is rejected and the callback is not told (the
    only value it received is [0.1]); the stored progress is reset to
    [0.0] when the exception is a [std::exception], and stays at [0.1]
    when it is not.  If the first load finds the flag set, the decoder
    is not called and the future resolves to the empty waveform. *)
Theorem extract_decoder_failure pf decode cancelled_ config e :
  decode config = DecodeThrows e →
  (cancelled_ 0 = false →
   (extract pf decode cancelled_ config).1 = Rejected
   ∧ progress_ (extract pf decode cancelled_ config).2
     = match e with
       | StdException => 0%Qc
       | OtherException => dec 1 10
       end
   ∧ delivered (extract pf decode cancelled_ config).2 = [dec 1 10])
  ∧ (cancelled_ 0 = true →
     (extract pf decode cancelled_ config).1 = Resolved []
     ∧ progress_ (extract pf decode cancelled_ config).2 = 0%Qc
     ∧ delivered (extract pf decode cancelled_ config).2
       = [dec 1 10; 0%Qc]).
Proof.
  intros Hdec. unfold extract, isCancelled.
  change (polls (updateProgress (dec 1 10) (World 0%Qc []))) with 0.
  split; intros ->; cbn zeta beta iota.
  - rewrite Hdec. destruct e; (split; [done|]); split; by_evaluation.
  - split; [done|]. split; [done|]. by_evaluation.
Qed.

(** *** The stored progress at the end of a run *)

(** X20. When the job of [extract] ends, the stored progress is [1.0]
    with the future resolved, or [0.0] with the future resolved to the
    empty waveform or rejected by a [std::exception] of the decoder,
    or [0.1] with the future rejected by an exception of the decoder
    that is no [std::exception]; and unless the future is rejected,
    the stored progress is the last value the callback received. *)
Theorem extract_final_progress pf decode cancelled_ config :
  let o := (extract pf decode cancelled_ config).1 in
  let w := (extract pf decode cancelled_ config).2 in
  ((progress_ w = 1%Qc ∧ ∃ waveform, o = Resolved waveform)
   ∨ (progress_ w = 0%Qc
      ∧ (o = Resolved []
         ∨ (o = Rejected ∧ decode config = DecodeThrows StdException)))
   ∨ (progress_ w = dec 1 10
      ∧ o = Rejected ∧ decode config = DecodeThrows OtherException))
  ∧ (o ≠ Rejected → last (delivered w) = Some (progress_ w)).
Proof.
  intros o w. subst o w. unfold extract, isCancelled.
  assert (∀ v w, last (delivered (updateProgress v w))
                 = Some (progress_ (updateProgress v w))) as Hlast.
  { intros v w. rewrite delivered_updateProgress. apply last_snoc. }
  destruct (cancelled_ _); cbn zeta beta iota.
  { split; [right; left; split; [done|by left]|]. intros _. apply Hlast. }
  destruct (decode config) as [audioData|[]]; cbn zeta beta iota.
  2:{ split; [right; left; split; [done|by right]|]. done. }
  2:{ split; [right; right; split; [by_evaluation|done]|]. done. }
  destruct (cancelled_ _); cbn zeta beta iota.
  { split; [right; left; split; [done|by left]|]. intros _. apply Hlast. }
  unfold extractor_processWaveform.
  destruct (processWaveform _ _ _ _ _ _ _) as [processed w4].
  destruct (cancelled_ _); cbn zeta beta iota.
  { split; [right; left; split; [done|by left]|]. intros _. apply Hlast. }
  destruct (cancelled_ _); cbn zeta beta iota.
  { split; [right; left; split; [done|by left]|]. intros _. apply Hlast. }
  split; [left; split; [done|by eexists]|]. intros _. apply Hlast.
Qed.

(** *** A flag that is not reset during the job *)

Section StickyLoop.

Variable audioData : list Qc.
Variables S C : nat.
Variable progressCallback : callback.
Variable load : nat → bool.
Variable Q : Qc → Prop.
Hypothesis quiet : delivers Q progressCallback.

Lemma st_loop_tracked pixels r w0 w :
  tracked load w0 w →
  tracked load w0
    (st_loop audioData S C progressCallback (Some load) pixels r w).2.
Proof.
  revert r w. induction pixels as [|pixel rest IH]; intros r w Hw;
    cbn [st_loop]; [done|].
  assert (tracked load w0
            (if pixel mod 100 =? 0
             then isCancelled (Some load) (InBucket pixel) w
             else (false, w)).2) as Hpoll.
  { destruct (pixel mod 100 =? 0); [by apply isCancelled_tracked|done]. }
  destruct (if pixel mod 100 =? 0 then _ else _) as [c w1].
  cbn [snd] in Hpoll. destruct c; [done|].
  apply IH.
  assert (tracked load w0 (log (EvBucket pixel) w1)) as Hb.
  { apply (tracked_quiet load w0 w1); [done|].
    apply extends_log. by intros H. }
  destruct (_ || _); [|done].
  eapply tracked_calm; [done|].
  by apply (reportProgress_calm audioData S C progressCallback Q).
Qed.

Lemma process_body_tracked hw simd sched w :
  tracked load w
    (process_body audioData S C progressCallback (Some load)
       hw simd sched w).2.
Proof.
  unfold process_body.
  destruct (Nat.min hw (length audioData / S / C) <=? 1).
  - pose proof (st_loop_tracked (seq 0 (length audioData / S / C))
      (replicate C (replicate (length audioData / S / C) 0%Qc)) w w
      (tracked_refl load w)) as H.
    destruct (st_loop _ _ _ _ _ _ _ w) as [[r'|] w']; cbn [snd] in *; [|done].
    eapply tracked_calm; [done|].
    by apply (reportProgress_calm audioData S C progressCallback Q).
  - set (m := mt_run _ _ _ _ _ _ _ _ _ _).
    pose proof (mt_run_tracked audioData S C progressCallback load Q quiet
      simd (Nat.min hw (length audioData / S / C)) sched
      (replicate C (replicate (length audioData / S / C) 0%Qc)) w) as Hm.
    fold m in Hm.
    pose proof (isCancelled_tracked load AfterJoin w (m_world m) Hm) as Hc.
    destruct (isCancelled (Some load) AfterJoin (m_world m)) as [c w'].
    cbn [snd] in Hc. destruct c; cbn [snd]; [done|].
    eapply tracked_calm; [done|].
    by apply (reportProgress_calm audioData S C progressCallback Q).
Qed.

End StickyLoop.

Lemma processWaveform_tracked Q pf pcm S C cb load w :
  delivers Q cb →
  tracked load w (processWaveform pf pcm S C cb (Some load) w).2.
Proof.
  intros Hcb. unfold processWaveform.
  destruct (_ || _); [apply tracked_refl|]. cbn zeta.
  destruct (_ =? 0); [apply tracked_refl|].
  by apply (process_body_tracked pcm (Z.to_nat S) (Z.to_nat C) cb load Q).
Qed.

(** X21. Under a flag that is not reset during the job (it stays set
    once it is set): if any load of the job finds the flag set, at a
    checkpoint of [extract] or inside the bucket loops of
    [processWaveform], the future resolves to the empty waveform and
    the stored progress ends at [0.0]. *)
Theorem extract_cancellation_sticky pf decode cancelled_ config :
  sticky cancelled_ →
  Exists saw_cancel (trace (extract pf decode cancelled_ config).2) →
  (extract pf decode cancelled_ config).1 = Resolved []
  ∧ progress_ (extract pf decode cancelled_ config).2 = 0%Qc.
Proof.
  intros Hsticky. unfold extract, isCancelled.
  set (w1 := updateProgress (dec 1 10) (World 0%Qc [])).
  destruct (cancelled_ (polls w1)) eqn:E1; cbn zeta beta iota; [done|].
  set (w2 := log (EvPoll BeforeDecode false) w1).
  destruct (decode config) as [audioData|[]]; cbn zeta beta iota.
  2,3: intros H; apply Exists_exists in H as (e & He & Hsaw); simpl in He;
    repeat (apply elem_of_cons in He as [-> | He]; [done|]);
    by apply not_elem_of_nil in He.
  destruct (cancelled_ (polls w2)) eqn:E2; cbn zeta beta iota; [done|].
  set (w3 := updateProgress (dec 5 10) (log (EvPoll AfterDecode false) w2)).
  unfold extractor_processWaveform.
  pose proof (processWaveform_tracked clamped pf audioData 100 2
                (Some progressMapper) cancelled_ w3 progressMapper_delivers)
    as (evs & Hevs & Hseen).
  destruct (processWaveform pf audioData 100 2 (Some progressMapper)
              (Some cancelled_) w3) as [processed w4].
  cbn [snd] in Hevs, Hseen.
  destruct (cancelled_ (polls w4)) eqn:E3; cbn zeta beta iota; [done|].
  assert (¬ Exists saw_cancel evs) as Hnone.
  { intros Hex. destruct (Hseen Hex) as (k & Hk & Hload).
    rewrite (Hsticky k (polls w4)) in E3; [done|lia|done]. }
  set (w5 := updateProgress (dec 8 10) (log (EvPoll AfterProcessing false) w4)).
  destruct (cancelled_ (polls w5)) eqn:E4; cbn zeta beta iota; [done|].
  intros H. exfalso. cbn [snd] in H.
  assert (trace (updateProgress 1%Qc (log (EvPoll AfterNormalization false) w5))
          = [EvProgress (dec 1 10); EvPoll BeforeDecode false;
             EvPoll AfterDecode false; EvProgress (dec 5 10)]
            ++ evs
            ++ [EvPoll AfterProcessing false; EvProgress (dec 8 10);
                EvPoll AfterNormalization false; EvProgress 1%Qc]) as Ht.
  { cbn. rewrite Hevs. cbn. rewrite <-!app_assoc. reflexivity. }
  rewrite Ht in H.
  apply Exists_app in H as [H | H].
  { apply Exists_exists in H as (e & He & Hsaw).
    repeat (apply elem_of_cons in He as [-> | He]; [done|]).
    by apply not_elem_of_nil in He. }
  apply Exists_app in H as [H | H]; [done|].
  apply Exists_exists in H as (e & He & Hsaw).
  repeat (apply elem_of_cons in He as [-> | He]; [done|]).
  by apply not_elem_of_nil in He.
Qed.

(** *** The loudest bucket of a channel *)

(** X17. In the waveform of an uncancelled run of [extract], every
    channel is silent (all zeros) or has a bucket whose value is
    exactly [1.0]. *)
Theorem extract_channel_peak_is_one pf decode cancelled_ config pcm
    waveform row :
  decode config = Decoded pcm → (∀ k, cancelled_ k = false) →
  (extract pf decode cancelled_ config).1 = Resolved waveform →
  row ∈ waveform →
  (∀ v, v ∈ row → v = 0%Qc) ∨ (∃ v, v ∈ row ∧ v = 1%Qc).
Proof.
  intros Hdec Hclear.
  destruct (extract_uncancelled pf decode cancelled_ config pcm Hdec Hclear)
    as (w4 & _ & ->).
  cbn [fst]. intros [= <-] Hrow.
  destruct (rejected pcm 100 2).
  { by apply not_elem_of_nil in Hrow. }
  assert (normalizeWaveform (peaks pcm 100 2) 1%Qc 0%Qc
          = normalize_channel 1%Qc 0%Qc <$> peaks pcm 100 2) as Hmap
    by by destruct (peaks pcm 100 2).
  rewrite Hmap in Hrow. apply list_elem_of_fmap in Hrow as (ch & -> & Hch).
  assert (Forall (λ v, (0 ≤ v)%Qc) ch) as Hpos.
  { unfold peaks in Hch. apply list_elem_of_fmap in Hch as (c & -> & _).
    apply Forall_fmap, Forall_forall. intros p _. simpl.
    apply (strided_max_cell pcm 100 2 (λ v, (0 ≤ v)%Qc));
      [done|intros i; apply fabs_nonneg]. }
  destruct (decide (Forall (λ s, s = 0%Qc) ch)) as [Hzero | Hloud].
  - left. intros v Hv.
    destruct (normalize_channel_spec 1%Qc 0%Qc ch) as (_ & Hcells & _).
    apply list_elem_of_lookup in Hv as (i & Hi).
    assert (is_Some (ch !! i)) as [s Hs].
    { apply lookup_lt_is_Some. apply lookup_lt_Some in Hi.
      by rewrite (proj1 (normalize_channel_spec 1%Qc 0%Qc ch)) in Hi. }
    destruct (Hcells i s Hs) as (_ & _ & HM0).
    rewrite HM0 in Hi; [congruence|].
    apply (threshold_max_unique 0%Qc ch); [apply channel_max_spec|].
    split; [|by left]. intros s' Hs' _.
    rewrite Forall_forall in Hzero. by rewrite (Hzero s' Hs').
  - right. apply not_Forall_Exists in Hloud; [|apply _].
    apply Exists_exists in Hloud as (s & Hs & Hne).
    destruct (normalize_channel_peak 1%Qc 0%Qc ch) as [(x & Hx & Hx1) _].
    { exists s. split; [done|]. split; [apply fabs_nonneg|done]. }
    exists x. split; [done|].
    pose proof (normalize_channel_nonneg 1%Qc 0%Qc ch ltac:(done) Hpos) as Hn.
    rewrite Forall_forall in Hn. specialize (Hn x Hx).
    unfold fabs in Hx1. rewrite (Qcabs_pos x) in Hx1 by done.
    rewrite Hx1. by_evaluation.
Qed.

(** *** Concrete runs *)

Lemma extract_progress_sorted_single_threaded_witness :
  nondecreasing
    (delivered
       (extract single (λ _, Decoded (replicate 400 (dec 1 2))) clear "").2).
Proof.
  apply (extract_progress_sorted_single_threaded single
           (λ _, Decoded (replicate 400 (dec 1 2))) clear ""
           (replicate 400 (dec 1 2))).
  - simpl. lia.
  - intros k. reflexivity.
  - reflexivity.
Defined.

Lemma extract_values_in_unit_interval_witness :
  (extract dual (λ _, Decoded (replicate 400 (dec 1 2))) clear "").1
  = Resolved [[1%Qc; 1%Qc]; [1%Qc; 1%Qc]]
  ∧ (0 ≤ 1)%Qc ∧ (1 ≤ 1)%Qc.
Proof.
  assert ((extract dual (λ _, Decoded (replicate 400 (dec 1 2))) clear "").1
          = Resolved [[1%Qc; 1%Qc]; [1%Qc; 1%Qc]]) as H by by_evaluation.
  split; [exact H|].
  apply (extract_values_in_unit_interval dual
           (λ _, Decoded (replicate 400 (dec 1 2))) clear ""
           [[1%Qc; 1%Qc]; [1%Qc; 1%Qc]] [1%Qc; 1%Qc] 1%Qc H).
  - apply (bool_decide_unpack _). vm_compute. exact I.
  - apply (bool_decide_unpack _). vm_compute. exact I.
Defined.

Lemma extract_channel_peak_is_one_witness :
  (∀ v, v ∈ [1%Qc; 1%Qc] → v = 0%Qc) ∨ (∃ v, v ∈ [1%Qc; 1%Qc] ∧ v = 1%Qc).
Proof.
  apply (extract_channel_peak_is_one dual
           (λ _, Decoded (replicate 400 (dec 1 2))) clear ""
           (replicate 400 (dec 1 2)) [[1%Qc; 1%Qc]; [1%Qc; 1%Qc]]).
  - reflexivity.
  - intros k. reflexivity.
  - apply (bool_decide_unpack _). vm_compute. exact I.
  - apply (bool_decide_unpack _). vm_compute. exact I.
Defined.

Lemma extract_short_buffer_witness :
  (extract quad (λ _, Decoded pcm_mono) clear "").1 = Resolved []
  ∧ delivered (extract quad (λ _, Decoded pcm_mono) clear "").2
    = [dec 1 10; dec 5 10; dec 8 10; 1%Qc].
Proof.
  destruct (extract_short_buffer quad (λ _, Decoded pcm_mono) clear "" pcm_mono)
    as (Ho & _ & Hd).
  - reflexivity.
  - intros k. reflexivity.
  - simpl. lia.
  - split; [exact Ho|exact Hd].
Defined.

Lemma extract_decoder_failure_witness :
  (extract quad (λ _, DecodeThrows OtherException) clear "").1 = Rejected
  ∧ progress_ (extract quad (λ _, DecodeThrows OtherException) clear "").2
    = dec 1 10
  ∧ delivered (extract quad (λ _, DecodeThrows OtherException) clear "").2
    = [dec 1 10].
Proof.
  destruct (extract_decoder_failure quad (λ _, DecodeThrows OtherException)
              clear "" OtherException eq_refl) as [H _].
  exact (H eq_refl).
Defined.

Lemma extract_final_progress_witness :
  progress_ (extract quad (λ _, DecodeThrows OtherException) clear "").2
  = dec 1 10
  ∧ last (delivered (extract single (λ _, Decoded pcm_mono) clear "").2)
    = Some (progress_ (extract single (λ _, Decoded pcm_mono) clear "").2).
Proof.
  split.
  - pose proof (extract_final_progress quad
                  (λ _, DecodeThrows OtherException) clear "") as H.
    cbv zeta in H.
    destruct H as [[(_ & wf & H) | [(_ & [H | [_ H]]) | (H & _)]] _];
      [vm_compute in H; discriminate H..|exact H].
  - pose proof (extract_final_progress single
                  (λ _, Decoded pcm_mono) clear "") as H.
    cbv zeta in H. apply (proj2 H). vm_compute. discriminate.
Defined.

Lemma extract_cancellation_sticky_witness :
  (extract dual (λ _, Decoded (replicate 400 (dec 1 2))) (λ k, 2 <=? k) "").1
  = Resolved [].
Proof.
  apply (extract_cancellation_sticky dual
           (λ _, Decoded (replicate 400 (dec 1 2))) (λ k, 2 <=? k) "").
  - intros k k' Hk Hset. apply Nat.leb_le. apply Nat.leb_le in Hset. lia.
  - apply Exists_exists. exists (EvPoll (InBucket 0) true).
    split; [|exact I].
    apply (bool_decide_unpack _). vm_compute. exact I.
Defined.

(** ** The registry: creation, removal, destruction *)

Section RegistryFacts.

Variable createPlatformPlayer : string → option player.
Variable createPlatformExtractor : string → option extractor.

Local Abbreviation run :=
  (run_operations createPlatformPlayer createPlatformExtractor).
Local Abbreviation apply_op :=
  (apply_operation createPlatformPlayer createPlatformExtractor).

(** X23. [createPlayer(key)] returns a player exactly when [key] is not
    registered, fewer than 30 players are registered and the platform
    returns a player; it fails with the creation error exactly when the
    first two hold and the platform returns null.  On success the
    returned player is registered under [key], the count grows by one,
    the other players and the extractors are untouched. *)
Theorem createPlayer_success key f :
  (∀ p, (createPlayer createPlatformPlayer key f).1 = Ok p
        ↔ players_ f !! key = None ∧ size (players_ f) < MAX_PLAYERS
          ∧ createPlatformPlayer key = Some p)
  ∧ ((createPlayer createPlatformPlayer key f).1 = Throw CreationFailed
     ↔ players_ f !! key = None ∧ size (players_ f) < MAX_PLAYERS
       ∧ createPlatformPlayer key = None)
  ∧ (∀ p, (createPlayer createPlatformPlayer key f).1 = Ok p →
       let f' := (createPlayer createPlatformPlayer key f).2 in
       players_ f' !! key = Some p
       ∧ hasPlayer key f' = true
       ∧ getPlayerCount f' = getPlayerCount f + 1
       ∧ (∀ k, k ≠ key → players_ f' !! k = players_ f !! k)
       ∧ extractors_ f' = extractors_ f).
Proof.
  unfold createPlayer. case_bool_decide as Hdup.
  { destruct Hdup as [q Hq]. split; [|split].
    - intros p. split; [done|]. intros (Hnone & _). congruence.
    - split; [done|]. intros (Hnone & _). congruence.
    - done. }
  assert (players_ f !! key = None) as Hnone.
  { destruct (players_ f !! key) eqn:E; [|done]. destruct Hdup. by eexists. }
  destruct (MAX_PLAYERS <=? size (players_ f)) eqn:Hfull.
  { apply Nat.leb_le in Hfull. split; [|split].
    - intros p. split; [done|]. intros (_ & Hlt & _). lia.
    - split; [done|]. intros (_ & Hlt & _). lia.
    - done. }
  apply Nat.leb_gt in Hfull.
  destruct (createPlatformPlayer key) as [q|] eqn:Hq; simpl.
  - split; [|split].
    + intros p. split; [by intros [= ->]|]. by intros (_ & _ & [= ->]).
    + split; [done|]. by intros (_ & _ & ?).
    + intros p [= ->]. split; [by rewrite lookup_insert_eq|].
      split.
      { unfold hasPlayer. simpl. apply bool_decide_eq_true_2.
        rewrite lookup_insert_eq. by eexists. }
      split.
      { unfold getPlayerCount. simpl. rewrite map_size_insert_None by done.
        lia. }
      split; [|done]. intros k Hk. by rewrite lookup_insert_ne.
  - split; [|split].
    + intros p. split; [done|]. by intros (_ & _ & ?).
    + done.
    + done.
Qed.

(** X24. [createExtractor(key)] fails with the duplicate-key error when
    [key] is registered, and otherwise succeeds exactly when the
    platform returns an extractor: there is no limit on the number of
    extractors.  A failure leaves the registry as it was; on success
    the extractor is registered under [key], the count grows by one,
    the other extractors and the players are untouched. *)
Theorem createExtractor_spec key f :
  (is_Some (extractors_ f !! key) →
   createExtractor createPlatformExtractor key f = (Throw AlreadyExists, f))
  ∧ (∀ e, (createExtractor createPlatformExtractor key f).1 = Ok e
          ↔ extractors_ f !! key = None
            ∧ createPlatformExtractor key = Some e)
  ∧ (createExtractor createPlatformExtractor key f).1 ≠ Throw LimitReached
  ∧ (∀ err, (createExtractor createPlatformExtractor key f).1 = Throw err →
       (createExtractor createPlatformExtractor key f).2 = f)
  ∧ (∀ e, (createExtractor createPlatformExtractor key f).1 = Ok e →
       let f' := (createExtractor createPlatformExtractor key f).2 in
       extractors_ f' !! key = Some e
       ∧ getExtractorCount f' = getExtractorCount f + 1
       ∧ (∀ k, k ≠ key → extractors_ f' !! k = extractors_ f !! k)
       ∧ players_ f' = players_ f).
Proof.
  unfold createExtractor. case_bool_decide as Hdup.
  { destruct (Hdup) as [q Hq]. split; [done|]. split; [|done].
    intros e. split; [done|]. intros (Hnone & _). congruence. }
  assert (extractors_ f !! key = None) as Hnone.
  { destruct (extractors_ f !! key) eqn:E; [|done]. destruct Hdup.
    by eexists. }
  split; [intros [q Hq]; congruence|].
  destruct (createPlatformExtractor key) as [q|] eqn:Hq; simpl.
  - split; [|split; [done|split; [done|]]].
    + intros e. split; [by intros [= ->]|]. by intros (_ & [= ->]).
    + intros e [= ->]. split; [by rewrite lookup_insert_eq|].
      split.
      { unfold getExtractorCount. simpl.
        rewrite map_size_insert_None by done. lia. }
      split; [|done]. intros k Hk. by rewrite lookup_insert_ne.
  - split; [|done]. intros e. split; [done|]. by intros (_ & ?).
Qed.

(** X25. [removePlayer(key)] returns whether [key] was registered;
    afterwards [key] is not registered, the other players and the
    extractors are untouched, the count has dropped by one exactly when
    the result is true, and a second removal returns false and changes
    nothing.  [removeExtractor(key)] does the same on the extractor
    map. *)
Theorem remove_spec key f :
  (let f' := (removePlayer key f).2 in
   (removePlayer key f).1 = hasPlayer key f
   ∧ hasPlayer key f' = false
   ∧ (∀ k, k ≠ key → players_ f' !! k = players_ f !! k)
   ∧ getPlayerCount f' + (if hasPlayer key f then 1 else 0)
     = getPlayerCount f
   ∧ extractors_ f' = extractors_ f
   ∧ removePlayer key f' = (false, f'))
  ∧ (let f' := (removeExtractor key f).2 in
     (removeExtractor key f).1 = hasExtractor key f
     ∧ hasExtractor key f' = false
     ∧ (∀ k, k ≠ key → extractors_ f' !! k = extractors_ f !! k)
     ∧ getExtractorCount f' + (if hasExtractor key f then 1 else 0)
       = getExtractorCount f
     ∧ players_ f' = players_ f
     ∧ removeExtractor key f' = (false, f')).
Proof.
  split.
  - unfold removePlayer, hasPlayer, getPlayerCount.
    destruct (players_ f !! key) as [p|] eqn:E; simpl.
    + split; [done|]. split.
      { apply bool_decide_eq_false_2. rewrite lookup_delete_eq.
        by intros [? ?]. }
      split; [intros k Hk; by rewrite lookup_delete_ne|].
      split.
      { rewrite map_size_delete_Some by by eexists.
        assert (size (players_ f) ≠ 0) as Hne.
        { apply (map_size_ne_0_lookup_2 _ key). by eexists. }
        lia. }
      split; [done|]. by rewrite lookup_delete_eq.
    + split; [done|]. split.
      { apply bool_decide_eq_false_2. rewrite E. by intros [? ?]. }
      split; [done|]. split; [lia|]. split; [done|]. by rewrite E.
  - unfold removeExtractor, hasExtractor, getExtractorCount.
    destruct (extractors_ f !! key) as [e|] eqn:E; simpl.
    + split; [done|]. split.
      { apply bool_decide_eq_false_2. rewrite lookup_delete_eq.
        by intros [? ?]. }
      split; [intros k Hk; by rewrite lookup_delete_ne|].
      split.
      { rewrite map_size_delete_Some by by eexists.
        assert (size (extractors_ f) ≠ 0) as Hne.
        { apply (map_size_ne_0_lookup_2 _ key). by eexists. }
        lia. }
      split; [done|]. by rewrite lookup_delete_eq.
    + split; [done|]. split.
      { apply bool_decide_eq_false_2. rewrite E. by intros [? ?]. }
      split; [done|]. split; [lia|]. split; [done|]. by rewrite E.
Qed.

(** X26. A successful [createPlayer(key)] followed by
    [removePlayer(key)] returns true and restores the registry; the
    same holds for [createExtractor] and [removeExtractor]. *)
Theorem create_remove_round_trip key f :
  (∀ p, (createPlayer createPlatformPlayer key f).1 = Ok p →
        removePlayer key (createPlayer createPlatformPlayer key f).2
        = (true, f))
  ∧ (∀ e, (createExtractor createPlatformExtractor key f).1 = Ok e →
          removeExtractor key
            (createExtractor createPlatformExtractor key f).2
          = (true, f)).
Proof.
  split.
  - intros p. unfold createPlayer. case_bool_decide as Hdup; [done|].
    destruct (MAX_PLAYERS <=? size (players_ f)); [done|].
    destruct (createPlatformPlayer key) as [q|]; [|done]. intros _.
    unfold removePlayer. simpl. rewrite lookup_insert_eq. f_equal.
    rewrite delete_insert_id.
    + by destruct f.
    + destruct (players_ f !! key) eqn:E; [|done]. destruct Hdup.
      by eexists.
  - intros e. unfold createExtractor. case_bool_decide as Hdup; [done|].
    destruct (createPlatformExtractor key) as [q|]; [|done]. intros _.
    unfold removeExtractor. simpl. rewrite lookup_insert_eq. f_equal.
    rewrite delete_insert_id.
    + by destruct f.
    + destruct (extractors_ f !! key) eqn:E; [|done]. destruct Hdup.
      by eexists.
Qed.

(** *** The two maps do not interfere *)

Lemma apply_operation_players f f' op :
  players_ f = players_ f' →
  players_ (apply_op f op) =
  (if on_players op then players_ (apply_op f' op) else players_ f').
Proof.
  intros H. destruct op as [key|key|key|key| |]; simpl.
  - unfold createPlayer. rewrite H. case_bool_decide; [done|].
    destruct (MAX_PLAYERS <=? size (players_ f')); [done|].
    by destruct (createPlatformPlayer key).
  - unfold createExtractor. case_bool_decide; [done|].
    by destruct (createPlatformExtractor key).
  - unfold removePlayer. rewrite H.
    by destruct (players_ f' !! key).
  - unfold removeExtractor. by destruct (extractors_ f !! key).
  - unfold stopAllPlayers. rewrite H.
    by destruct (foldl stop_one _ (map_to_list (players_ f')))
      as [[allStopped|] stopped].
  - done.
Qed.

Lemma apply_operation_extractors f f' op :
  extractors_ f = extractors_ f' →
  extractors_ (apply_op f op) =
  (if on_players op then extractors_ f' else extractors_ (apply_op f' op)).
Proof.
  intros H. destruct op as [key|key|key|key| |]; simpl.
  - unfold createPlayer. case_bool_decide; [done|].
    destruct (MAX_PLAYERS <=? size (players_ f)); [done|].
    by destruct (createPlatformPlayer key).
  - unfold createExtractor. rewrite H. case_bool_decide; [done|].
    by destruct (createPlatformExtractor key).
  - unfold removePlayer. by destruct (players_ f !! key).
  - unfold removeExtractor. rewrite H.
    by destruct (extractors_ f' !! key).
  - unfold stopAllPlayers.
    by destruct (foldl stop_one _ (map_to_list (players_ f)))
      as [[allStopped|] stopped].
  - done.
Qed.

Lemma foldl_players ops f f' :
  players_ f = players_ f' →
  players_ (foldl apply_op f ops)
  = players_ (foldl apply_op f' (filter (λ op, on_players op) ops)).
Proof.
  revert f f'. induction ops as [|op ops IH]; intros f f' H; [done|].
  pose proof (apply_operation_players f f' op H) as Hop.
  destruct (on_players op) eqn:E.
  - rewrite filter_cons_True by (rewrite E; simpl; tauto). simpl. by apply IH.
  - rewrite filter_cons_False by (rewrite E; simpl; tauto). simpl. by apply IH.
Qed.

Lemma foldl_extractors ops f f' :
  extractors_ f = extractors_ f' →
  extractors_ (foldl apply_op f ops)
  = extractors_ (foldl apply_op f'
                   (filter (λ op, negb (on_players op)) ops)).
Proof.
  revert f f'. induction ops as [|op ops IH]; intros f f' H; [done|].
  pose proof (apply_operation_extractors f f' op H) as Hop.
  destruct (on_players op) eqn:E.
  - rewrite filter_cons_False by (rewrite E; simpl; tauto). simpl. by apply IH.
  - rewrite filter_cons_True by (rewrite E; simpl; tauto). simpl. by apply IH.
Qed.

(** X27. The player map and the extractor map do not interfere: after
    any sequence of registry operations, the player map is the one the
    player operations alone produce, and the extractor map is the one
    the extractor operations alone produce. *)
Theorem registries_independent ops :
  players_ (run ops) = players_ (run (filter (λ op, on_players op) ops))
  ∧ extractors_ (run ops)
    = extractors_ (run (filter (λ op, negb (on_players op)) ops)).
Proof.
  split; [by apply foldl_players|by apply foldl_extractors].
Qed.

(** *** Room after a removal *)

(** X28. The limit of 30 concerns the players registered at the same
    time: when the registry is full, [createPlayer] of a new key fails,
    and it succeeds after [removePlayer] of any registered key, and
    after a [stopAllPlayers] whose future resolves.  After a
    [stopAllPlayers] whose future is rejected the registry is still
    full and [createPlayer] still fails. *)
Theorem removePlayer_makes_room key key' f p :
  size (players_ f) = MAX_PLAYERS →
  is_Some (players_ f !! key') → players_ f !! key = None →
  createPlatformPlayer key = Some p →
  (createPlayer createPlatformPlayer key f).1 = Throw LimitReached
  ∧ (createPlayer createPlatformPlayer key (removePlayer key' f).2).1 = Ok p
  ∧ (createPlayer createPlatformPlayer key (stopAllPlayers f).2).1
    = match (stopAllPlayers f).1.1 with
      | Some _ => Ok p
      | None => Throw LimitReached
      end.
Proof.
  intros Hfull [q Hq] Hnone Hp. split; [|split].
  - rewrite createPlayer_full; [done|done|lia].
  - unfold removePlayer. rewrite Hq. simpl. unfold createPlayer. simpl.
    assert (key ≠ key') as Hne by (intros ->; congruence).
    rewrite bool_decide_eq_false_2.
    2:{ rewrite lookup_delete_ne by done. rewrite Hnone. by intros [? ?]. }
    rewrite map_size_delete_Some by by eexists. rewrite Hfull.
    by rewrite Hp.
  - unfold stopAllPlayers.
    destruct (foldl stop_one _ _) as [[allStopped|] stopped]; simpl.
    + unfold createPlayer. simpl. rewrite lookup_empty.
      rewrite bool_decide_eq_false_2 by by intros [? ?].
      rewrite map_size_empty. by rewrite Hp.
    + rewrite createPlayer_full; [done|done|lia].
Qed.

End RegistryFacts.

Lemma removePlayer_makes_room_witness :
  (createPlayer (λ _, Some idle_player) "q"
     (removePlayer "p7" full_registry).2).1 = Ok idle_player
  ∧ (createPlayer (λ _, Some idle_player) "q"
       (stopAllPlayers full_registry).2).1 = Ok idle_player
  ∧ (createPlayer (λ _, Some idle_player) "q"
       (stopAllPlayers full_throwing_registry).2).1 = Throw LimitReached.
Proof.
  assert (size (players_ full_registry) = MAX_PLAYERS) as Hfull
    by (vm_compute; reflexivity).
  assert (is_Some (players_ full_registry !! "p7")) as Hin.
  { exists idle_player. vm_compute. reflexivity. }
  assert (players_ full_registry !! "q" = None) as Hout
    by (vm_compute; reflexivity).
  assert (size (players_ full_throwing_registry) = MAX_PLAYERS) as Hfull'
    by (vm_compute; reflexivity).
  assert (is_Some (players_ full_throwing_registry !! "p7")) as Hin'.
  { exists idle_player. vm_compute. reflexivity. }
  assert (players_ full_throwing_registry !! "q" = None) as Hout'
    by (vm_compute; reflexivity).
  destruct (removePlayer_makes_room (λ _, Some idle_player)
              "q" "p7" full_registry idle_player
              Hfull Hin Hout eq_refl) as (_ & Hremoved & Hstopped).
  destruct (removePlayer_makes_room (λ _, Some idle_player)
              "q" "p7" full_throwing_registry idle_player
              Hfull' Hin' Hout' eq_refl) as (_ & _ & Hrejected).
  assert ((stopAllPlayers full_registry).1.1 = Some true) as Hall
    by (vm_compute; reflexivity).
  assert ((stopAllPlayers full_throwing_registry).1.1 = None) as Hnone
    by (vm_compute; reflexivity).
  rewrite Hall in Hstopped. rewrite Hnone in Hrejected.
  split; [exact Hremoved|]. split; [exact Hstopped|exact Hrejected].
Defined.

(** *** The destructor *)

Lemma foldl_cleanup_stop_one l stopped :
  foldl cleanup_stop_one stopped l = stopped ++ playing_keys l.
Proof.
  revert stopped. unfold playing_keys.
  induction l as [|[key p] l IH]; intros stopped; simpl.
  - by rewrite app_nil_r.
  - rewrite IH. destruct (isPlaying p) as [[]|]; try done.
    by rewrite <-app_assoc.
Qed.

(** X29. The destructor ([cleanupAllInstances]) calls [stop()] on
    exactly the registered players that report playing, once each,
    and [cancel()] on the extractors, whatever the calls throw, and
    leaves no player, no extractor and no reference to a recorder.
    When the future of [stopAllPlayers()] resolves, the two make the
    same [stop()] calls and leave the same maps (after
    [stopAllExtractors()]). *)
Theorem cleanupAllInstances_spec {recorder : Type}
    (f : factory_impl recorder) :
  let stopped := (cleanupAllInstances f).1.1 in
  let cancelled := (cleanupAllInstances f).1.2 in
  let f' := (cleanupAllInstances f).2 in
  (∀ key, key ∈ stopped
          ↔ ∃ p, players_ (maps f) !! key = Some p
                 ∧ isPlaying p = Playing true)
  ∧ NoDup stopped
  ∧ cancelled = (stopAllExtractors (maps f)).1.2
  ∧ getPlayerCount (maps f') = 0
  ∧ getExtractorCount (maps f') = 0
  ∧ recorderInstance_ f' = None
  ∧ ((stopAllPlayers (maps f)).1.1 ≠ None →
     stopped = (stopAllPlayers (maps f)).1.2
     ∧ maps f' = (stopAllExtractors (stopAllPlayers (maps f)).2).2).
Proof.
  unfold cleanupAllInstances, stopAllExtractors.
  rewrite foldl_cleanup_stop_one. cbn [fst snd maps recorderInstance_].
  split; [apply playing_keys_spec|].
  split; [apply playing_keys_NoDup|].
  split; [done|].
  unfold getPlayerCount, getExtractorCount. cbn [players_ extractors_].
  rewrite !map_size_empty. split; [done|]. split; [done|]. split; [done|].
  unfold stopAllPlayers.
  pose proof (foldl_stop_one_calls (map_to_list (players_ (maps f)))
                true []) as Hcalls.
  destruct (foldl stop_one _ _) as [[allStopped|] stopped]; [|done].
  intros _. cbn [fst snd] in *. by rewrite (Hcalls allStopped).
Qed.

Lemma cleanupAllInstances_spec_witness :
  (cleanupAllInstances (FactoryImpl three_players (None : option unit))).1.1
  = (stopAllPlayers three_players).1.2
  ∧ getPlayerCount
      (maps (cleanupAllInstances
               (FactoryImpl throwing_registry (None : option unit))).2) = 0.
Proof.
  destruct (cleanupAllInstances_spec
              (FactoryImpl three_players (None : option unit)))
    as (_ & _ & _ & _ & _ & _ & Hsame).
  destruct (cleanupAllInstances_spec
              (FactoryImpl throwing_registry (None : option unit)))
    as (_ & _ & _ & Hcount & _).
  split; [|exact Hcount].
  apply Hsame. vm_compute. discriminate.
Defined.

(** the registry whose [stop()] throws past the handler of
    [stopAllPlayers()] is cleared by the destructor *)
Example destructor_clears :
  (cleanupAllInstances (FactoryImpl throwing_registry (None : option unit))).1.1
  = ["a"]
  ∧ getPlayerCount
      (maps (cleanupAllInstances
               (FactoryImpl throwing_registry (None : option unit))).2) = 0.
Proof. split; vm_compute; reflexivity. Qed.

(** ** Floats that may be NaN *)

(** *** The model of ordered floats is the restriction to numbers *)

Section Numbers.

Lemma fabs_number q : Ieee.fabs (Ieee.Num q) = Ieee.Num (fabs q).
Proof. reflexivity. Qed.

Lemma fmax_number a b :
  Ieee.fmax (Ieee.Num a) (Ieee.Num b) = Ieee.Num (fmax a b).
Proof. unfold Ieee.fmax, fmax. simpl. by destruct (ltb a b). Qed.

Lemma mm_max_number a b :
  Ieee.mm_max (Ieee.Num a) (Ieee.Num b) = Ieee.Num (mm_max a b).
Proof. unfold Ieee.mm_max, mm_max. simpl. by destruct (ltb b a). Qed.

Lemma vmax_number a b :
  Ieee.vmax (Ieee.Num a) (Ieee.Num b) = Ieee.Num (vmax a b).
Proof. reflexivity. Qed.

Lemma at_index_numbers pcm i :
  Ieee.at_index (numbers pcm) i = Ieee.Num (at_index pcm i).
Proof.
  unfold Ieee.at_index, at_index, numbers. rewrite list_lookup_fmap.
  by destruct (pcm !! i).
Qed.

Lemma numbers_length pcm : length (numbers pcm) = length pcm.
Proof. apply length_fmap. Qed.

(** two runs of a loop whose bodies keep a relation between the
    accumulators *)
Lemma for_loop_related {A B : Type} (R : A → B → Prop) fuel cond step
    (f : nat → A → A) (g : nat → B → B) i a b :
  (∀ i a b, R a b → R (f i a) (g i b)) → R a b →
  (for_loop fuel cond step f i a).1 = (for_loop fuel cond step g i b).1
  ∧ R (for_loop fuel cond step f i a).2 (for_loop fuel cond step g i b).2.
Proof.
  intros Hstep. revert i a b.
  induction fuel as [|fuel IH]; intros i a b Hab; simpl; [done|].
  destruct (cond i); [|done]. by apply IH, Hstep.
Qed.

Section Block.

Variable data : fptr.
Variable data' : Ieee.fptr.
Hypothesis same : ∀ i, data' i = Ieee.Num (data i).

Lemma tail_loop_number count i maxVal :
  Ieee.tail_loop data' count i (Ieee.Num maxVal)
  = Ieee.Num (tail_loop data count i maxVal).
Proof.
  unfold Ieee.tail_loop, tail_loop.
  apply (for_loop_related (λ a b, b = Ieee.Num a)); [|done].
  intros j a b ->. by rewrite same, fabs_number, fmax_number.
Qed.

Lemma map2_4_number f f' v w :
  (∀ a b, f' (Ieee.Num a) (Ieee.Num b) = Ieee.Num (f a b)) →
  Ieee.map2_4 f' (number_lanes v) (number_lanes w)
  = number_lanes (map2_4 f v w).
Proof.
  intros Hf. destruct v as [[[a b] c] d], w as [[[a' b'] c'] d']. simpl.
  by rewrite !Hf.
Qed.

Lemma abs4_load4_number i :
  Ieee.abs4 (Ieee.load4 data' i) = number_lanes (abs4 (load4 data i)).
Proof. unfold Ieee.load4, load4. simpl. by rewrite !same. Qed.

Lemma simd_loop_number f f' count :
  (∀ a b, f' (Ieee.Num a) (Ieee.Num b) = Ieee.Num (f a b)) →
  for_loop count (λ i, i + 4 <=? count) 4
    (λ i maxVec, Ieee.map2_4 f' maxVec (Ieee.abs4 (Ieee.load4 data' i)))
    0 Ieee.lanes_zero
  = ((for_loop count (λ i, i + 4 <=? count) 4
        (λ i maxVec, map2_4 f maxVec (abs4 (load4 data i))) 0 lanes_zero).1,
     number_lanes
       (for_loop count (λ i, i + 4 <=? count) 4
          (λ i maxVec, map2_4 f maxVec (abs4 (load4 data i))) 0 lanes_zero).2).
Proof.
  intros Hf.
  destruct (for_loop_related (λ a b, b = number_lanes a) count
              (λ i, i + 4 <=? count) 4
              (λ i maxVec, map2_4 f maxVec (abs4 (load4 data i)))
              (λ i maxVec, Ieee.map2_4 f' maxVec (Ieee.abs4 (Ieee.load4 data' i)))
              0 lanes_zero Ieee.lanes_zero) as [Hi Hv].
  - intros i a b ->. rewrite abs4_load4_number. by apply map2_4_number.
  - done.
  - destruct (for_loop count _ 4 (λ i maxVec, Ieee.map2_4 _ _ _) _ _)
      as [i' v']. simpl in Hi, Hv. by subst.
Qed.

Lemma findMaxAbsSSE2_number count :
  Ieee.findMaxAbsSSE2 data' count = Ieee.Num (findMaxAbsSSE2 data count).
Proof.
  unfold Ieee.findMaxAbsSSE2, findMaxAbsSSE2.
  destruct (count =? 0); [done|].
  rewrite (simd_loop_number mm_max Ieee.mm_max count mm_max_number).
  destruct (for_loop count _ 4 _ 0 lanes_zero) as [i [[[r0 r1] r2] r3]].
  simpl. rewrite !fmax_number. apply tail_loop_number.
Qed.

Lemma findMaxAbsNeon_number count :
  Ieee.findMaxAbsNeon data' count = Ieee.Num (findMaxAbsNeon data count).
Proof.
  unfold Ieee.findMaxAbsNeon, findMaxAbsNeon.
  destruct (count =? 0); [done|].
  rewrite (simd_loop_number vmax Ieee.vmax count vmax_number).
  destruct (for_loop count _ 4 _ 0 lanes_zero) as [i [[[r0 r1] r2] r3]].
  simpl. apply tail_loop_number.
Qed.

Lemma findMaxAbs_number simd count :
  Ieee.findMaxAbs simd data' count = Ieee.Num (findMaxAbs simd data count).
Proof.
  destruct simd; simpl.
  - apply findMaxAbsNeon_number.
  - apply findMaxAbsSSE2_number.
  - apply tail_loop_number.
Qed.

End Block.

Lemma set_cell_number channel pixel v r :
  Ieee.set_cell channel pixel (Ieee.Num v) (number_envelope r)
  = number_envelope (set_cell channel pixel v r).
Proof.
  unfold Ieee.set_cell, set_cell, number_envelope.
  symmetry. apply list_fmap_alter, Forall_forall.
  intros row _. apply list_fmap_insert.
Qed.

Section Processor.

Variable pcm : list Qc.
Variables S C : nat.
Variable cb : callback.
Variable flag : flag_ptr.

Lemma reportProgress_numbers processed w :
  Ieee.reportProgress (numbers pcm) S C cb processed w
  = reportProgress pcm S C cb processed w.
Proof. unfold Ieee.reportProgress, reportProgress. by rewrite numbers_length. Qed.

Lemma endSample_numbers pixel channel :
  Ieee.endSample (numbers pcm) S C pixel channel
  = endSample pcm S C pixel channel.
Proof. unfold Ieee.endSample, endSample. by rewrite numbers_length. Qed.

Lemma strided_max_number pixel channel :
  Ieee.strided_max (numbers pcm) S C pixel channel
  = Ieee.Num (strided_max pcm S C pixel channel).
Proof.
  unfold Ieee.strided_max, strided_max. rewrite endSample_numbers.
  apply (for_loop_related (λ a b, b = Ieee.Num a)); [|done].
  intros i a b ->. by rewrite at_index_numbers, fabs_number, fmax_number.
Qed.

Lemma st_channels_number pixel r :
  Ieee.st_channels (numbers pcm) S C pixel (number_envelope r)
  = number_envelope (st_channels pcm S C pixel r).
Proof.
  unfold Ieee.st_channels, st_channels. revert r.
  induction (seq 0 C) as [|channel l IH]; intros r; simpl; [done|].
  by rewrite strided_max_number, set_cell_number, IH.
Qed.

Lemma mt_channels_number simd pixel r :
  Ieee.mt_channels (numbers pcm) S C simd pixel (number_envelope r)
  = number_envelope (mt_channels pcm S C simd pixel r).
Proof.
  unfold Ieee.mt_channels, mt_channels. revert r.
  induction (seq 0 C) as [|channel l IH]; intros r; simpl; [done|].
  destruct (C =? 1).
  - rewrite endSample_numbers.
    rewrite (findMaxAbs_number (ptr_at pcm (startSample S C pixel channel))).
    + by rewrite set_cell_number, IH.
    + intros i. apply at_index_numbers.
  - by rewrite strided_max_number, set_cell_number, IH.
Qed.

Lemma st_loop_numbers pixels r w :
  Ieee.st_loop (numbers pcm) S C cb flag pixels (number_envelope r) w
  = (number_envelope <$> (st_loop pcm S C cb flag pixels r w).1,
     (st_loop pcm S C cb flag pixels r w).2).
Proof.
  revert r w. induction pixels as [|pixel rest IH]; intros r w;
    cbn [Ieee.st_loop st_loop]; [done|].
  destruct (if pixel mod 100 =? 0 then isCancelled flag (InBucket pixel) w
            else (false, w)) as [[] w']; [done|].
  rewrite st_channels_number, numbers_length, reportProgress_numbers.
  apply IH.
Qed.

Lemma mt_step_numbers simd t m :
  Ieee.mt_step (numbers pcm) S C cb flag simd t (number_machine m)
  = number_machine (mt_step pcm S C cb flag simd t m).
Proof.
  unfold Ieee.mt_step, mt_step. cbn [number_machine Ieee.m_workers
    Ieee.m_result Ieee.pixelsProcessed Ieee.m_world].
  destruct (m_workers m !! t) as [wk|]; [|done].
  destruct (w_returned wk); [done|].
  destruct (w_pending wk) as [processed|].
  { by rewrite reportProgress_numbers. }
  destruct (w_pixel wk <? w_endPixel wk); [|done].
  destruct (if w_pixel wk mod 100 =? 0
            then isCancelled flag (InBucket (w_pixel wk)) (m_world m)
            else (false, m_world m)) as [[] w']; [done|].
  by rewrite mt_channels_number, numbers_length.
Qed.

Lemma pixelsPerThread_numbers numThreads :
  Ieee.pixelsPerThread (numbers pcm) S C numThreads
  = pixelsPerThread pcm S C numThreads.
Proof. unfold Ieee.pixelsPerThread, pixelsPerThread. by rewrite numbers_length. Qed.

Lemma join_numbers simd numThreads m t :
  Ieee.join (numbers pcm) S C cb flag simd numThreads (number_machine m) t
  = number_machine (join pcm S C cb flag simd numThreads m t).
Proof.
  unfold Ieee.join, join. rewrite pixelsPerThread_numbers.
  induction (2 * pixelsPerThread pcm S C numThreads + 1) as [|n IH];
    simpl; [done|].
  by rewrite IH, mt_step_numbers.
Qed.

Lemma mt_run_numbers simd numThreads sched r w :
  Ieee.mt_run (numbers pcm) S C cb flag simd numThreads sched
    (number_envelope r) w
  = number_machine (mt_run pcm S C cb flag simd numThreads sched r w).
Proof.
  unfold Ieee.mt_run, mt_run.
  assert (Ieee.spawn (numbers pcm) S C numThreads
          = spawn pcm S C numThreads) as ->.
  { unfold Ieee.spawn, spawn.
    by rewrite pixelsPerThread_numbers, numbers_length. }
  set (m0 := Machine r _ 0 w).
  change (Ieee.Machine (number_envelope r) _ 0 w) with (number_machine m0).
  assert (∀ l m,
            foldl (λ m t, Ieee.mt_step (numbers pcm) S C cb flag simd t m)
              (number_machine m) l
            = number_machine
                (foldl (λ m t, mt_step pcm S C cb flag simd t m) m l)) as ->.
  { induction l as [|t l IH]; intros m; simpl; [done|].
    by rewrite mt_step_numbers, IH. }
  generalize (foldl (λ m t, mt_step pcm S C cb flag simd t m) m0 sched).
  induction (seq 0 numThreads) as [|t l IH]; intros m; simpl; [done|].
  by rewrite join_numbers, IH.
Qed.

Lemma process_body_numbers hw simd sched w :
  Ieee.process_body (numbers pcm) S C cb flag hw simd sched w
  = (number_envelope (process_body pcm S C cb flag hw simd sched w).1,
     (process_body pcm S C cb flag hw simd sched w).2).
Proof.
  unfold Ieee.process_body, process_body. rewrite numbers_length.
  assert (replicate C (replicate (length pcm / S / C) Ieee.zero)
          = number_envelope (replicate C (replicate (length pcm / S / C) 0%Qc)))
    as ->.
  { unfold number_envelope. by rewrite !fmap_replicate. }
  destruct (Nat.min hw (length pcm / S / C) <=? 1).
  - rewrite st_loop_numbers.
    destruct (st_loop pcm S C cb flag _ _ w) as [[r|] w']; simpl; [|done].
    by rewrite reportProgress_numbers.
  - rewrite mt_run_numbers. cbn [number_machine Ieee.m_world Ieee.m_result].
    destruct (isCancelled flag AfterJoin _) as [[] w']; [done|].
    by rewrite reportProgress_numbers.
Qed.

End Processor.

(** On a buffer of numbers the processor over floats that may be NaN
    does what the processor over ordered floats does. *)
Lemma processWaveform_numbers pf pcm S C cb flag w :
  Ieee.processWaveform pf (numbers pcm) S C cb flag w
  = (number_envelope (processWaveform pf pcm S C cb flag w).1,
     (processWaveform pf pcm S C cb flag w).2).
Proof.
  unfold Ieee.processWaveform, processWaveform.
  assert (bool_decide (numbers pcm = []) = bool_decide (pcm = [])) as ->.
  { apply bool_decide_ext. unfold numbers. split.
    - apply fmap_nil_inv.
    - by intros ->. }
  destruct (_ || _); [done|]. cbn zeta. rewrite numbers_length.
  destruct (_ =? 0); [done|]. apply process_body_numbers.
Qed.

(** a buffer without NaN is a buffer of numbers *)
Lemma numbers_of (xs : list Ieee.float) :
  Forall is_number xs → ∃ pcm, xs = numbers pcm.
Proof.
  induction 1 as [|x xs Hx _ [pcm ->]]; [by exists []|].
  destruct x as [q|]; [|done]. by exists (q :: pcm).
Qed.

End Numbers.

(** *** The strided loop passes over a NaN *)

Lemma foldl_pointwise {A B : Type} (f g : A → B → A) l a :
  (∀ a b, f a b = g a b) → foldl f a l = foldl g a l.
Proof.
  intros H. revert a. induction l as [|b l IH]; intros a; simpl; [done|].
  by rewrite H, IH.
Qed.

Section Scrub.

Variable pcm : list Ieee.float.
Variables S C : nat.
Variable cb : callback.
Variable flag : flag_ptr.

Local Abbreviation pcm' := (numbers (scrub pcm)).

Lemma scrub_length : length pcm' = length pcm.
Proof. unfold numbers, scrub. by rewrite !length_fmap. Qed.

Lemma at_index_scrub i :
  Ieee.at_index pcm' i
  = match Ieee.at_index pcm i with
    | Ieee.Num q => Ieee.Num q
    | Ieee.NaN => Ieee.zero
    end.
Proof.
  unfold Ieee.at_index, numbers, scrub. rewrite !list_lookup_fmap.
  by destruct (pcm !! i) as [[q|]|].
Qed.

(** [std::max(maxAmplitude, std::abs(x))] keeps a [maxAmplitude] that
    is not negative when [x] is a NaN, as it does when [x] is zero *)
Lemma fmax_fabs_scrub a x :
  nonneg_number a →
  Ieee.fmax a (Ieee.fabs x)
  = Ieee.fmax a (Ieee.fabs match x with
                           | Ieee.Num q => Ieee.Num q
                           | Ieee.NaN => Ieee.zero
                           end)
  ∧ nonneg_number (Ieee.fmax a (Ieee.fabs x)).
Proof.
  intros (q & -> & Hq). destruct x as [v|].
  - split; [done|]. rewrite fabs_number, fmax_number. eexists. split; [done|].
    eapply Qcle_trans; [exact Hq|apply fmax_l].
  - unfold Ieee.zero. rewrite fabs_number, fmax_number, fabs_0.
    unfold Ieee.fmax, fmax. simpl.
    rewrite (proj2 (ltb_ge q 0%Qc) Hq). split; [done|]. by exists q.
Qed.

Lemma endSample_scrub pixel channel :
  Ieee.endSample pcm' S C pixel channel = Ieee.endSample pcm S C pixel channel.
Proof. unfold Ieee.endSample. by rewrite scrub_length. Qed.

Lemma strided_max_scrub pixel channel :
  Ieee.strided_max pcm' S C pixel channel
  = Ieee.strided_max pcm S C pixel channel.
Proof.
  unfold Ieee.strided_max. rewrite endSample_scrub. symmetry.
  apply (for_loop_related (λ a b, a = b ∧ nonneg_number a)).
  - intros i a b [<- Ha]. rewrite at_index_scrub.
    by apply fmax_fabs_scrub.
  - split; [done|]. by exists 0%Qc.
Qed.

Lemma tail_loop_scrub start count :
  Ieee.tail_loop (Ieee.ptr_at pcm' start) count 0 Ieee.zero
  = Ieee.tail_loop (Ieee.ptr_at pcm start) count 0 Ieee.zero.
Proof.
  unfold Ieee.tail_loop. symmetry.
  apply (for_loop_related (λ a b, a = b ∧ nonneg_number a)).
  - intros i a b [<- Ha]. unfold Ieee.ptr_at. rewrite at_index_scrub.
    by apply fmax_fabs_scrub.
  - split; [done|]. by exists 0%Qc.
Qed.

Lemma st_channels_scrub pixel r :
  Ieee.st_channels pcm' S C pixel r = Ieee.st_channels pcm S C pixel r.
Proof.
  unfold Ieee.st_channels. apply foldl_pointwise.
  intros result channel. by rewrite strided_max_scrub.
Qed.

(** the workers: with more than one channel, or without a SIMD unit *)
Lemma mt_channels_scrub simd pixel r :
  C ≠ 1 ∨ simd = NoSimd →
  Ieee.mt_channels pcm' S C simd pixel r
  = Ieee.mt_channels pcm S C simd pixel r.
Proof.
  intros Hpath. unfold Ieee.mt_channels. apply foldl_pointwise.
  intros result channel. destruct (C =? 1) eqn:E.
  - apply Nat.eqb_eq in E. destruct Hpath as [HC | ->]; [done|].
    rewrite endSample_scrub. cbn [Ieee.findMaxAbs].
    unfold Ieee.findMaxAbsScalar. by rewrite tail_loop_scrub.
  - by rewrite strided_max_scrub.
Qed.

Lemma reportProgress_scrub processed w :
  Ieee.reportProgress pcm' S C cb processed w
  = Ieee.reportProgress pcm S C cb processed w.
Proof. unfold Ieee.reportProgress. by rewrite scrub_length. Qed.

Lemma st_loop_scrub pixels r w :
  Ieee.st_loop pcm' S C cb flag pixels r w
  = Ieee.st_loop pcm S C cb flag pixels r w.
Proof.
  revert r w. induction pixels as [|pixel rest IH]; intros r w;
    cbn [Ieee.st_loop]; [done|].
  destruct (if pixel mod 100 =? 0 then isCancelled flag (InBucket pixel) w
            else (false, w)) as [[] w']; [done|].
  rewrite st_channels_scrub, scrub_length, reportProgress_scrub. apply IH.
Qed.

Lemma mt_step_scrub simd t m :
  C ≠ 1 ∨ simd = NoSimd →
  Ieee.mt_step pcm' S C cb flag simd t m
  = Ieee.mt_step pcm S C cb flag simd t m.
Proof.
  intros Hpath. unfold Ieee.mt_step.
  destruct (Ieee.m_workers m !! t) as [wk|]; [|done].
  destruct (w_returned wk); [done|].
  destruct (w_pending wk) as [processed|].
  { by rewrite reportProgress_scrub. }
  destruct (w_pixel wk <? w_endPixel wk); [|done].
  destruct (if w_pixel wk mod 100 =? 0
            then isCancelled flag (InBucket (w_pixel wk)) (Ieee.m_world m)
            else (false, Ieee.m_world m)) as [[] w']; [done|].
  by rewrite mt_channels_scrub, scrub_length.
Qed.

Lemma join_scrub simd numThreads m t :
  C ≠ 1 ∨ simd = NoSimd →
  Ieee.join pcm' S C cb flag simd numThreads m t
  = Ieee.join pcm S C cb flag simd numThreads m t.
Proof.
  intros Hpath. unfold Ieee.join, Ieee.pixelsPerThread.
  rewrite scrub_length.
  induction (2 * ((length pcm / S / C + numThreads - 1) / numThreads) + 1)
    as [|n IH]; simpl; [done|].
  by rewrite IH, mt_step_scrub.
Qed.

Lemma mt_run_scrub simd numThreads sched r w :
  C ≠ 1 ∨ simd = NoSimd →
  Ieee.mt_run pcm' S C cb flag simd numThreads sched r w
  = Ieee.mt_run pcm S C cb flag simd numThreads sched r w.
Proof.
  intros Hpath. unfold Ieee.mt_run.
  assert (Ieee.spawn pcm' S C numThreads = Ieee.spawn pcm S C numThreads)
    as ->.
  { unfold Ieee.spawn, Ieee.pixelsPerThread. by rewrite scrub_length. }
  rewrite (foldl_pointwise
             (λ m t, Ieee.mt_step pcm' S C cb flag simd t m)
             (λ m t, Ieee.mt_step pcm S C cb flag simd t m))
    by (intros m t; by apply mt_step_scrub).
  apply foldl_pointwise. intros m t. by apply join_scrub.
Qed.

Lemma process_body_scrub hw simd sched w :
  C ≠ 1 ∨ simd = NoSimd →
  Ieee.process_body pcm' S C cb flag hw simd sched w
  = Ieee.process_body pcm S C cb flag hw simd sched w.
Proof.
  intros Hpath. unfold Ieee.process_body. rewrite scrub_length.
  destruct (Nat.min hw (length pcm / S / C) <=? 1).
  - rewrite st_loop_scrub.
    destruct (Ieee.st_loop pcm S C cb flag _ _ w) as [[r|] w']; [|done].
    by rewrite reportProgress_scrub.
  - rewrite mt_run_scrub by done.
    destruct (isCancelled flag AfterJoin _) as [[] w']; [done|].
    by rewrite reportProgress_scrub.
Qed.

End Scrub.

(** With more than one channel, or without a SIMD unit, the processor
    does on a buffer what it does on the buffer with zero in the place
    of every NaN. *)
Lemma processWaveform_scrub pf pcm S C cb flag w :
  C ≠ 1%Z ∨ simd pf = NoSimd →
  Ieee.processWaveform pf pcm S C cb flag w
  = Ieee.processWaveform pf (numbers (scrub pcm)) S C cb flag w.
Proof.
  intros Hpath. unfold Ieee.processWaveform.
  assert (bool_decide (numbers (scrub pcm) = []) = bool_decide (pcm = []))
    as ->.
  { apply bool_decide_ext. unfold numbers, scrub. split.
    - intros H. by apply fmap_nil_inv, fmap_nil_inv in H.
    - by intros ->. }
  destruct (bool_decide (pcm = []) || (S <=? 0)%Z || (C <=? 0)%Z) eqn:Hg;
    [done|].
  apply orb_false_iff in Hg as [_ HC]. apply Z.leb_gt in HC.
  cbn zeta. rewrite scrub_length.
  destruct (_ =? 0); [done|]. symmetry. apply process_body_scrub.
  destruct Hpath as [H | H]; [left; lia|by right].
Qed.

(** *** The envelope across platforms *)

(** Without cancellation, for a buffer in which no sample is a NaN,
    and for any buffer of more than one channel, the envelope does not
    depend on the platform: the number of CPUs (hence the number of
    workers and the partition of the buckets), the interleaving of the
    workers and the SIMD unit behind [findMaxAbs].  In particular the
    multi-threaded path, with the four-lane reduction for mono,
    returns what the single-threaded scalar path returns. *)
Theorem processWaveform_deterministic_numbers pf pf' pcm S C cb flag w :
  Forall is_number pcm ∨ C ≠ 1%Z → never_set flag →
  (Ieee.processWaveform pf pcm S C cb flag w).1
  = (Ieee.processWaveform pf' pcm S C cb flag w).1.
Proof.
  intros Hpcm Hnever.
  assert (∀ qs, (Ieee.processWaveform pf (numbers qs) S C cb flag w).1
                = (Ieee.processWaveform pf' (numbers qs) S C cb flag w).1)
    as Hnum.
  { intros qs. rewrite !processWaveform_numbers. cbn [fst]. f_equal.
    by apply processWaveform_deterministic. }
  destruct Hpcm as [Hpcm | HC].
  - destruct (numbers_of pcm Hpcm) as [qs ->]. apply Hnum.
  - rewrite (processWaveform_scrub pf), (processWaveform_scrub pf')
      by by left.
    apply Hnum.
Qed.

(** The same holds of a mono buffer with NaN samples between hosts
    that have no SIMD unit: the scalar [findMaxAbs] is the strided
    loop of the single-threaded path. *)
Lemma processWaveform_deterministic_scalar pf pf' pcm S C cb flag w :
  simd pf = NoSimd → simd pf' = NoSimd → never_set flag →
  (Ieee.processWaveform pf pcm S C cb flag w).1
  = (Ieee.processWaveform pf' pcm S C cb flag w).1.
Proof.
  intros Hpf Hpf' Hnever.
  rewrite (processWaveform_scrub pf), (processWaveform_scrub pf')
    by by right.
  apply processWaveform_deterministic_numbers; [left|done].
  apply Forall_forall. intros x Hx.
  apply list_elem_of_fmap in Hx as (q & -> & _). done.
Qed.

(** C3, at the failing input.  A mono buffer of two buckets of twelve
    samples with one NaN, no cancellation.  The single-threaded loop
    keeps the maximum it has when it meets the NaN ([std::max] returns
    its first operand) and returns the peak 0.875 of the first bucket.
    On a host with several CPUs the workers reduce each bucket with
    the four-lane loop: with SSE2, [_mm_max_ps(maxVec, vec)] returns
    its second operand, so the lane takes the NaN and then the sample
    after it, and the peak of the bucket comes out as 0.25; with NEON,
    [vmaxq_f32] returns the NaN.  The envelope depends on the
    platform. *)
Theorem processWaveform_nan_diverges :
  (Ieee.processWaveform single pcm_nan 12 1 None None w0).1
  = [[Ieee.Num (dec 7 8); Ieee.Num (dec 1 2)]]
  ∧ (Ieee.processWaveform quad pcm_nan 12 1 None None w0).1
    = [[Ieee.Num (dec 1 4); Ieee.Num (dec 1 2)]]
  ∧ (Ieee.processWaveform dual pcm_nan 12 1 None None w0).1
    = [[Ieee.NaN; Ieee.Num (dec 1 2)]]
  ∧ (Ieee.processWaveform quad pcm_nan 12 1 None None w0).1
    ≠ (Ieee.processWaveform single pcm_nan 12 1 None None w0).1.
Proof.
  assert ((Ieee.processWaveform single pcm_nan 12 1 None None w0).1
          = [[Ieee.Num (dec 7 8); Ieee.Num (dec 1 2)]]) as Hsingle
    by by_evaluation.
  assert ((Ieee.processWaveform quad pcm_nan 12 1 None None w0).1
          = [[Ieee.Num (dec 1 4); Ieee.Num (dec 1 2)]]) as Hquad
    by by_evaluation.
  split; [exact Hsingle|]. split; [exact Hquad|].
  split; [by_evaluation|]. rewrite Hsingle, Hquad. discriminate.
Qed.

(** the same buffer without the NaN: three steps of the four-lane loop
    in each bucket, and with buckets of five samples one step and a
    scalar tail *)
Lemma processWaveform_deterministic_numbers_witness :
  (Ieee.processWaveform quad (numbers pcm_long) 12 1 None (Some clear) w0).1
  = (Ieee.processWaveform single (numbers pcm_long) 12 1
       None (Some clear) w0).1
  ∧ (Ieee.processWaveform dual (numbers pcm_long) 5 1 None (Some clear) w0).1
    = (Ieee.processWaveform single (numbers pcm_long) 5 1
         None (Some clear) w0).1.
Proof.
  assert (Forall is_number (numbers pcm_long)) as Hnum
    by (apply (bool_decide_unpack _); vm_compute; exact I).
  assert (never_set (Some clear)) as Hclear.
  { intros load Hload k. injection Hload as <-. reflexivity. }
  split; apply processWaveform_deterministic_numbers;
    (by left) || exact Hclear.
Defined.

(** *** Channels *)

Lemma float_channel_samples_numbers pcm C c :
  float_channel_samples (numbers pcm) C c = numbers (channel_samples pcm C c).
Proof.
  unfold float_channel_samples, channel_samples, numbers.
  rewrite length_fmap, <-list_fmap_compose.
  apply list_fmap_ext. intros i j _. simpl. apply at_index_numbers.
Qed.

(** X5. Channels do not influence each other: for a buffer in which no
    sample is a NaN, channel [c] of the envelope of the interleaved
    buffer is the mono envelope of the samples of channel [c] (those
    of the whole frames of the buffer), on any two platforms. *)
Theorem processWaveform_channel_independent pf pf' pcm S C c w :
  Forall is_number pcm → (0 < S)%Z → (0 < C)%Z → c < Z.to_nat C →
  (Ieee.processWaveform pf pcm S C None None w).1 !! c
  = (Ieee.processWaveform pf' (float_channel_samples pcm (Z.to_nat C) c) S 1
       None None w).1 !! 0.
Proof.
  intros Hpcm HS HC Hc. destruct (numbers_of pcm Hpcm) as [qs ->].
  rewrite float_channel_samples_numbers, !processWaveform_numbers.
  cbn [fst]. unfold number_envelope. rewrite !list_lookup_fmap.
  f_equal. by apply channel_independent_ordered.
Qed.

Lemma processWaveform_channel_independent_witness :
  (Ieee.processWaveform dual (numbers pcm_frames) 4 2 None None w0).1 !! 1
  = (Ieee.processWaveform quad
       (float_channel_samples (numbers pcm_frames) 2 1) 4 1
       None None w0).1 !! 0.
Proof.
  apply (processWaveform_channel_independent dual quad
           (numbers pcm_frames) 4 2 1 w0).
  - apply (bool_decide_unpack _). vm_compute. exact I.
  - lia.
  - lia.
  - simpl. lia.
Defined.
